(** * A shallow embedding of the path tracer's rendering core

    The program is a single C translation unit (the renderer) plus the
    camera interface.  Single-precision values are read here as real
    numbers: rounding, infinities and NaN are outside this model, and every
    statement below is about the program's arithmetic as exact arithmetic.
    Division is total on [R] ([x / 0] is [0]) where IEEE division gives an
    infinity or NaN, so for a ray with a zero direction component the slab
    distances of [intersect_cube] are not the IEEE ones; what is proved
    about boxes below concerns the normal only, which the code picks from
    the signs of the direction.  Machine integers are [Z]; the 32-bit
    generation counter wraps. *)

From Stdlib Require Import Reals Lra Psatz ZArith List Lia String Bool.
Import ListNotations.

Local Open Scope R_scope.

(** ** Vectors (vector.h) *)

Record Vector3 : Type := mkV { vx : R; vy : R; vz : R }.

Record Ray : Type := mkRay { origin : Vector3; direction : Vector3 }.

Record Sphere : Type := mkSphere { center : Vector3; radius : R }.

(** Modelled from the spec: vector.h is not among the sources; [combine] is
    the linear combination a*alpha + b*beta. *)
Definition combine (a b : Vector3) (alpha beta : R) : Vector3 :=
  mkV (vx a * alpha + vx b * beta)
      (vy a * alpha + vy b * beta)
      (vz a * alpha + vz b * beta).

(** Modelled from the spec: vector.h is not among the sources; dot product. *)
Definition dotv (a b : Vector3) : R :=
  vx a * vx b + vy a * vy b + vz a * vz b.

(** Modelled from the spec: vector.h is not among the sources; scalar scale. *)
Definition scale (v : Vector3) (s : R) : Vector3 :=
  mkV (vx v * s) (vy v * s) (vz v * s).

(** Modelled from the spec: vector.h is not among the sources; componentwise
    product. *)
Definition mulv (a b : Vector3) : Vector3 :=
  mkV (vx a * vx b) (vy a * vy b) (vz a * vz b).

(** Modelled from the spec: vector.h is not among the sources; length. *)
Definition lenv (v : Vector3) : R := sqrt (dotv v v).

(** Modelled from the spec: vector.h is not among the sources; normalization
    divides a vector by its length. *)
Definition normalize (v : Vector3) : Vector3 := scale v (/ lenv v).

Definition zerov : Vector3 := mkV 0 0 0.

(** ** Scalar helpers *)

Definition Rltb (x y : R) : bool := if Rlt_dec x y then true else false.
Definition Rleb (x y : R) : bool := if Rle_dec x y then true else false.
Definition Reqb (x y : R) : bool := if Req_dec_T x y then true else false.

Definition maxf (x y : R) : R := if Rltb y x then x else y.
Definition minf (x y : R) : R := if Rltb x y then x else y.
Definition absf (x : R) : R := if Rltb x 0 then - x else x.

Definition clamp (x min max : R) : R :=
  if Rltb x min then min
  else if Rltb max x then max
  else x.

Definition maxv (a b : Vector3) : Vector3 :=
  mkV (maxf (vx a) (vx b)) (maxf (vy a) (vy b)) (maxf (vz a) (vz b)).

Definition vec_from_scalar (s : R) : Vector3 := mkV s s s.

(** [pow(x, 5.0)] as it is used by the Fresnel term. *)
Definition pow5 (x : R) : R := x ^ 5.

Definition fresnelSchlick (u : R) (f0 : Vector3) : Vector3 :=
  combine f0 (combine (vec_from_scalar 1) f0 1 (-1)) 1 (pow5 (1 - u)).

(** Conversion of a float to [int] truncates toward zero. *)
Definition truncR (r : R) : Z :=
  if Rleb 0 r then Int_part r else (- Int_part (- r))%Z.

(** ** Materials and objects *)

Record Material : Type := mkMaterial {
  albedo : Vector3;
  roughness : R;
  reflectance : R;
  metallic : R;
  emission_power : R;
  emission_color : Vector3
}.

Record Cube : Type := mkCube { cube_origin : Vector3; cube_size : Vector3 }.

Inductive Shape : Type :=
| OBJECT_CUBE (c : Cube)
| OBJECT_SPHERE (s : Sphere).

Record Object : Type := mkObject { shape : Shape; material : Material }.

Definition cube (m : Material) (o size : Vector3) : Object :=
  mkObject (OBJECT_CUBE (mkCube o size)) m.

Definition sphere (m : Material) (o : Vector3) (r : R) : Object :=
  mkObject (OBJECT_SPHERE (mkSphere o r)) m.

(** ** Startup: the worker scales handed out by [main] *)

Local Open Scope Z_scope.

(** The body of the spawning loop: [1 << i], reset to 1 when above 16. *)
Definition init_scale (i : Z) : Z :=
  let s := Z.shiftl 1 i in
  if 16 <? s then 1 else s.

(** The arguments given to [os_thread_create], in spawning order. *)
Fixpoint spawn_from (i : Z) (n : nat) : list Z :=
  match n with
  | O => []
  | S n' => init_scale i :: spawn_from (i + 1) n'
  end.

Definition spawned_scales : list Z := spawn_from 0 16.

(** ** The scene store *)

Definition MAX_OBJECTS : Z := 1024.

(** A call either returns or aborts the process with a diagnostic. *)
Inductive outcome (A : Type) : Type :=
| Returns (a : A)
| Aborts (diagnostic : string).
Arguments Returns {A} a.
Arguments Aborts {A} diagnostic.

(** The store is the array prefix [objects[0 .. num_objects)]. *)
Definition SceneStore : Type := list Object.

Definition num_objects (st : SceneStore) : Z := Z.of_nat (List.length st).

(** [add_object] is a [void] function: the value it returns is [tt]. *)
Definition add_object (o : Object) (st : SceneStore) : outcome (unit * SceneStore) :=
  if num_objects st <? MAX_OBJECTS
  then Returns (tt, (st ++ [o])%list)
  else Returns (tt, st).

(** [load_cubemap]'s error path, the program's configuration error: the
    first face whose file the decoder cannot read aborts the process. *)
Fixpoint load_faces {Img : Type} (stbi_load : string -> option Img)
  (files : list string) : outcome (list Img) :=
  match files with
  | [] => Returns []
  | f :: rest =>
      match stbi_load f with
      | None => Aborts ("Couldn't load image '" ++ f ++ "'")%string
      | Some img =>
          match load_faces stbi_load rest with
          | Returns imgs => Returns (img :: imgs)
          | Aborts d => Aborts d
          end
      end
  end.

Local Close Scope Z_scope.

(** ** The cubemap sampler *)

Inductive CubeFace : Type :=
| CF_FRONT | CF_BACK | CF_LEFT | CF_RIGHT | CF_TOP | CF_BOTTOM.

(** Six faces of raw 8-bit pixels, [chan] bytes per pixel, row-major. *)
Record Cubemap : Type := mkCubemap {
  data : CubeFace -> list Z;
  cm_w : Z;
  cm_h : Z;
  chan : Z
}.

(** The face-selection cascade of [sample_cubemap]: the chosen face and the
    raw (u, v) before clamping.  [a > b] is [Rltb b a].  The divisions are
    those of the real numbers: a direction that falls through to the z
    faces with a zero z component makes the source divide by zero, which
    no real number stands for, and the properties of the coordinates and
    of the reads below are stated for the other directions. *)
Definition cubemap_face_uv (dir : Vector3) : CubeFace * R * R :=
  let abs_x := absf (vx dir) in
  let abs_y := absf (vy dir) in
  let abs_z := absf (vz dir) in
  let eps := 0 in
  if Rltb abs_y abs_x && Rltb abs_z abs_x then
    if Rltb 0 (vx dir)
    then (CF_RIGHT, - vz dir / (abs_x + eps), - vy dir / (abs_x + eps))
    else (CF_LEFT, vz dir / (abs_x + eps), - vy dir / (abs_x + eps))
  else if Rltb abs_x abs_y && Rltb abs_z abs_y then
    if Rltb 0 (vy dir)
    then (CF_TOP, vx dir / (abs_y + eps), vz dir / (abs_y + eps))
    else (CF_BOTTOM, vx dir / (abs_y + eps), - vz dir / (abs_y + eps))
  else
    if Rltb 0 (vz dir)
    then (CF_FRONT, vx dir / (abs_z + eps), - vy dir / (abs_z + eps))
    else (CF_BACK, - vx dir / (abs_z + eps), - vy dir / (abs_z + eps)).

Definition cubemap_face (dir : Vector3) : CubeFace :=
  fst (fst (cubemap_face_uv dir)).

(** The divisor [abs + eps] of the branch of the cascade that is taken. *)
Definition cubemap_divisor (dir : Vector3) : R :=
  let abs_x := absf (vx dir) in
  let abs_y := absf (vy dir) in
  let abs_z := absf (vz dir) in
  let eps := 0 in
  if Rltb abs_y abs_x && Rltb abs_z abs_x then abs_x + eps
  else if Rltb abs_x abs_y && Rltb abs_z abs_y then abs_y + eps
  else abs_z + eps.

Definition sample_cubemap (c : Cubemap) (dir : Vector3) : Vector3 :=
  let '(face, u, v) := cubemap_face_uv dir in
  let u := clamp u (-1) 1 in
  let v := clamp v (-1) 1 in
  let u := (1 / 2) * (u + 1) in
  let v := (1 / 2) * (v + 1) in
  let x := truncR (u * IZR (cm_w c - 1)) in
  let y := truncR (v * IZR (cm_h c - 1)) in
  let color (k : Z) :=
    nth (Z.to_nat ((y * cm_w c + x) * chan c + k)) (data c face) 0%Z in
  mkV (IZR (color 0%Z) / 255) (IZR (color 1%Z) / 255) (IZR (color 2%Z) / 255).

(** ** Primitive intersection *)

(** The slab test.  The C function writes [tnear], [tfar] and [normal]
    through pointers and returns a flag; here a hit carries the three.
    The divisions are those of the real numbers: a ray with a zero
    direction component makes the source divide by zero, which no real
    number stands for, and the properties of the slab test below are
    stated for rays whose three direction components are not zero. *)
Definition intersect_cube (r : Ray) (c : Cube) : option (R * R * Vector3) :=
  let a := cube_origin c in
  let b := combine (cube_origin c) (cube_size c) 1 1 in
  let o := origin r in
  let d := direction r in
  let hit_axis := 0%Z in
  let '(txmin, txmax) :=
    if Rleb 0 (vx d)
    then ((vx a - vx o) / vx d, (vx b - vx o) / vx d)
    else ((vx b - vx o) / vx d, (vx a - vx o) / vx d) in
  let '(tymin, tymax) :=
    if Rleb 0 (vy d)
    then ((vy a - vy o) / vy d, (vy b - vy o) / vy d)
    else ((vy b - vy o) / vy d, (vy a - vy o) / vy d) in
  if Rltb tymax txmin || Rltb txmax tymin then None else
  let '(txmin, hit_axis) :=
    if Rltb txmin tymin then (tymin, 1%Z) else (txmin, hit_axis) in
  let txmax := if Rltb tymax txmax then tymax else txmax in
  let '(tzmin, tzmax) :=
    if Rleb 0 (vz d)
    then ((vz a - vz o) / vz d, (vz b - vz o) / vz d)
    else ((vz b - vz o) / vz d, (vz a - vz o) / vz d) in
  if Rltb tzmax txmin || Rltb txmax tzmin then None else
  let '(txmin, hit_axis) :=
    if Rltb txmin tzmin then (tzmin, 2%Z) else (txmin, hit_axis) in
  let txmax := if Rltb tzmax txmax then tzmax else txmax in
  let normal :=
    if (hit_axis =? 0)%Z then
      if Rltb 0 (vx d) then mkV (-1) 0 0 else mkV 1 0 0
    else if (hit_axis =? 1)%Z then
      if Rltb 0 (vy d) then mkV 0 (-1) 0 else mkV 0 1 0
    else
      if Rltb 0 (vz d) then mkV 0 0 (-1) else mkV 0 0 1 in
  Some (txmin, txmax, normal).

(** The coefficients of the quadratic that [intersect_sphere] solves. *)
Definition sphere_a (r : Ray) : R := dotv (direction r) (direction r).
Definition sphere_b (r : Ray) (s : Sphere) : R :=
  -2 * dotv (combine (center s) (origin r) 1 (-1)) (direction r).
Definition sphere_c (r : Ray) (s : Sphere) : R :=
  let oc := combine (center s) (origin r) 1 (-1) in
  dotv oc oc - radius s * radius s.
Definition sphere_discr (r : Ray) (s : Sphere) : R :=
  sphere_b r s * sphere_b r s - 4 * sphere_a r * sphere_c r s.

(** The two roots, in the order the code computes them. *)
Definition sphere_root_plus (r : Ray) (s : Sphere) : R :=
  (- sphere_b r s + sqrt (sphere_discr r s)) / (2 * sphere_a r).
Definition sphere_root_minus (r : Ray) (s : Sphere) : R :=
  (- sphere_b r s - sqrt (sphere_discr r s)) / (2 * sphere_a r).

Definition intersect_sphere (r : Ray) (s : Sphere) : option R :=
  let discr := sphere_discr r s in
  if Rltb 0 discr then
    let s0 := sphere_root_plus r s in
    let s1 := sphere_root_minus r s in
    let '(s0, s1) := if Rltb s1 s0 then (s1, s0) else (s0, s1) in
    if Rltb s0 0 then
      let s0 := s1 in
      if Rltb s0 0 then None else Some s0
    else Some s0
  else None.

(** [intersect_object] as [trace_ray] calls it, with both out-pointers set. *)
Definition intersect_object (r : Ray) (o : Object) : option (R * Vector3) :=
  match shape o with
  | OBJECT_CUBE c =>
      match intersect_cube r c with
      | Some (tnear, _, n) => Some (tnear, n)
      | None => None
      end
  | OBJECT_SPHERE s =>
      match intersect_sphere r s with
      | Some t =>
          let hit_point := combine (origin r) (direction r) 1 t in
          Some (t, normalize (combine hit_point (center s) 1 (-1)))
      | None => None
      end
  end.

Definition reflect (dir normal : Vector3) : Vector3 :=
  let f := -2 * dotv normal dir in
  combine dir normal 1 f.

Record HitInfo : Type := mkHit {
  distance : R;
  point : Vector3;
  normal : Vector3;
  object : Z
}.

Definition FLT_MAX : R := 340282346638528859811704183484516925440.

(** The scan of [trace_ray] from index [i] on; the not yet assigned
    [nearest_normal] is the zero vector. *)
Fixpoint trace_scan (ray : Ray) (objs : list Object) (i : Z)
  (nearest : R * Z * Vector3) : R * Z * Vector3 :=
  match objs with
  | [] => nearest
  | o :: rest =>
      let '(nearest_t, _, _) := nearest in
      match intersect_object ray o with
      | None => trace_scan ray rest (i + 1)%Z nearest
      | Some (t, n) =>
          if Rleb 0 t && Rltb t nearest_t
          then trace_scan ray rest (i + 1)%Z (t, i, n)
          else trace_scan ray rest (i + 1)%Z nearest
      end
  end.

Definition trace_ray (objects : SceneStore) (ray0 : Ray) : HitInfo :=
  let ray := mkRay (origin ray0) (normalize (direction ray0)) in
  let '(nearest_t, nearest_object, nearest_normal) :=
    trace_scan ray objects 0%Z (FLT_MAX, (-1)%Z, zerov) in
  if (nearest_object =? -1)%Z
  then mkHit (-1) zerov zerov (-1)%Z
  else mkHit nearest_t
             (combine (origin ray) (direction ray) 1 nearest_t)
             nearest_normal nearest_object.

Definition origin_of (o : Object) : Vector3 :=
  match shape o with
  | OBJECT_SPHERE s => center s
  | OBJECT_CUBE c => combine (cube_origin c) (cube_size c) 1 (1 / 2)
  end.

Definition iszerof (f : R) : bool := Rltb f (1 / 10000) && Rltb (- (1 / 10000)) f.

Definition iszerov (v : Vector3) : bool :=
  iszerof (vx v) && iszerof (vy v) && iszerof (vz v).

Definition avgv (v : Vector3) : R := (vx v + vy v + vz v) / 3.

(** ** The radiance estimator

    [rand()] is global state: every call of [random_float] consumes the
    next value of a stream.  Code that draws random numbers runs in a state
    monad over the position in that stream. *)

Definition Rand (A : Type) : Type := nat -> A * nat.

Definition ret {A : Type} (a : A) : Rand A := fun k => (a, k).

Definition bind {A B : Type} (m : Rand A) (f : A -> Rand B) : Rand B :=
  fun k => let r := m k in f (fst r) (snd r).

Notation "x <- m ;; f" := (bind m (fun x => f))
  (at level 61, m at next level, right associativity).

Record PathState : Type := mkPath {
  in_ray : Ray;
  contrib : Vector3;
  result : Vector3
}.

(** One pass through the body of the bounce loop either leaves the loop
    with the radiance gathered so far or goes on with a new state. *)
Inductive LoopStep : Type :=
| Break (r : Vector3)
| Continue (st : PathState).

Section Renderer.

(** The camera module (camera.c) is not among the sources. *)
Variable ray_through_screen_at : R -> R -> R -> Ray.
Variable skybox : Cubemap.
Variable objects : SceneStore.
(** [rnd k] is the value of the [k]-th call of [random_float]. *)
Variable rnd : nat -> R.

Definition random_float : Rand R := fun k => (rnd k, S k).

(** The three calls of the initializer are taken in the order x, y, z. *)
Definition random_vector : Rand Vector3 :=
  x <- random_float ;;
  y <- random_float ;;
  z <- random_float ;;
  ret (mkV (x * 2 - 1) (y * 2 - 1) (z * 2 - 1)).

Definition random_direction : Rand Vector3 :=
  v <- random_vector ;; ret (normalize v).

(** [objects[i]]; the global array is zero-initialised. *)
Definition object_at (i : Z) : Object :=
  nth (Z.to_nat i) objects
      (cube (mkMaterial zerov 0 0 0 0 zerov) zerov zerov).

(** Mirror a random direction into the hemisphere of the normal. *)
Definition into_hemisphere (rand_dir n : Vector3) : Vector3 :=
  if Rltb (dotv rand_dir n) 0 then scale rand_dir (-1) else rand_dir.

(** The shadow ray of one light sample. *)
Definition shadow_ray (hit : HitInfo) (dir_to_light_source rand_dir : Vector3) : Ray :=
  let spread := 1 / 2 in
  let sample_dir := normalize (combine rand_dir dir_to_light_source spread 1) in
  mkRay (combine (point hit) sample_dir 1 (1 / 1000)) sample_dir.

(** The body of the loop over [k]. *)
Definition light_sample (hit : HitInfo) (dir_to_light_source : Vector3)
  (sampled_light_color : Vector3) : Rand Vector3 :=
  rand_dir <- random_direction ;;
  let rand_dir := into_hemisphere rand_dir (normal hit) in
  let hit2 := trace_ray objects (shadow_ray hit dir_to_light_source rand_dir) in
  ret (if (object hit2 =? -1)%Z then sampled_light_color
       else combine sampled_light_color
              (emission_color (material (object_at (object hit2)))) 1
              (emission_power (material (object_at (object hit2))))).

Fixpoint light_samples (samples : nat) (hit : HitInfo)
  (dir_to_light_source : Vector3) (sampled_light_color : Vector3) : Rand Vector3 :=
  match samples with
  | O => ret sampled_light_color
  | S n =>
      c <- light_sample hit dir_to_light_source sampled_light_color ;;
      light_samples n hit dir_to_light_source c
  end.

(** The loop over [j], from object [j] on: [continue] on a dark object or
    on the hit object, [break] after the first object sampled. *)
Fixpoint light_scan (objs : list Object) (j : Z) (hit : HitInfo) : Rand Vector3 :=
  match objs with
  | [] => ret zerov
  | o :: rest =>
      if Reqb (emission_power (material o)) 0 || (j =? object hit)%Z
      then light_scan rest (j + 1)%Z hit
      else
        c <- light_samples 5 hit (combine (origin_of o) (point hit) 1 (-1)) zerov ;;
        ret (scale c (1 / 5))
  end.

Definition sampled_light (hit : HitInfo) : Rand Vector3 :=
  light_scan objects 0%Z hit.

(** The body of the bounce loop of [pixel]. *)
Definition bounce (st : PathState) : Rand LoopStep :=
  let hit := trace_ray objects (in_ray st) in
  if (object hit =? -1)%Z then
    let sky_color := sample_cubemap skybox (normalize (direction (in_ray st))) in
    ret (Break (combine (result st) (mulv sky_color (contrib st)) 1 1))
  else
    sampled_light_color <- sampled_light hit ;;
    let m := material (object_at (object hit)) in
    let v := scale (direction (in_ray st)) (-1) in
    let n := normal hit in
    let NoV := clamp (dotv n v) 0 1 in
    let f0_dielectric := vec_from_scalar (16 / 100 * reflectance m * reflectance m) in
    let f0_metal := albedo m in
    let f0 := combine f0_dielectric f0_metal (1 - metallic m) (metallic m) in
    let F := fresnelSchlick NoV f0 in
    rand_dir <- random_direction ;;
    let rand_dir := into_hemisphere rand_dir (normal hit) in
    let result1 :=
      combine (result st)
        (mulv (scale (emission_color m) (emission_power m)) (contrib st)) 1 1 in
    specular <-
      (if Rltb (1 / 1000) (metallic m) then ret true
       else (f <- random_float ;; ret (Rleb f (avgv F)))) ;;
    let '(out_dir, contrib1) :=
      if specular : bool then
        let reflect_dir := reflect (direction (in_ray st)) (scale (normal hit) (-1)) in
        (normalize (combine rand_dir reflect_dir (roughness m) 1), contrib st)
      else
        (rand_dir, mulv (contrib st) (scale (albedo m) (1 - metallic m))) in
    let out_ray := mkRay (combine (point hit) out_dir 1 (1 / 1000)) out_dir in
    let light_sample_weight := 5 / 100 in
    let '(result2, contrib2) :=
      if negb (iszerov sampled_light_color) then
        (combine result1 (mulv sampled_light_color contrib1) 1 light_sample_weight,
         scale contrib1 (1 - light_sample_weight))
      else (result1, contrib1) in
    ret (Continue (mkPath out_ray contrib2 result2)).

(** [n] passes of the loop that have not yet been run. *)
Fixpoint pixel_loop (n : nat) (st : PathState) : Rand Vector3 :=
  match n with
  | O => ret (result st)
  | S n' =>
      s <- bounce st ;;
      match s with
      | Break r => ret r
      | Continue st' => pixel_loop n' st'
      end
  end.

Definition pixel (x y aspect_ratio : R) : Rand Vector3 :=
  let in_ray := ray_through_screen_at x y aspect_ratio in
  r <- pixel_loop 5 (mkPath in_ray (mkV 1 1 1) (mkV 0 0 0)) ;;
  ret (mkV (clamp (vx r) 0 1) (clamp (vy r) 0 1) (clamp (vz r) 0 1)).

(** The path state at the end of the [n]-th bounce, when the loop is
    still running there. *)
Fixpoint bounces (n : nat) (st : PathState) : Rand (option PathState) :=
  match n with
  | O => ret (Some st)
  | S n' =>
      s <- bounce st ;;
      match s with
      | Break _ => ret None
      | Continue st' => bounces n' st'
      end
  end.

(** The direct-light estimate as the specification words it: the first
    object in scan order that emits and is not the hit object; five
    shadow rays towards it; each ray that hits an object adds that
    object's emission; the sum is divided by five. *)
Fixpoint first_light (objs : list Object) (j : Z) (hit : HitInfo) : option Object :=
  match objs with
  | [] => None
  | o :: rest =>
      if negb (Reqb (emission_power (material o)) 0) && negb (j =? object hit)%Z
      then Some o
      else first_light rest (j + 1)%Z hit
  end.

(** The jittered direction of the sample that starts at stream position [k]. *)
Definition jitter_at (hit : HitInfo) (k : nat) : Vector3 :=
  into_hemisphere
    (normalize (mkV (rnd k * 2 - 1) (rnd (k + 1) * 2 - 1) (rnd (k + 2) * 2 - 1)))
    (normal hit).

(** What one shadow ray contributes. *)
Definition shadow_emission (ray : Ray) : Vector3 :=
  let hit2 := trace_ray objects ray in
  if (object hit2 =? -1)%Z then zerov
  else scale (emission_color (material (object_at (object hit2))))
             (emission_power (material (object_at (object hit2)))).

Definition addv (a b : Vector3) : Vector3 := combine a b 1 1.

(** The same estimate written out from the specification's words alone,
    coordinate by coordinate, with none of the functions that embed the
    light loop of [pixel].

    The random hemispheric vector of the sample that starts at stream
    position [k]: three numbers of the stream mapped to [-1,1], normalized,
    and mirrored when it points away from the hit normal. *)
Definition spec_hemispheric (hit : HitInfo) (k : nat) : Vector3 :=
  let r := normalize (mkV (2 * rnd k - 1) (2 * rnd (k + 1) - 1) (2 * rnd (k + 2) - 1)) in
  if Rltb (dotv r (normal hit)) 0 then mkV (- vx r) (- vy r) (- vz r) else r.

(** The candidate direction is the vector from the hit point toward the
    light's origin plus the random hemispheric vector scaled by the spread
    of one half, normalized; the shadow ray starts 0.001 along that
    direction from the hit point. *)
Definition spec_shadow_ray (hit : HitInfo) (light : Object) (k : nat) : Ray :=
  let h := spec_hemispheric hit k in
  let o := origin_of light in
  let p := point hit in
  let d := normalize (mkV (vx o - vx p + vx h / 2)
                          (vy o - vy p + vy h / 2)
                          (vz o - vz p + vz h / 2)) in
  mkRay (mkV (vx p + vx d / 1000) (vy p + vy d / 1000) (vz p + vz d / 1000)) d.

(** A shadow ray that hits an object brings that object's emission colour
    times its emission power; one that escapes brings nothing. *)
Definition spec_emission (ray : Ray) : Vector3 :=
  let hit2 := trace_ray objects ray in
  if (object hit2 =? -1)%Z then mkV 0 0 0
  else
    let m := material (object_at (object hit2)) in
    mkV (vx (emission_color m) * emission_power m)
        (vy (emission_color m) * emission_power m)
        (vz (emission_color m) * emission_power m).

Definition direct_light_spec (hit : HitInfo) (k : nat) : Vector3 :=
  match first_light objects 0%Z hit with
  | None => mkV 0 0 0
  | Some light =>
      let e (s : nat) := spec_emission (spec_shadow_ray hit light (k + 3 * s)) in
      let total :=
        fold_left (fun acc s => mkV (vx acc + vx (e s)) (vy acc + vy (e s)) (vz acc + vz (e s)))
                  (seq 0 5) (mkV 0 0 0) in
      mkV (vx total / 5) (vy total / 5) (vz total / 5)
  end.

(** Whether the bounce that starts in state [st] at stream position [k]
    is specular, as the specification words it: F0 is
    mix(0.16 r^2, albedo, metallic), F is Fresnel-Schlick at the clamped
    N.V, and the bounce is specular when metallic exceeds 0.001 or a draw
    is at most the average of F.  The draw is the one that follows the
    three numbers of the random direction, which follow the draws of the
    direct-light estimate. *)
Definition bounce_is_specular (st : PathState) (k : nat) : bool :=
  let hit := trace_ray objects (in_ray st) in
  let m := material (object_at (object hit)) in
  let d := direction (in_ray st) in
  let NoV := clamp (dotv (normal hit) (mkV (- vx d) (- vy d) (- vz d))) 0 1 in
  let r2 := 16 / 100 * reflectance m * reflectance m in
  let f0 := mkV (r2 * (1 - metallic m) + vx (albedo m) * metallic m)
                (r2 * (1 - metallic m) + vy (albedo m) * metallic m)
                (r2 * (1 - metallic m) + vz (albedo m) * metallic m) in
  let draw := rnd (snd (sampled_light hit k) + 3)%nat in
  Rltb (1 / 1000) (metallic m) || Rleb draw (avgv (fresnelSchlick NoV f0)).

(** Whether the direct-light estimate of that bounce is non-zero. *)
Definition bounce_is_lit (st : PathState) (k : nat) : bool :=
  negb (iszerov (fst (sampled_light (trace_ray objects (in_ray st)) k))).

End Renderer.

(** Predicates on colours and materials. *)

Definition in_unit (v : Vector3) : Prop :=
  0 <= vx v <= 1 /\ 0 <= vy v <= 1 /\ 0 <= vz v <= 1.

(** Componentwise order. *)
Definition le3 (a b : Vector3) : Prop :=
  vx a <= vx b /\ vy a <= vy b /\ vz a <= vz b.

Definition material_ok (m : Material) : Prop :=
  in_unit (albedo m) /\ 0 <= metallic m <= 1.

(** How one bounce changes [contrib]: a specular bounce keeps it and a
    diffuse bounce multiplies it by albedo * (1 - metallic); then a
    non-zero light sample scales it by 1 - 0.05. *)
Definition contrib_step (m : Material) (c c' : Vector3) : Prop :=
  exists c1,
    (c1 = c \/ c1 = mulv c (scale (albedo m) (1 - metallic m))) /\
    (c' = c1 \/ c' = scale c1 (1 - 5 / 100)).

(** The throughput after a bounce, as the specification words it: a
    specular bounce leaves it unchanged, a diffuse bounce multiplies it by
    albedo * (1 - metallic), and a non-zero light sample then scales it by
    0.95. *)
Definition contrib_after (m : Material) (specular lit : bool) (c : Vector3) : Vector3 :=
  let c1 :=
    if specular then c
    else mkV (vx c * (vx (albedo m) * (1 - metallic m)))
             (vy c * (vy (albedo m) * (1 - metallic m)))
             (vz c * (vz (albedo m) * (1 - metallic m))) in
  if lit then mkV (95 / 100 * vx c1) (95 / 100 * vy c1) (95 / 100 * vz c1) else c1.

(** ** The shared accumulator, the workers and the presenter *)

(** Everything the frame mutex protects.  A buffer is [None] while its
    pointer is NULL. *)
Record Shared : Type := mkShared {
  accum_generation : Z;
  accum : option (list Vector3);
  frame : option (list Vector3);
  frame_w : Z;
  frame_h : Z;
  accum_count : R
}.

(** The locals of one [worker]. *)
Record Local : Type := mkLocal {
  local_accum_generation : Z;
  local_accum : option (list Vector3);
  local_accum_count : R;
  local_frame_w : Z;
  local_frame_h : Z
}.

Definition init_shared : Shared := mkShared 0 None None 0 0 0.
Definition init_local : Local := mkLocal 0 None 0 0 0.

(** [0, 1, ..., n-1], the values of a counting loop's variable. *)
Definition upto (n : Z) : list Z := map Z.of_nat (seq 0 (Z.to_nat n)).

(** A store through [buf[idx]]; outside the buffer the C program has no
    defined behaviour, which is [None] here. *)
Fixpoint update_at (n : nat) (f : Vector3 -> Vector3) (buf : list Vector3)
  : option (list Vector3) :=
  match buf, n with
  | [], _ => None
  | x :: rest, O => Some (f x :: rest)
  | x :: rest, S n' => option_map (cons x) (update_at n' f rest)
  end.

Definition store_at (idx : Z) (f : Vector3 -> Vector3) (buf : list Vector3)
  : option (list Vector3) :=
  if (idx <? 0)%Z then None else update_at (Z.to_nat idx) f buf.

Fixpoint store_all (idxs : list Z) (f : Vector3 -> Vector3)
  (buf : option (list Vector3)) : option (list Vector3) :=
  match idxs with
  | [] => buf
  | idx :: rest =>
      match buf with
      | None => None
      | Some b => store_all rest f (store_at idx f b)
      end
  end.

(** The merge loop: [accum[i] += local_accum[i]] for [i < n]. *)
Fixpoint merge_buffers (n : nat) (acc loc : list Vector3) : option (list Vector3) :=
  match n with
  | O => Some acc
  | S n' =>
      match acc, loc with
      | a :: acc', l :: loc' =>
          option_map (cons (combine a l 1 1)) (merge_buffers n' acc' loc')
      | _, _ => None
      end
  end.

(** The guard of the merge in the critical section of [worker]. *)
Definition merge_enabled (sh : Shared) (w : Local) : bool :=
  match accum sh, local_accum w with
  | Some _, Some _ => (local_accum_generation w =? accum_generation sh)%Z
  | _, _ => false
  end.

(** [memset] of the first [n] elements. *)
Definition memset_zero (n : nat) (buf : list Vector3) : list Vector3 :=
  (repeat zerov (Nat.min n (List.length buf)) ++ skipn n buf)%list.

(** The critical section of [worker]: the new shared state, the new
    locals and the [resize] flag. *)
Definition worker_sync (sh : Shared) (w : Local) : option (Shared * Local * bool) :=
  let merged :=
    match accum sh, local_accum w with
    | Some acc, Some loc =>
        if (local_accum_generation w =? accum_generation sh)%Z then
          match merge_buffers (Z.to_nat (frame_w sh * frame_h sh)) acc loc with
          | Some acc' =>
              Some (mkShared (accum_generation sh) (Some acc') (frame sh)
                      (frame_w sh) (frame_h sh)
                      (accum_count sh + local_accum_count w))
          | None => None
          end
        else Some sh
    | _, _ => Some sh
    end in
  match merged with
  | None => None
  | Some sh' =>
      let zeroed :=
        option_map
          (memset_zero (Z.to_nat (local_frame_w w * local_frame_h w)))
          (local_accum w) in
      let resize :=
        negb (local_frame_w w =? frame_w sh)%Z || negb (local_frame_h w =? frame_h sh)%Z in
      Some (sh', mkLocal (accum_generation sh) zeroed 0 (frame_w sh) (frame_h sh), resize)
  end.

(** The reallocation after the critical section (allocation succeeds). *)
Definition worker_realloc (resize : bool) (w : Local) : Local :=
  if resize then
    mkLocal (local_accum_generation w)
      (Some (repeat zerov (Z.to_nat (local_frame_w w * local_frame_h w))))
      (local_accum_count w) (local_frame_w w) (local_frame_h w)
  else w.

(** The coarse cells of a pass, in loop order ([j] outer, [i] inner). *)
Definition cells (lowres_w lowres_h : Z) : list (Z * Z) :=
  flat_map (fun j => map (fun i => (i, j)) (upto lowres_w)) (upto lowres_h).

(** The pixel indices that the splat of cell [(i, j)] stores to.  The row
    stride is the shared [frame_w], which the worker reads as it runs. *)
Definition tile_indices (scale local_frame_w local_frame_h frame_w i j : Z) : list Z :=
  let tile_w := scale in
  let tile_h := scale in
  let tile_w :=
    if (local_frame_w - i * scale <? tile_w)%Z then (local_frame_w - i * scale)%Z else tile_w in
  let tile_h :=
    if (local_frame_h - j * scale <? tile_h)%Z then (local_frame_h - j * scale)%Z else tile_h in
  flat_map
    (fun g =>
       map (fun t =>
              let real_i := (i * scale + t)%Z in
              let real_j := (j * scale + g)%Z in
              (real_j * frame_w + real_i)%Z)
           (upto tile_w))
    (upto tile_h).

(** Every index a pass at [scale] stores to, in order. *)
Definition pass_indices (scale local_frame_w local_frame_h frame_w : Z) : list Z :=
  flat_map
    (fun c => tile_indices scale local_frame_w local_frame_h frame_w (fst c) (snd c))
    (cells (Z.quot local_frame_w scale) (Z.quot local_frame_h scale)).

(** The pixel indices that the preview's splat of cell [(i, j)] stores to. *)
Definition seed_indices (frame_w i j : Z) : list Z :=
  flat_map
    (fun g => map (fun t => ((j * 16 + g) * frame_w + (i * 16 + t))%Z) (upto 16))
    (upto 16).

Section Accumulation.

(** [render] stands for [pixel] with its camera, skybox, scene and
    random stream. *)
Variable render : R -> R -> R -> Rand Vector3.

(** The cells of a worker pass: one call of [pixel] and one splat each.
    The divisions are those of the real numbers: on a coarse grid exactly
    one cell wide or high the source divides 0 by 0 for [u] or [v], which
    no real number stands for, and the properties of a rendered pass
    below are stated for the other grids. *)
Fixpoint pass_cells (scale lw lh fw lowres_w lowres_h : Z) (cs : list (Z * Z))
  (buf : option (list Vector3)) : Rand (option (list Vector3)) :=
  match cs with
  | [] => ret buf
  | (i, j) :: rest =>
      let scale2inv := 1 / IZR (scale * scale) in
      let aspect_ratio := IZR lw / IZR lh in
      let u := 1 - IZR i / IZR (lowres_w - 1) in
      let v := 1 - IZR j / IZR (lowres_h - 1) in
      color <- render u v aspect_ratio ;;
      pass_cells scale lw lh fw lowres_w lowres_h rest
        (store_all (tile_indices scale lw lh fw i j)
           (fun old => combine old color 1 scale2inv) buf)
  end.

(** The rendering pass of [worker]; [fw] is the shared [frame_w]. *)
Definition worker_pass (scale fw : Z) (w : Local) : Rand (option Local) :=
  match local_accum w with
  | None => ret (Some w)
  | Some buf =>
      let lowres_frame_h := Z.quot (local_frame_h w) scale in
      let lowres_frame_w := Z.quot (local_frame_w w) scale in
      b <- pass_cells scale (local_frame_w w) (local_frame_h w) fw
             lowres_frame_w lowres_frame_h
             (cells lowres_frame_w lowres_frame_h) (Some buf) ;;
      ret (option_map
             (fun b' =>
                mkLocal (local_accum_generation w) (Some b')
                  (local_accum_count w + 1 / IZR (scale * scale))
                  (local_frame_w w) (local_frame_h w))
             b)
  end.

(** The cells of the presenter's preview: each stores its colour into a
    16 x 16 tile, which is not clipped.  As in [pass_cells], a preview
    grid exactly one tile wide or high makes the source divide 0 by 0,
    and the properties of a tick that seeds are stated for the other
    screens. *)
Fixpoint seed_cells (fw fake_w fake_h : Z) (cs : list (Z * Z))
  (buf : option (list Vector3)) : Rand (option (list Vector3)) :=
  match cs with
  | [] => ret buf
  | (i, j) :: rest =>
      let scale2inv := 1 / IZR (16 * 16) in
      let aspect_ratio := IZR fake_w / IZR fake_h in
      let u := 1 - IZR i / IZR (fake_w - 1) in
      let v := 1 - IZR j / IZR (fake_h - 1) in
      color <- render u v aspect_ratio ;;
      seed_cells fw fake_w fake_h rest
        (store_all (seed_indices fw i j)
           (fun _ => scale color scale2inv) buf)
  end.

(** [update_frame_texture(s)] up to the hand-over to the display;
    [uninit] is what the freshly allocated memory holds.  A store through
    a NULL [accum] is a store outside an empty buffer.  The closing loop
    fills [frame] from the first [frame_w * frame_h] elements of [accum]. *)
Definition update_frame_texture (s : R) (screen_w screen_h : Z)
  (uninit : nat -> Vector3) (sh : Shared) : Rand (option Shared) :=
  let sh1 :=
    if negb (Reqb (IZR (frame_w sh)) (s * IZR screen_w))
       || negb (Reqb (IZR (frame_h sh)) (s * IZR screen_h))
    then
      let w := truncR (s * IZR screen_w) in
      let h := truncR (s * IZR screen_h) in
      mkShared (accum_generation sh)
        (Some (map uninit (seq 0 (Z.to_nat (w * h)))))
        (Some (map uninit (seq 0 (Z.to_nat (w * h)))))
        w h 0
    else sh in
  let buf := match accum sh1 with Some b => b | None => [] end in
  seeded <-
    (if Reqb (accum_count sh1) 0 then
       let fake_frame_w := Z.quot (frame_w sh1) 16 in
       let fake_frame_h := Z.quot (frame_h sh1) 16 in
       b <- seed_cells (frame_w sh1) fake_frame_w fake_frame_h
              (cells fake_frame_w fake_frame_h) (Some buf) ;;
       ret (b, accum_count sh1 + 1 / IZR (16 * 16))
     else ret (Some buf, accum_count sh1)) ;;
  ret (match fst seeded with
       | None => None
       | Some acc =>
           Some (mkShared (accum_generation sh1)
                   (option_map (fun _ => acc) (accum sh1))
                   (option_map
                      (fun _ =>
                         map (fun a => scale a (1 / snd seeded))
                           (firstn (Z.to_nat (frame_w sh1 * frame_h sh1)) acc))
                      (frame sh1))
                   (frame_w sh1) (frame_h sh1) (snd seeded))
       end).

(** One turn of the [for (;;)] loop of a worker when the presenter does
    not resize during the pass: the pass then sees the [frame_w] that
    the critical section saw. *)
Definition worker_iteration (scale : Z) (sh : Shared) (w : Local)
  : Rand (option (Shared * Local)) :=
  match worker_sync sh w with
  | None => ret None
  | Some (sh', w', resize) =>
      w'' <- worker_pass scale (frame_w sh') (worker_realloc resize w') ;;
      ret (option_map (fun l => (sh', l)) w'')
  end.

End Accumulation.

Definition invalidate_accumulation (sh : Shared) : Shared :=
  mkShared ((accum_generation sh + 1) mod 2 ^ 32)%Z (accum sh) (frame sh)
    (frame_w sh) (frame_h sh) 0.

(** A resize between two turns of a worker: the window is 2 x 2 at the
    first tick of the presenter; worker 0 (scale 1) runs one turn of its
    loop; the window is 1 x 1 at the next tick.  The result is the state in
    which the worker enters its next critical section. *)
Definition resize_scenario (render : R -> R -> R -> Rand Vector3)
  (uninit uninit' : nat -> Vector3) : Rand (option (Shared * Local)) :=
  sh1 <- update_frame_texture render 1 2 2 uninit init_shared ;;
  match sh1 with
  | None => ret None
  | Some sh1 =>
      r <- worker_iteration render (init_scale 0) sh1 init_local ;;
      match r with
      | None => ret None
      | Some (sh2, w2) =>
          sh3 <- update_frame_texture render 1 1 1 uninit' sh2 ;;
          ret (option_map (fun s => (s, w2)) sh3)
      end
  end.

(** ** Further functions of the renderer *)

(** The Fresnel term with roughness. *)
Definition fresnelSchlickRoughness (cosTheta : R) (F0 : Vector3) (roughness : R) : Vector3 :=
  combine F0 (combine (maxv (vec_from_scalar (1 - roughness)) F0) F0 1 (-1)) 1
    (pow5 (clamp (1 - cosTheta) 0 1)).

(** The second Schlick function of the file, written with [f] first. *)
Definition F_Schlick (u : R) (f0 : Vector3) : Vector3 :=
  let f := pow5 (1 - u) in
  combine (vec_from_scalar f) f0 1 (1 - f).

Definition geometrySmith (NoV NoL a : R) : R :=
  let a2 := a * a in
  let GGXL := NoV * sqrt ((- NoL * a2 + NoL) * NoL + a2) in
  let GGXV := NoL * sqrt ((- NoV * a2 + NoV) * NoV + a2) in
  (1 / 2) / (GGXV + GGXL).

(** The calls of [add_object] that [main] makes, one after the other. *)
Fixpoint add_objects (os : list Object) (st : SceneStore) : outcome (unit * SceneStore) :=
  match os with
  | [] => Returns (tt, st)
  | o :: rest =>
      match add_object o st with
      | Returns (_, st') => add_objects rest st'
      | Aborts d => Aborts d
      end
  end.

(** The point of a ray at parameter [t], as [trace_ray] and
    [intersect_object] compute it. *)
Definition ray_at (r : Ray) (t : R) : Vector3 :=
  combine (origin r) (direction r) 1 t.

(** A point of the closed box between [origin] and [origin + size]. *)
Definition in_box (c : Cube) (p : Vector3) : Prop :=
  vx (cube_origin c) <= vx p <= vx (cube_origin c) + vx (cube_size c) /\
  vy (cube_origin c) <= vy p <= vy (cube_origin c) + vy (cube_size c) /\
  vz (cube_origin c) <= vz p <= vz (cube_origin c) + vz (cube_size c).

(** The face and the pixel coordinates that [sample_cubemap] computes
    before it reads the colour. *)
Definition cubemap_texel (c : Cubemap) (dir : Vector3) : CubeFace * Z * Z :=
  let '(face, u, v) := cubemap_face_uv dir in
  let u := clamp u (-1) 1 in
  let v := clamp v (-1) 1 in
  let u := (1 / 2) * (u + 1) in
  let v := (1 / 2) * (v + 1) in
  (face, truncR (u * IZR (cm_w c - 1)), truncR (v * IZR (cm_h c - 1))).

(** The byte [color[k]] of pixel [(x, y)] of a face. *)
Definition cubemap_byte (c : Cubemap) (face : CubeFace) (x y k : Z) : Z :=
  nth (Z.to_nat ((y * cm_w c + x) * chan c + k)) (data c face) 0%Z.

(** A buffer has the size of a [w] x [h] frame (a NULL pointer has none). *)
Definition buffer_fits (buf : option (list Vector3)) (w h : Z) : Prop :=
  match buf with
  | Some b => List.length b = Z.to_nat (w * h)
  | None => True
  end.

(** The elements behind a buffer pointer, none for NULL. *)
Definition buffer_of (b : option (list Vector3)) : list Vector3 :=
  match b with Some l => l | None => [] end.

(** Inputs of the examples below. *)
Definition diag_ray : Ray := mkRay (mkV 0 0 0) (mkV 1 1 1).
Definition far_box : Cube := mkCube (mkV 1 2 3) (mkV 3 3 3).
Definition z_ray : Ray := mkRay (mkV 0 0 0) (mkV 0 0 1).
Definition grazing_ray : Ray := mkRay (mkV 0 1 0) (mkV 0 0 1).
Definition sphere_ahead : Sphere := mkSphere (mkV 0 0 5) 1.
Definition black : Material := mkMaterial zerov 0 0 0 0 zerov.
Definition small_cubemap : Cubemap := mkCubemap (fun _ => [255; 0; 0]%Z) 2 2 3.

(** A cubemap whose six faces are the same 2 x 2 image of three channels:
    a red, a green, a blue and a white pixel, twelve bytes. *)
Definition checker_cubemap : Cubemap :=
  mkCubemap (fun _ => [255; 0; 0; 0; 255; 0; 0; 0; 255; 255; 255; 255]%Z) 2 2 3.

(** A 2 x 2 frame with three passes accumulated, at generation 3, and a
    worker that has rendered one pass of it at that generation. *)
Definition shared_2x2 : Shared :=
  mkShared 3
    (Some [mkV 3 0 0; mkV 0 3 0; mkV 0 0 3; mkV 3 3 3])
    (Some [mkV 1 0 0; mkV 0 1 0; mkV 0 0 1; mkV 1 1 1])
    2 2 3.
Definition local_2x2 : Local :=
  mkLocal 3 (Some [mkV 1 0 0; mkV 0 1 0; mkV 0 0 1; mkV 1 1 1]) 1 2 2.

(** An orange, fully diffuse material that emits nothing, and the scene of
    one sphere of it ahead of [z_ray]. *)
Definition matte : Material := mkMaterial (mkV 1 (4 / 10) 0) 1 0 0 0 zerov.
Definition matte_scene : SceneStore := [sphere matte (mkV 0 0 5) 1].

(** * Properties *)

(** ** Comparisons *)

Lemma Rltb_true (x y : R) : Rltb x y = true <-> x < y.
Proof. unfold Rltb; destruct (Rlt_dec x y); split; intros; congruence || lra. Qed.

Lemma Rltb_false (x y : R) : Rltb x y = false <-> y <= x.
Proof. unfold Rltb; destruct (Rlt_dec x y); split; intros; congruence || lra. Qed.

Lemma Rleb_true (x y : R) : Rleb x y = true <-> x <= y.
Proof. unfold Rleb; destruct (Rle_dec x y); split; intros; congruence || lra. Qed.

Lemma Rleb_false (x y : R) : Rleb x y = false <-> y < x.
Proof. unfold Rleb; destruct (Rle_dec x y); split; intros; congruence || lra. Qed.

Lemma Reqb_true (x y : R) : Reqb x y = true <-> x = y.
Proof. unfold Reqb; destruct (Req_dec_T x y); split; intros; congruence. Qed.

Lemma Reqb_false (x y : R) : Reqb x y = false <-> x <> y.
Proof. unfold Reqb; destruct (Req_dec_T x y); split; intros; congruence. Qed.

(** Case analysis on every comparison of the goal. *)
Ltac rcases :=
  repeat match goal with
    | |- context [Rltb ?a ?b] =>
        let H := fresh "Hlt" in
        destruct (Rltb a b) eqn:H;
        [apply Rltb_true in H | apply Rltb_false in H]
    | |- context [Rleb ?a ?b] =>
        let H := fresh "Hle" in
        destruct (Rleb a b) eqn:H;
        [apply Rleb_true in H | apply Rleb_false in H]
    | |- context [Reqb ?a ?b] =>
        let H := fresh "Heq" in
        destruct (Reqb a b) eqn:H;
        [apply Reqb_true in H | apply Reqb_false in H]
    end.

Lemma absf_Rabs (x : R) : absf x = Rabs x.
Proof.
  unfold absf, Rabs. rcases; destruct (Rcase_abs x); lra.
Qed.

Lemma clamp_range (x lo hi : R) : lo <= hi -> lo <= clamp x lo hi <= hi.
Proof. intros H. unfold clamp. rcases; lra. Qed.

Lemma clamp_id (x lo hi : R) : lo <= x <= hi -> clamp x lo hi = x.
Proof. intros H. unfold clamp. rcases; lra. Qed.

Lemma Reqb_refl (x : R) : Reqb x x = true.
Proof. now apply Reqb_true. Qed.

(** ** Worker scales *)

(** C2, as stated, fails: worker 5 is handed scale 1, while min(2^5, 16)
    is 16. *)
Lemma init_scale_not_min :
  ~ (forall i : Z, (0 <= i <= 15)%Z ->
       nth (Z.to_nat i) spawned_scales 0%Z = Z.min (2 ^ i) 16).
Proof.
  intros H. specialize (H 5%Z ltac:(lia)). vm_compute in H. discriminate.
Qed.

(** C2, amended: sixteen workers are spawned, and worker [i] is handed
    [2^i] when [2^i <= 16] (workers 0 to 4) and 1 otherwise (workers 5 to
    15). *)
Theorem spawned_scales_reset :
  List.length spawned_scales = 16%nat /\
  forall i : Z, (0 <= i <= 15)%Z ->
    nth (Z.to_nat i) spawned_scales 0%Z = init_scale i /\
    init_scale i = (if (i <=? 4)%Z then 2 ^ i else 1)%Z.
Proof.
  split; [reflexivity|].
  intros i Hi.
  assert (Hcases : In i (upto 16)).
  { unfold upto. apply in_map_iff. exists (Z.to_nat i). split; [lia|].
    apply in_seq. lia. }
  vm_compute in Hcases.
  repeat (destruct Hcases as [<- | Hcases]; [split; reflexivity|]).
  contradiction.
Qed.

Lemma spawned_scales_reset_at_5 :
  nth 5 spawned_scales 0%Z = init_scale 5 /\ init_scale 5 = 1%Z.
Proof.
  exact (proj2 spawned_scales_reset 5%Z ltac:(lia)).
Defined.

(** ** The scene store *)

Lemma num_objects_repeat (o : Object) (n : nat) :
  num_objects (repeat o n) = Z.of_nat n.
Proof. unfold num_objects. now rewrite repeat_length. Qed.

(** C4, as stated, fails: with 1024 objects stored, [add_object] returns
    (no abort, no diagnostic) and leaves the store as it was. *)
Lemma add_object_full_returns :
  ~ (forall (o : Object) (st : SceneStore),
       num_objects st = MAX_OBJECTS ->
       exists d : string, add_object o st = Aborts d).
Proof.
  intros H.
  pose (o := sphere (mkMaterial zerov 0 0 0 0 zerov) zerov 1).
  destruct (H o (repeat o 1024)) as [d Hd].
  - apply num_objects_repeat.
  - unfold add_object in Hd. rewrite num_objects_repeat in Hd.
    change (Z.of_nat 1024 <? MAX_OBJECTS)%Z with false in Hd. discriminate.
Qed.

(** C4, amended: [add_object] never aborts and returns no value.  Below
    capacity it stores the object at index [num_objects], the count grows
    by one and the stored objects keep their places; at capacity the call
    leaves the store unchanged. *)
Theorem add_object_append_or_ignore (o : Object) (st : SceneStore) :
  ((num_objects st < MAX_OBJECTS)%Z ->
     exists st', add_object o st = Returns (tt, st') /\
       num_objects st' = (num_objects st + 1)%Z /\
       nth_error st' (Z.to_nat (num_objects st)) = Some o /\
       forall i, (i < List.length st)%nat -> nth_error st' i = nth_error st i) /\
  ((MAX_OBJECTS <= num_objects st)%Z -> add_object o st = Returns (tt, st)).
Proof.
  unfold add_object. split; intros H.
  - apply Z.ltb_lt in H. rewrite H. exists (st ++ [o])%list.
    split; [reflexivity|]. unfold num_objects. rewrite Nat2Z.id.
    repeat split.
    + rewrite length_app. simpl. lia.
    + rewrite nth_error_app2 by lia. now rewrite Nat.sub_diag.
    + intros i Hi. now apply nth_error_app1.
  - apply Z.ltb_ge in H. now rewrite H.
Qed.

Lemma add_object_to_empty :
  exists st', add_object (cube (mkMaterial zerov 0 0 0 0 zerov) zerov zerov) [] =
                Returns (tt, st') /\
    num_objects st' = (num_objects [] + 1)%Z /\
    nth_error st' (Z.to_nat (num_objects [])) =
      Some (cube (mkMaterial zerov 0 0 0 0 zerov) zerov zerov) /\
    forall i, (i < List.length (@nil Object))%nat -> nth_error st' i = nth_error [] i.
Proof.
  apply (proj1 (add_object_append_or_ignore _ [])). reflexivity.
Defined.

(** ** Cubemap face selection *)

(** C10: when no component's absolute value strictly exceeds both others,
    [sample_cubemap] reads a Z face: the front face when [z > 0], the back
    face otherwise. *)
Theorem sample_cubemap_tie_selects_z (dir : Vector3) :
  ~ (Rabs (vx dir) > Rabs (vy dir) /\ Rabs (vx dir) > Rabs (vz dir)) ->
  ~ (Rabs (vy dir) > Rabs (vx dir) /\ Rabs (vy dir) > Rabs (vz dir)) ->
  ~ (Rabs (vz dir) > Rabs (vx dir) /\ Rabs (vz dir) > Rabs (vy dir)) ->
  (0 < vz dir -> cubemap_face dir = CF_FRONT) /\
  (vz dir <= 0 -> cubemap_face dir = CF_BACK).
Proof.
  intros Hx Hy _.
  unfold cubemap_face, cubemap_face_uv. rewrite !absf_Rabs.
  destruct (Rltb (Rabs (vy dir)) (Rabs (vx dir)) && Rltb (Rabs (vz dir)) (Rabs (vx dir))) eqn:Ex.
  { apply andb_prop in Ex as [E1 E2].
    apply Rltb_true in E1, E2. exfalso. apply Hx. lra. }
  destruct (Rltb (Rabs (vx dir)) (Rabs (vy dir)) && Rltb (Rabs (vz dir)) (Rabs (vy dir))) eqn:Ey.
  { apply andb_prop in Ey as [E1 E2].
    apply Rltb_true in E1, E2. exfalso. apply Hy. lra. }
  split; intros Hz.
  - apply Rltb_true in Hz. now rewrite Hz.
  - apply Rltb_false in Hz. now rewrite Hz.
Qed.

Lemma Rabs_1 : Rabs 1 = 1.
Proof. apply Rabs_right. lra. Qed.

Lemma sample_cubemap_diagonal_front :
  (0 < vz (mkV 1 1 1) -> cubemap_face (mkV 1 1 1) = CF_FRONT) /\
  (vz (mkV 1 1 1) <= 0 -> cubemap_face (mkV 1 1 1) = CF_BACK).
Proof.
  apply (sample_cubemap_tie_selects_z (mkV 1 1 1)); simpl; lra.
Defined.

(** The tie |x| = |z| >= |y| with negative z reads the back face. *)
Lemma sample_cubemap_xz_tie_back : cubemap_face (mkV 1 0 (-1)) = CF_BACK.
Proof.
  unfold cubemap_face, cubemap_face_uv. cbn [vx vy vz]. rewrite !absf_Rabs.
  replace (Rabs (-1)) with 1 by (rewrite Rabs_left; lra).
  rewrite Rabs_1, Rabs_R0.
  replace (Rltb 1 1) with false by (symmetry; apply Rltb_false; lra).
  replace (Rltb 1 0) with false by (symmetry; apply Rltb_false; lra).
  replace (Rltb 0 (-1)) with false by (symmetry; apply Rltb_false; lra).
  rewrite !andb_false_r. reflexivity.
Qed.

(** ** Splat indices of a worker pass *)

Lemma in_upto (n x : Z) : In x (upto n) <-> (0 <= x < n)%Z.
Proof.
  unfold upto. rewrite in_map_iff. split.
  - intros [k [<- Hk]]. apply in_seq in Hk. lia.
  - intros H. exists (Z.to_nat x). split; [lia|]. apply in_seq. lia.
Qed.

Lemma in_cells (w h i j : Z) :
  In (i, j) (cells w h) <-> (0 <= i < w)%Z /\ (0 <= j < h)%Z.
Proof.
  unfold cells. rewrite in_flat_map. split.
  - intros [j' [Hj Hin]]. apply in_map_iff in Hin as [i' [Heq Hi]].
    inversion Heq; subst. apply in_upto in Hj, Hi. lia.
  - intros [Hi Hj]. exists j. split; [now apply in_upto|].
    apply in_map_iff. exists i. split; [reflexivity|now apply in_upto].
Qed.

(** When the stride is the local width, every store of a pass is to a
    pixel [(real_i, real_j)] of the local buffer. *)
Lemma pass_indices_local_stride (scale lw lh idx : Z) :
  (1 <= scale)%Z -> (0 <= lw)%Z -> (0 <= lh)%Z ->
  In idx (pass_indices scale lw lh lw) ->
  exists real_i real_j,
    idx = (real_j * lw + real_i)%Z /\
    (0 <= real_i < lw)%Z /\ (0 <= real_j < lh)%Z /\
    (0 <= idx < lw * lh)%Z.
Proof.
  intros Hs Hw Hh Hin.
  unfold pass_indices in Hin. apply in_flat_map in Hin as [[i j] [Hc Hin]].
  apply in_cells in Hc as [Hi Hj]. simpl in Hin.
  unfold tile_indices in Hin.
  apply in_flat_map in Hin as [g [Hg Hin]].
  apply in_map_iff in Hin as [t [Heq Ht]].
  apply in_upto in Hg, Ht.
  assert (Hqw : (scale * Z.quot lw scale <= lw)%Z).
  { rewrite Z.quot_div_nonneg by lia. apply Z.mul_div_le. lia. }
  assert (Hqh : (scale * Z.quot lh scale <= lh)%Z).
  { rewrite Z.quot_div_nonneg by lia. apply Z.mul_div_le. lia. }
  assert (Ht' : (0 <= t < scale)%Z).
  { destruct (lw - i * scale <? scale)%Z eqn:E; [apply Z.ltb_lt in E|]; lia. }
  assert (Hg' : (0 <= g < scale)%Z).
  { destruct (lh - j * scale <? scale)%Z eqn:E; [apply Z.ltb_lt in E|]; lia. }
  assert (Hiw : ((i + 1) * scale <= Z.quot lw scale * scale)%Z)
    by (apply Z.mul_le_mono_nonneg_r; lia).
  assert (Hjh : ((j + 1) * scale <= Z.quot lh scale * scale)%Z)
    by (apply Z.mul_le_mono_nonneg_r; lia).
  assert (Hri : (0 <= i * scale + t < lw)%Z) by lia.
  assert (Hrj : (0 <= j * scale + g < lh)%Z) by lia.
  exists (i * scale + t)%Z, (j * scale + g)%Z.
  subst idx. repeat split; try lia; nia.
Qed.

(** C9 fails on the code: the stride of the store is the shared
    [frame_w].  A worker that holds a 2 x 2 buffer and runs its pass after
    the presenter has grown the frame to width 4 stores to indices 4 and 5
    of a four-element buffer, which is outside it. *)
Theorem splat_overruns_after_resize :
  pass_indices 1 2 2 4 = [0; 1; 4; 5]%Z /\
  forall (render : R -> R -> R -> Rand Vector3) (a b c d : Vector3) (k : nat),
    fst (worker_pass render 1 4 (mkLocal 0 (Some [a; b; c; d]) 0 2 2) k) = None.
Proof.
  split; [reflexivity|].
  intros render a b c d k.
  unfold worker_pass. cbn -[Rdiv Rplus Rmult Rminus IZR combine].
  reflexivity.
Qed.

(** ** Ray and sphere *)

Lemma dotv_self_nonneg (v : Vector3) : 0 <= dotv v v.
Proof. destruct v as [x y z]. unfold dotv; simpl. nra. Qed.

Lemma dotv_self_zero (v : Vector3) : dotv v v = 0 -> v = zerov.
Proof.
  destruct v as [x y z]. unfold dotv, zerov; simpl. intros H.
  assert (x = 0) by nra. assert (y = 0) by nra. assert (z = 0) by nra.
  now subst.
Qed.

(** Cauchy-Schwarz, through Lagrange's identity. *)
Lemma dotv_cauchy_schwarz (u v : Vector3) :
  dotv u v * dotv u v <= dotv u u * dotv v v.
Proof.
  destruct u as [a b c], v as [x y z]. unfold dotv; simpl.
  assert (H : (a * a + b * b + c * c) * (x * x + y * y + z * z)
              - (a * x + b * y + c * z) * (a * x + b * y + c * z)
              = (a * y - b * x) * (a * y - b * x)
                + (a * z - c * x) * (a * z - c * x)
                + (b * z - c * y) * (b * z - c * y)) by ring.
  pose proof (Rle_0_sqr (a * y - b * x)) as H1.
  pose proof (Rle_0_sqr (a * z - c * x)) as H2.
  pose proof (Rle_0_sqr (b * z - c * y)) as H3.
  unfold Rsqr in *. lra.
Qed.

Lemma sphere_a_nonneg (r : Ray) : 0 <= sphere_a r.
Proof. apply dotv_self_nonneg. Qed.

(** The discriminant is at most [4 a R^2]. *)
Lemma sphere_discr_bound (r : Ray) (s : Sphere) :
  sphere_discr r s <= 4 * sphere_a r * (radius s * radius s).
Proof.
  unfold sphere_discr, sphere_b, sphere_c, sphere_a.
  pose proof (dotv_cauchy_schwarz (combine (center s) (origin r) 1 (-1)) (direction r)) as H.
  cbv zeta. nra.
Qed.

Lemma sphere_discr_pos_a (r : Ray) (s : Sphere) :
  0 < sphere_discr r s -> 0 < sphere_a r.
Proof.
  intros Hd. pose proof (sphere_a_nonneg r) as Ha.
  pose proof (sphere_discr_bound r s) as Hb.
  destruct (Req_dec (sphere_a r) 0) as [E|E]; [|lra].
  rewrite E in Hb. lra.
Qed.

Lemma sphere_discr_pos_radius (r : Ray) (s : Sphere) :
  0 < sphere_discr r s -> 0 < radius s * radius s.
Proof.
  intros Hd. pose proof (sphere_discr_pos_a r s Hd) as Ha.
  pose proof (sphere_discr_bound r s) as Hb.
  pose proof (Rle_0_sqr (radius s)) as Hr. unfold Rsqr in Hr.
  destruct (Req_dec (radius s * radius s) 0) as [E|E]; [|lra].
  rewrite E in Hb. lra.
Qed.

Lemma sphere_roots_ordered (r : Ray) (s : Sphere) :
  0 < sphere_discr r s -> sphere_root_minus r s < sphere_root_plus r s.
Proof.
  intros Hd. pose proof (sphere_discr_pos_a r s Hd) as Ha.
  pose proof (sqrt_lt_R0 _ Hd) as Hs.
  unfold sphere_root_minus, sphere_root_plus, Rdiv.
  apply Rmult_lt_compat_r; [apply Rinv_0_lt_compat; lra | lra].
Qed.

(** With a positive discriminant the code's swap puts the smaller root
    first, and the function is the following cascade. *)
Lemma intersect_sphere_pos (r : Ray) (s : Sphere) :
  0 < sphere_discr r s ->
  intersect_sphere r s =
    if Rltb (sphere_root_minus r s) 0
    then if Rltb (sphere_root_plus r s) 0 then None else Some (sphere_root_plus r s)
    else Some (sphere_root_minus r s).
Proof.
  intros Hd. unfold intersect_sphere.
  pose proof (sphere_roots_ordered r s Hd) as Ho.
  apply Rltb_true in Hd, Ho. rewrite Hd. cbv zeta. rewrite Ho. reflexivity.
Qed.

Lemma intersect_sphere_nonpos (r : Ray) (s : Sphere) :
  sphere_discr r s <= 0 -> intersect_sphere r s = None.
Proof.
  intros Hd. unfold intersect_sphere. apply Rltb_false in Hd. now rewrite Hd.
Qed.

Lemma quadratic_root (a b c t : R) :
  0 < a -> 0 <= b * b - 4 * a * c ->
  t = (- b + sqrt (b * b - 4 * a * c)) / (2 * a) \/
  t = (- b - sqrt (b * b - 4 * a * c)) / (2 * a) ->
  a * t * t + b * t + c = 0.
Proof.
  intros Ha Hd Ht.
  pose proof (sqrt_sqrt _ Hd) as Hq.
  set (q := sqrt (b * b - 4 * a * c)) in *.
  apply Rmult_eq_reg_l with (4 * a); [|lra].
  replace (4 * a * (a * t * t + b * t + c))
    with ((2 * a * t) * (2 * a * t) + 2 * b * (2 * a * t) + 4 * a * c) by ring.
  destruct Ht as [-> | ->].
  - replace (2 * a * ((- b + q) / (2 * a))) with (- b + q) by (field; lra).
    replace ((- b + q) * (- b + q) + 2 * b * (- b + q) + 4 * a * c)
      with (q * q - (b * b - 4 * a * c)) by ring.
    rewrite Hq. ring.
  - replace (2 * a * ((- b - q) / (2 * a))) with (- b - q) by (field; lra).
    replace ((- b - q) * (- b - q) + 2 * b * (- b - q) + 4 * a * c)
      with (q * q - (b * b - 4 * a * c)) by ring.
    rewrite Hq. ring.
Qed.

(** The squared distance from the centre to the point at parameter [t]. *)
Lemma sphere_point_distance (r : Ray) (s : Sphere) (t : R) :
  let v := combine (combine (origin r) (direction r) 1 t) (center s) 1 (-1) in
  dotv v v = sphere_a r * t * t + sphere_b r s * t + sphere_c r s
             + radius s * radius s.
Proof.
  destruct r as [[ox oy oz] [dx dy dz]], s as [[cx cy cz] rad].
  unfold sphere_a, sphere_b, sphere_c, dotv, combine; simpl. ring.
Qed.

Lemma sphere_root_on_surface (r : Ray) (s : Sphere) (t : R) :
  0 < sphere_discr r s ->
  t = sphere_root_minus r s \/ t = sphere_root_plus r s ->
  let v := combine (combine (origin r) (direction r) 1 t) (center s) 1 (-1) in
  dotv v v = radius s * radius s.
Proof.
  intros Hd Ht v. subst v. rewrite sphere_point_distance.
  rewrite (quadratic_root (sphere_a r) (sphere_b r s) (sphere_c r s) t).
  - ring.
  - now apply sphere_discr_pos_a with s.
  - unfold sphere_discr in Hd. lra.
  - unfold sphere_root_minus, sphere_root_plus, sphere_discr in Ht. tauto.
Qed.

Lemma lenv_pos (v : Vector3) : 0 < dotv v v -> 0 < lenv v.
Proof. intros H. unfold lenv. now apply sqrt_lt_R0. Qed.

Lemma normalize_unit (v : Vector3) :
  0 < dotv v v -> dotv (normalize v) (normalize v) = 1.
Proof.
  intros H. pose proof (lenv_pos v H) as Hl.
  assert (Hq : lenv v * lenv v = dotv v v)
    by (unfold lenv; apply sqrt_sqrt; lra).
  unfold normalize.
  replace (dotv (scale v (/ lenv v)) (scale v (/ lenv v)))
    with (dotv v v * (/ lenv v * / lenv v))
    by (destruct v; unfold dotv, scale; simpl; ring).
  rewrite <- Hq. field. lra.
Qed.

Lemma normalize_rescale (v : Vector3) :
  0 < dotv v v -> v = scale (normalize v) (lenv v).
Proof.
  intros H. pose proof (lenv_pos v H) as Hl.
  destruct v as [x y z]. unfold normalize, scale. cbn [vx vy vz].
  f_equal; field; lra.
Qed.

(** C3, as stated, fails: a sphere behind the ray has a positive
    discriminant (here 4, with roots -6 and -4) and is a miss. *)
Lemma intersect_sphere_miss_behind :
  ~ (forall (r : Ray) (s : Sphere),
       intersect_sphere r s = None <-> sphere_discr r s < 0).
Proof.
  intros H.
  pose (r := mkRay (mkV 0 0 0) (mkV 0 0 1)).
  pose (s := mkSphere (mkV 0 0 (-5)) 1).
  assert (Hd : sphere_discr r s = 4).
  { unfold sphere_discr, sphere_b, sphere_c, sphere_a, dotv, combine; simpl. ring. }
  assert (Hb : sphere_b r s = 10).
  { unfold sphere_b, dotv, combine; simpl. ring. }
  assert (Ha : sphere_a r = 1).
  { unfold sphere_a, dotv; simpl. ring. }
  assert (Hq : sqrt 4 = 2).
  { replace 4 with (2 * 2) by ring. apply sqrt_square. lra. }
  assert (Hmiss : intersect_sphere r s = None).
  { rewrite intersect_sphere_pos by lra.
    unfold sphere_root_minus, sphere_root_plus. rewrite Hd, Hb, Ha, Hq.
    replace (Rltb ((- (10) - 2) / (2 * 1)) 0) with true
      by (symmetry; apply Rltb_true; lra).
    replace (Rltb ((- (10) + 2) / (2 * 1)) 0) with true
      by (symmetry; apply Rltb_true; lra).
    reflexivity. }
  apply H in Hmiss. lra.
Qed.

(** C3, amended: [intersect_sphere] reports a miss when the discriminant
    is negative, and also when it is positive with both roots negative.
    When the discriminant is positive and a root is non-negative it reports
    a hit at the smallest non-negative root, and the normal that
    [intersect_object] returns for that hit is the unit vector from the
    centre to the hit point. *)
Theorem intersect_sphere_smallest_root (r : Ray) (s : Sphere) (m : Material) :
  let d := sphere_discr r s in
  let t_minus := sphere_root_minus r s in
  let t_plus := sphere_root_plus r s in
  (d < 0 -> intersect_sphere r s = None) /\
  (0 < d -> t_minus < 0 -> t_plus < 0 -> intersect_sphere r s = None) /\
  (0 < d -> 0 <= t_minus \/ 0 <= t_plus ->
   exists t n,
     intersect_sphere r s = Some t /\
     (t = t_minus \/ t = t_plus) /\ 0 <= t /\
     (0 <= t_minus -> t <= t_minus) /\ (0 <= t_plus -> t <= t_plus) /\
     intersect_object r (mkObject (OBJECT_SPHERE s) m) = Some (t, n) /\
     let hit_point := combine (origin r) (direction r) 1 t in
     n = normalize (combine hit_point (center s) 1 (-1)) /\
     dotv n n = 1 /\
     combine hit_point (center s) 1 (-1) = scale n (Rabs (radius s))).
Proof.
  cbv zeta. split; [|split].
  - intros Hd. apply intersect_sphere_nonpos. lra.
  - intros Hd Hm Hp. rewrite intersect_sphere_pos by assumption.
    apply Rltb_true in Hm, Hp. now rewrite Hm, Hp.
  - intros Hd Hroot.
    pose proof (sphere_roots_ordered r s Hd) as Ho.
    assert (Hsel : exists t, intersect_sphere r s = Some t /\
              (t = sphere_root_minus r s \/ t = sphere_root_plus r s) /\ 0 <= t /\
              (0 <= sphere_root_minus r s -> t <= sphere_root_minus r s) /\
              (0 <= sphere_root_plus r s -> t <= sphere_root_plus r s)).
    { rewrite intersect_sphere_pos by assumption.
      destruct (Rltb (sphere_root_minus r s) 0) eqn:Em.
      - apply Rltb_true in Em.
        replace (Rltb (sphere_root_plus r s) 0) with false
          by (symmetry; apply Rltb_false; lra).
        exists (sphere_root_plus r s). repeat split; auto; lra.
      - apply Rltb_false in Em.
        exists (sphere_root_minus r s). repeat split; auto; lra. }
    destruct Hsel as [t [Hhit [Hin [Ht0 [Hlm Hlp]]]]].
    pose proof (sphere_root_on_surface r s t Hd Hin) as Hsurf. cbv zeta in Hsurf.
    pose proof (sphere_discr_pos_radius r s Hd) as Hrad.
    set (v := combine (combine (origin r) (direction r) 1 t) (center s) 1 (-1)) in *.
    exists t, (normalize v).
    repeat split; auto.
    + unfold intersect_object; simpl. rewrite Hhit. reflexivity.
    + apply normalize_unit. lra.
    + replace (Rabs (radius s)) with (lenv v).
      * apply normalize_rescale. lra.
      * unfold lenv. rewrite Hsurf. apply sqrt_Rsqr_abs.
Qed.

Lemma intersect_sphere_ahead :
  exists t n,
    intersect_sphere (mkRay (mkV 0 0 0) (mkV 0 0 1)) (mkSphere (mkV 0 0 5) 1) = Some t /\
    (t = sphere_root_minus (mkRay (mkV 0 0 0) (mkV 0 0 1)) (mkSphere (mkV 0 0 5) 1) \/
     t = sphere_root_plus (mkRay (mkV 0 0 0) (mkV 0 0 1)) (mkSphere (mkV 0 0 5) 1)) /\
    0 <= t /\
    (0 <= sphere_root_minus (mkRay (mkV 0 0 0) (mkV 0 0 1)) (mkSphere (mkV 0 0 5) 1) ->
     t <= sphere_root_minus (mkRay (mkV 0 0 0) (mkV 0 0 1)) (mkSphere (mkV 0 0 5) 1)) /\
    (0 <= sphere_root_plus (mkRay (mkV 0 0 0) (mkV 0 0 1)) (mkSphere (mkV 0 0 5) 1) ->
     t <= sphere_root_plus (mkRay (mkV 0 0 0) (mkV 0 0 1)) (mkSphere (mkV 0 0 5) 1)) /\
    intersect_object (mkRay (mkV 0 0 0) (mkV 0 0 1))
      (sphere (mkMaterial zerov 0 0 0 0 zerov) (mkV 0 0 5) 1) = Some (t, n) /\
    n = normalize (combine (combine (mkV 0 0 0) (mkV 0 0 1) 1 t) (mkV 0 0 5) 1 (-1)) /\
    dotv n n = 1 /\
    combine (combine (mkV 0 0 0) (mkV 0 0 1) 1 t) (mkV 0 0 5) 1 (-1) = scale n (Rabs 1).
Proof.
  assert (Hd : sphere_discr (mkRay (mkV 0 0 0) (mkV 0 0 1)) (mkSphere (mkV 0 0 5) 1) = 4).
  { unfold sphere_discr, sphere_b, sphere_c, sphere_a, dotv, combine; simpl. ring. }
  apply (proj2 (proj2 (intersect_sphere_smallest_root
                         (mkRay (mkV 0 0 0) (mkV 0 0 1)) (mkSphere (mkV 0 0 5) 1)
                         (mkMaterial zerov 0 0 0 0 zerov)))).
  - rewrite Hd. lra.
  - right. unfold sphere_root_plus. rewrite Hd.
    pose proof (sqrt_pos 4) as Hq.
    assert (Hb : sphere_b (mkRay (mkV 0 0 0) (mkV 0 0 1)) (mkSphere (mkV 0 0 5) 1) = -10).
    { unfold sphere_b, dotv, combine; simpl. ring. }
    assert (Ha : sphere_a (mkRay (mkV 0 0 0) (mkV 0 0 1)) = 1).
    { unfold sphere_a, dotv; simpl. ring. }
    rewrite Hb, Ha. apply Rmult_le_pos; [lra|].
    apply Rlt_le, Rinv_0_lt_compat. lra.
Defined.

(** ** Normal orientation *)

(** The normal of a box hit never points along the ray, wherever the ray
    starts. *)
Lemma intersect_cube_normal (r : Ray) (c : Cube) (tnear tfar : R) (n : Vector3) :
  intersect_cube r c = Some (tnear, tfar, n) -> dotv n (direction r) <= 0.
Proof.
  unfold intersect_cube. cbv zeta.
  destruct (if Rleb 0 (vx (direction r)) then _ else _) as [txmin txmax].
  destruct (if Rleb 0 (vy (direction r)) then _ else _) as [tymin tymax].
  destruct (Rltb tymax txmin || Rltb txmax tymin); [discriminate|].
  destruct (if Rleb 0 (vz (direction r)) then _ else _) as [tzmin tzmax].
  destruct (Rltb txmin tymin);
    (destruct (Rltb _ _ || Rltb _ _); [discriminate|]);
    destruct (Rltb _ tzmin);
    cbn beta iota zeta delta [Z.eqb Pos.eqb];
    intros H; inversion H; subst; clear H;
    rcases; unfold dotv; simpl; lra.
Qed.

Lemma sphere_roots_product (r : Ray) (s : Sphere) :
  0 < sphere_discr r s ->
  sphere_root_minus r s * sphere_root_plus r s * sphere_a r = sphere_c r s.
Proof.
  intros Hd. pose proof (sphere_discr_pos_a r s Hd) as Ha.
  assert (Hq : sqrt (sphere_discr r s) * sqrt (sphere_discr r s) = sphere_discr r s)
    by (apply sqrt_sqrt; lra).
  unfold sphere_root_minus, sphere_root_plus.
  set (q := sqrt (sphere_discr r s)) in *.
  replace ((- sphere_b r s - q) / (2 * sphere_a r)
           * ((- sphere_b r s + q) / (2 * sphere_a r)) * sphere_a r)
    with ((sphere_b r s * sphere_b r s - q * q) / (4 * sphere_a r))
    by (field; lra).
  rewrite Hq. unfold sphere_discr. field. lra.
Qed.

(** From strictly outside the sphere the hit is at the smaller root. *)
Lemma intersect_sphere_outside (r : Ray) (s : Sphere) (t : R) :
  0 < sphere_c r s -> intersect_sphere r s = Some t ->
  0 < sphere_discr r s /\ t = sphere_root_minus r s.
Proof.
  intros Hc Hhit.
  destruct (Rlt_dec 0 (sphere_discr r s)) as [Hd|Hd];
    [|rewrite intersect_sphere_nonpos in Hhit by lra; discriminate].
  split; [assumption|].
  rewrite intersect_sphere_pos in Hhit by assumption.
  pose proof (sphere_roots_product r s Hd) as Hv.
  pose proof (sphere_discr_pos_a r s Hd) as Ha.
  revert Hhit. rcases; intros Hhit; try discriminate; inversion Hhit; subst; auto.
  exfalso.
  assert (sphere_root_minus r s * sphere_root_plus r s <= 0) by nra.
  nra.
Qed.

(** The component of [P(t) - C] along the ray. *)
Lemma sphere_point_along_ray (r : Ray) (s : Sphere) (t : R) :
  dotv (combine (combine (origin r) (direction r) 1 t) (center s) 1 (-1)) (direction r)
  = sphere_a r * t + sphere_b r s / 2.
Proof.
  destruct r as [[ox oy oz] [dx dy dz]], s as [[cx cy cz] rad].
  unfold sphere_a, sphere_b, dotv, combine; simpl. field.
Qed.

Lemma dotv_normalize_l (v d : Vector3) :
  dotv (normalize v) d = dotv v d * / lenv v.
Proof. destruct v, d. unfold normalize, dotv, scale; simpl. ring. Qed.

Lemma dotv_normalize_r (n d : Vector3) :
  dotv n (normalize d) = dotv n d * / lenv d.
Proof. destruct n, d. unfold normalize, dotv, scale; simpl. ring. Qed.

Lemma inv_lenv_nonneg (v : Vector3) : 0 <= / lenv v.
Proof.
  unfold lenv. pose proof (sqrt_pos (dotv v v)) as H.
  destruct (Req_dec (sqrt (dotv v v)) 0) as [E|E].
  - rewrite E, Rinv_0. lra.
  - apply Rlt_le, Rinv_0_lt_compat. lra.
Qed.

Lemma intersect_sphere_outside_normal (r : Ray) (s : Sphere) (m : Material)
  (t : R) (n : Vector3) :
  0 < sphere_c r s ->
  intersect_object r (mkObject (OBJECT_SPHERE s) m) = Some (t, n) ->
  dotv n (direction r) <= 0.
Proof.
  intros Hc. unfold intersect_object; simpl.
  destruct (intersect_sphere r s) as [t'|] eqn:Hhit; [|discriminate].
  intros H; inversion H; subst; clear H.
  destruct (intersect_sphere_outside r s t Hc Hhit) as [Hd Ht].
  pose proof (sphere_discr_pos_a r s Hd) as Ha.
  rewrite dotv_normalize_l, sphere_point_along_ray.
  pose proof (inv_lenv_nonneg
                (combine (combine (origin r) (direction r) 1 t) (center s) 1 (-1))) as Hl.
  pose proof (sqrt_pos (sphere_discr r s)) as Hq.
  assert (Hle : sphere_a r * t + sphere_b r s / 2 = - sqrt (sphere_discr r s) / 2).
  { rewrite Ht. unfold sphere_root_minus. field. lra. }
  rewrite Hle. nra.
Qed.

(** What the scan of [trace_ray] returns is what it started with or the
    hit of one of the scanned objects at a non-negative distance. *)
Lemma trace_scan_source (ray : Ray) (objs : list Object) :
  forall (i0 : Z) (t0 : R) (idx0 : Z) (n0 : Vector3) (t : R) (idx : Z) (n : Vector3),
    trace_scan ray objs i0 (t0, idx0, n0) = (t, idx, n) ->
    (t, idx, n) = (t0, idx0, n0) \/
    exists o, (i0 <= idx)%Z /\
      nth_error objs (Z.to_nat (idx - i0)) = Some o /\
      intersect_object ray o = Some (t, n) /\ 0 <= t.
Proof.
  induction objs as [|o rest IH]; intros i0 t0 idx0 n0 t idx n H.
  - simpl in H. left. now symmetry.
  - simpl in H.
    assert (Hshift : forall t1 idx1 n1,
              trace_scan ray rest (i0 + 1)%Z (t1, idx1, n1) = (t, idx, n) ->
              (t, idx, n) = (t1, idx1, n1) \/
              exists o', (i0 <= idx)%Z /\
                nth_error (o :: rest) (Z.to_nat (idx - i0)) = Some o' /\
                intersect_object ray o' = Some (t, n) /\ 0 <= t).
    { intros t1 idx1 n1 H1. apply IH in H1 as [H1 | [o' [Hi [Hn [Hh Ht]]]]]; [now left|].
      right. exists o'. repeat split; auto; try lia.
      replace (Z.to_nat (idx - i0)) with (S (Z.to_nat (idx - (i0 + 1)))) by lia.
      exact Hn. }
    destruct (intersect_object ray o) as [[t' n']|] eqn:Ho.
    + destruct (Rleb 0 t' && Rltb t' t0) eqn:Hc.
      * apply Hshift in H as [H | H]; [|now right].
        inversion H; subst. right. exists o.
        apply andb_prop in Hc as [Hc _]. apply Rleb_true in Hc.
        repeat split; auto; try lia.
        now rewrite Z.sub_diag.
      * apply Hshift in H. exact H.
    + apply Hshift in H. exact H.
Qed.

Lemma lenv_zero (v : Vector3) : lenv v = 0 -> v = zerov.
Proof.
  unfold lenv. intros H. apply dotv_self_zero.
  apply sqrt_eq_0; [apply dotv_self_nonneg | exact H].
Qed.

(** The sign of a dot product with the normalized direction is its sign
    with the direction. *)
Lemma dotv_normalized_sign (n d : Vector3) :
  dotv n (normalize d) <= 0 -> dotv n d <= 0.
Proof.
  rewrite dotv_normalize_r. intros H.
  destruct (Req_dec (lenv d) 0) as [E|E].
  - apply lenv_zero in E. subst d. destruct n. unfold dotv, zerov; simpl. lra.
  - assert (Hl : 0 < lenv d).
    { unfold lenv in *. pose proof (sqrt_pos (dotv d d)). lra. }
    pose proof (Rinv_0_lt_compat _ Hl) as Hi. nra.
Qed.

Lemma trace_ray_single (o : Object) (ray : Ray) (t : R) (n : Vector3) :
  intersect_object (mkRay (origin ray) (normalize (direction ray))) o = Some (t, n) ->
  0 <= t < FLT_MAX ->
  trace_ray [o] ray =
    mkHit t (combine (origin ray) (normalize (direction ray)) 1 t) n 0%Z.
Proof.
  intros Ho [Ht0 Ht1]. unfold trace_ray. cbn [trace_scan]. rewrite Ho.
  apply Rleb_true in Ht0. apply Rltb_true in Ht1. rewrite Ht0, Ht1. reflexivity.
Qed.

(** Evaluation of [intersect_sphere] when the discriminant is a known
    square. *)
Lemma intersect_sphere_eval (r : Ray) (s : Sphere) (a b q : R) :
  sphere_a r = a -> sphere_b r s = b -> sphere_discr r s = q * q -> 0 < q ->
  intersect_sphere r s =
    if Rltb ((- b - q) / (2 * a)) 0
    then if Rltb ((- b + q) / (2 * a)) 0 then None else Some ((- b + q) / (2 * a))
    else Some ((- b - q) / (2 * a)).
Proof.
  intros Ha Hb Hd Hq.
  rewrite intersect_sphere_pos by (rewrite Hd; nra).
  unfold sphere_root_minus, sphere_root_plus.
  rewrite Ha, Hb, Hd, sqrt_square by lra. reflexivity.
Qed.

Lemma normalize_z_axis : normalize (mkV 0 0 1) = mkV 0 0 1.
Proof.
  unfold normalize, lenv, dotv, scale; simpl.
  replace (0 * 0 + 0 * 0 + 1 * 1) with 1 by ring.
  rewrite sqrt_1. f_equal; field.
Qed.

Lemma normalize_neg_z_axis : normalize (mkV 0 0 (-1)) = mkV 0 0 (-1).
Proof.
  unfold normalize, lenv, dotv, scale; simpl.
  replace (0 * 0 + 0 * 0 + -1 * -1) with 1 by ring.
  rewrite sqrt_1. f_equal; field.
Qed.

Lemma FLT_MAX_large : 1000 < FLT_MAX.
Proof. unfold FLT_MAX. lra. Qed.

(** A ray that starts at the centre of the unit sphere and runs along z:
    the hit is the far root 1 and the normal is the outward (0, 0, 1). *)
Lemma trace_ray_from_centre :
  trace_ray [sphere (mkMaterial zerov 0 0 0 0 zerov) (mkV 0 0 0) 1]
    (mkRay (mkV 0 0 0) (mkV 0 0 1))
  = mkHit 1 (combine (mkV 0 0 0) (mkV 0 0 1) 1 1) (mkV 0 0 1) 0%Z.
Proof.
  pose proof FLT_MAX_large as HM.
  rewrite (trace_ray_single _ _ 1 (mkV 0 0 1)); cbn [origin direction];
    rewrite ?normalize_z_axis; try reflexivity; try lra.
  unfold intersect_object, sphere; cbn [shape].
  rewrite (intersect_sphere_eval _ _ 1 0 2);
    try (unfold sphere_discr, sphere_b, sphere_c, sphere_a, dotv, combine; simpl; ring);
    try lra.
  replace (Rltb ((- 0 - 2) / (2 * 1)) 0) with true by (symmetry; apply Rltb_true; lra).
  replace (Rltb ((- 0 + 2) / (2 * 1)) 0) with false by (symmetry; apply Rltb_false; lra).
  cbn [origin direction center].
  replace (combine (combine (mkV 0 0 0) (mkV 0 0 1) 1 ((- 0 + 2) / (2 * 1))) (mkV 0 0 0) 1 (-1))
    with (mkV 0 0 1) by (unfold combine; simpl; f_equal; field).
  rewrite normalize_z_axis. f_equal. f_equal. field.
Qed.

(** C5, as stated, fails: for a ray that starts inside a sphere the
    returned normal is the outward one, along the ray. *)
Lemma trace_ray_normal_inside_sphere :
  ~ (forall (objects : SceneStore) (ray : Ray),
       object (trace_ray objects ray) <> (-1)%Z ->
       dotv (normal (trace_ray objects ray)) (direction ray) <= 0).
Proof.
  intros H.
  specialize (H [sphere (mkMaterial zerov 0 0 0 0 zerov) (mkV 0 0 0) 1]
                (mkRay (mkV 0 0 0) (mkV 0 0 1))).
  rewrite trace_ray_from_centre in H. cbn [object normal direction] in H.
  specialize (H ltac:(discriminate)).
  unfold dotv in H; simpl in H. lra.
Qed.

(** C5, amended: for every ray and every hit that [trace_ray] reports
    against a box (wherever the ray starts), or against a sphere that the
    ray's origin lies strictly outside of, the returned normal satisfies
    dot(normal, ray.direction) <= 0. *)
Theorem trace_ray_normal_faces_ray (objects : SceneStore) (ray : Ray) :
  object (trace_ray objects ray) <> (-1)%Z ->
  (forall s : Sphere,
     shape (object_at objects (object (trace_ray objects ray))) = OBJECT_SPHERE s ->
     0 < sphere_c ray s) ->
  dotv (normal (trace_ray objects ray)) (direction ray) <= 0.
Proof.
  unfold trace_ray.
  set (ray' := mkRay (origin ray) (normalize (direction ray))).
  destruct (trace_scan ray' objects 0%Z (FLT_MAX, (-1)%Z, zerov)) as [[t idx] n] eqn:Hscan.
  destruct (idx =? -1)%Z eqn:Hidx; cbn [object normal]; [intros H; now contradiction H|].
  intros _ Hout.
  apply trace_scan_source in Hscan as [Hscan | [o [Hi [Hn [Hhit Ht]]]]].
  { inversion Hscan; subst. discriminate. }
  rewrite Z.sub_0_r in Hn.
  assert (Ho : object_at objects idx = o).
  { unfold object_at. now apply nth_error_nth. }
  rewrite Ho in Hout.
  apply dotv_normalized_sign. change (normalize (direction ray)) with (direction ray').
  destruct o as [[c|s] m].
  - unfold intersect_object in Hhit; cbn [shape] in Hhit.
    destruct (intersect_cube ray' c) as [[[tn tf] n']|] eqn:Hc; [|discriminate].
    inversion Hhit; subst. now apply intersect_cube_normal in Hc.
  - apply (intersect_sphere_outside_normal ray' s m t n); [|exact Hhit].
    specialize (Hout s eq_refl). exact Hout.
Qed.

Lemma trace_ray_sphere_ahead :
  trace_ray [sphere (mkMaterial zerov 0 0 0 0 zerov) (mkV 0 0 5) 1]
    (mkRay (mkV 0 0 0) (mkV 0 0 1))
  = mkHit 4 (combine (mkV 0 0 0) (mkV 0 0 1) 1 4) (mkV 0 0 (-1)) 0%Z.
Proof.
  pose proof FLT_MAX_large as HM.
  rewrite (trace_ray_single _ _ 4 (mkV 0 0 (-1))); cbn [origin direction];
    rewrite ?normalize_z_axis; try reflexivity; try lra.
  unfold intersect_object, sphere; cbn [shape].
  rewrite (intersect_sphere_eval _ _ 1 (-10) 2);
    try (unfold sphere_discr, sphere_b, sphere_c, sphere_a, dotv, combine; simpl; ring);
    try lra.
  replace (Rltb ((- -10 - 2) / (2 * 1)) 0) with false by (symmetry; apply Rltb_false; lra).
  cbn [origin direction center].
  replace (combine (combine (mkV 0 0 0) (mkV 0 0 1) 1 ((- -10 - 2) / (2 * 1))) (mkV 0 0 5) 1 (-1))
    with (mkV 0 0 (-1)) by (unfold combine; simpl; f_equal; field).
  rewrite normalize_neg_z_axis. f_equal. f_equal. field.
Qed.

Lemma trace_ray_normal_sphere_ahead :
  dotv (normal (trace_ray [sphere (mkMaterial zerov 0 0 0 0 zerov) (mkV 0 0 5) 1]
                  (mkRay (mkV 0 0 0) (mkV 0 0 1))))
       (direction (mkRay (mkV 0 0 0) (mkV 0 0 1))) <= 0.
Proof.
  apply trace_ray_normal_faces_ray.
  - rewrite trace_ray_sphere_ahead. discriminate.
  - rewrite trace_ray_sphere_ahead. cbn [object]. unfold object_at, sphere; simpl.
    intros s Hs. inversion Hs; subst.
    unfold sphere_c, dotv, combine; simpl. lra.
Defined.

(** ** The radiance estimator *)

(** C7: [pixel] returns a vector whose three components lie in [0,1], for
    every screen position (in particular for those of the unit square),
    every aspect ratio and every state of the random stream. *)
Theorem pixel_in_unit_cube
  (ray_through_screen_at : R -> R -> R -> Ray) (skybox : Cubemap)
  (objects : SceneStore) (rnd : nat -> R) (u v aspect_ratio : R) (k : nat) :
  in_unit (fst (pixel ray_through_screen_at skybox objects rnd u v aspect_ratio k)).
Proof.
  unfold pixel, bind, ret. cbv zeta. cbn [fst].
  unfold in_unit; cbn [vx vy vz].
  repeat split; apply clamp_range; lra.
Qed.

(** *** Path throughput *)

Lemma bounce_contrib (skybox : Cubemap) (objects : SceneStore) (rnd : nat -> R)
  (st st' : PathState) (k k' : nat) :
  bounce skybox objects rnd st k = (Continue st', k') ->
  contrib_step
    (material (object_at objects (object (trace_ray objects (in_ray st)))))
    (contrib st) (contrib st').
Proof.
  unfold bounce, bind, ret.
  destruct (object _ =? -1)%Z; [discriminate|]. cbv zeta.
  destruct (Rltb (1 / 1000) _); cbn [fst snd];
    [|destruct (Rleb _ _)];
    (destruct (negb (iszerov _)); intros H; inversion H; subst; clear H;
     cbn [contrib]; unfold contrib_step; eauto 6).
Qed.

Lemma contrib_step_bound (m : Material) (c c' : Vector3) :
  material_ok m -> in_unit c -> contrib_step m c c' ->
  in_unit c' /\ le3 c' c.
Proof.
  intros [[Hax [Hay Haz]] Hm] [Hx [Hy Hz]] [c1 [H1 H2]].
  assert (Hc1 : in_unit c1 /\ le3 c1 c).
  { destruct H1 as [-> | ->]; unfold in_unit, le3, mulv, scale; cbn [vx vy vz].
    - repeat split; lra.
    - assert (Hfx : 0 <= vx (albedo m) * (1 - metallic m) <= 1) by nra.
      assert (Hfy : 0 <= vy (albedo m) * (1 - metallic m) <= 1) by nra.
      assert (Hfz : 0 <= vz (albedo m) * (1 - metallic m) <= 1) by nra.
      repeat split; nra. }
  destruct Hc1 as [[Hx1 [Hy1 Hz1]] [Lx [Ly Lz]]].
  destruct H2 as [-> | ->]; unfold in_unit, le3, scale; cbn [vx vy vz].
  - repeat split; lra.
  - repeat split; lra.
Qed.

Lemma object_at_material_ok (objects : SceneStore) (i : Z) :
  Forall (fun o => material_ok (material o)) objects ->
  material_ok (material (object_at objects i)).
Proof.
  intros H. unfold object_at.
  destruct (nth_in_or_default (Z.to_nat i) objects
              (cube (mkMaterial zerov 0 0 0 0 zerov) zerov zerov)) as [Hin | ->].
  - rewrite Forall_forall in H. now apply H.
  - unfold material_ok, in_unit, cube, zerov; simpl. lra.
Qed.

(** [S n] bounces are [n] bounces and one more. *)
Lemma bounces_snoc (skybox : Cubemap) (objects : SceneStore) (rnd : nat -> R) (n : nat) :
  forall (st : PathState) (k : nat),
    bounces skybox objects rnd (S n) st k =
      match bounces skybox objects rnd n st k with
      | (Some st', k') =>
          match bounce skybox objects rnd st' k' with
          | (Break _, k2) => (None, k2)
          | (Continue s, k2) => (Some s, k2)
          end
      | (None, k') => (None, k')
      end.
Proof.
  induction n as [|n IH]; intros st k.
  - cbn [bounces]. unfold bind, ret. cbv zeta.
    destruct (bounce skybox objects rnd st k) as [[r|s] k1]; reflexivity.
  - change (bounces skybox objects rnd (S (S n)) st k)
      with (bind (bounce skybox objects rnd st)
              (fun s => match s with
                        | Break _ => ret None
                        | Continue st' => bounces skybox objects rnd (S n) st'
                        end) k).
    change (bounces skybox objects rnd (S n) st k)
      with (bind (bounce skybox objects rnd st)
              (fun s => match s with
                        | Break _ => ret None
                        | Continue st' => bounces skybox objects rnd n st'
                        end) k).
    unfold bind. cbv zeta.
    destruct (bounce skybox objects rnd st k) as [[r|s] k1]; cbn [fst snd].
    + reflexivity.
    + apply IH.
Qed.

(** The states of [bounces] are the states the loop of [pixel] is in. *)
Lemma pixel_loop_through (skybox : Cubemap) (objects : SceneStore) (rnd : nat -> R)
  (n m : nat) :
  forall (st st' : PathState) (k k' : nat),
    bounces skybox objects rnd n st k = (Some st', k') ->
    pixel_loop skybox objects rnd (n + m) st k = pixel_loop skybox objects rnd m st' k'.
Proof.
  induction n as [|n IH]; intros st st' k k' H.
  - cbn in H. unfold ret in H. now inversion H.
  - cbn [bounces] in H. cbn [Nat.add pixel_loop]. unfold bind in *. cbv zeta in *.
    destruct (bounce skybox objects rnd st k) as [[r|s] k1]; cbn [fst snd] in *.
    + discriminate.
    + now apply IH.
Qed.

(** What a bounce that continues does to the throughput, exactly. *)
Lemma bounce_contrib_exact (skybox : Cubemap) (objects : SceneStore) (rnd : nat -> R)
  (st st' : PathState) (k k' : nat) :
  bounce skybox objects rnd st k = (Continue st', k') ->
  contrib st' =
    contrib_after
      (material (object_at objects (object (trace_ray objects (in_ray st)))))
      (bounce_is_specular objects rnd st k) (bounce_is_lit objects rnd st k) (contrib st).
Proof.
  unfold bounce, bounce_is_specular, bounce_is_lit, contrib_after, bind, ret.
  destruct (object _ =? -1)%Z; [discriminate|]. cbv zeta.
  unfold random_direction, random_vector, random_float, bind, ret. cbv zeta. cbn [fst snd].
  replace (snd (sampled_light objects rnd (trace_ray objects (in_ray st)) k) + 3)%nat
    with (S (S (S (snd (sampled_light objects rnd (trace_ray objects (in_ray st)) k)))))
    by lia.
  replace (mkV (- vx (direction (in_ray st))) (- vy (direction (in_ray st)))
               (- vz (direction (in_ray st))))
    with (scale (direction (in_ray st)) (-1)) by (unfold scale; f_equal; ring).
  match goal with
  | |- context [avgv (fresnelSchlick _ ?f)] =>
      replace f with
        (combine
           (vec_from_scalar
              (16 / 100 *
               reflectance (material (object_at objects (object (trace_ray objects (in_ray st))))) *
               reflectance (material (object_at objects (object (trace_ray objects (in_ray st)))))))
           (albedo (material (object_at objects (object (trace_ray objects (in_ray st))))))
           (1 - metallic (material (object_at objects (object (trace_ray objects (in_ray st))))))
           (metallic (material (object_at objects (object (trace_ray objects (in_ray st)))))))
        by (unfold combine, vec_from_scalar; cbn [vx vy vz]; f_equal; ring)
  end.
  destruct (Rltb (1 / 1000) _); cbn [fst snd orb];
    [|destruct (Rleb _ _)];
    (destruct (negb (iszerov _)); intros H; inversion H; subst; clear H;
     cbn [contrib]; unfold scale, mulv; cbn [vx vy vz];
     try reflexivity; try (destruct (contrib st); cbn [vx vy vz]; f_equal; field)).
Qed.

(** A bounce goes on to the next one exactly when its ray hits an object. *)
Lemma bounce_continues_on_hit (skybox : Cubemap) (objects : SceneStore) (rnd : nat -> R)
  (st : PathState) (k : nat) :
  object (trace_ray objects (in_ray st)) <> (-1)%Z ->
  exists (st' : PathState) (k' : nat), bounce skybox objects rnd st k = (Continue st', k').
Proof.
  intros Hhit. apply Z.eqb_neq in Hhit.
  unfold bounce, bind, ret. rewrite Hhit. cbv zeta.
  destruct (Rltb (1 / 1000) _); cbn [fst snd];
    [|destruct (Rleb _ _)];
    (destruct (negb (iszerov _)); eexists; eexists; reflexivity).
Qed.

Lemma contrib_after_bound (m : Material) (specular lit : bool) (c : Vector3) :
  material_ok m -> in_unit c ->
  in_unit (contrib_after m specular lit c) /\ le3 (contrib_after m specular lit c) c.
Proof.
  intros Hm Hc. apply (contrib_step_bound m); auto.
  unfold contrib_step, contrib_after. cbv zeta.
  destruct specular, lit.
  - exists c. split; [now left|right]. unfold scale. f_equal; field.
  - exists c. split; now left.
  - exists (mulv c (scale (albedo m) (1 - metallic m))). split; [now right|right].
    unfold scale, mulv; cbn [vx vy vz]. f_equal; field.
  - exists (mulv c (scale (albedo m) (1 - metallic m))). split; [now right|left].
    reflexivity.
Qed.

(** The sphere one unit wide five units down the z axis, in any material,
    is hit from the origin at distance 4 on its near pole. *)
Lemma trace_ray_matte_sphere (m : Material) :
  trace_ray [sphere m (mkV 0 0 5) 1] z_ray
  = mkHit 4 (combine (mkV 0 0 0) (mkV 0 0 1) 1 4) (mkV 0 0 (-1)) 0%Z.
Proof.
  pose proof FLT_MAX_large as HM. unfold z_ray.
  rewrite (trace_ray_single _ _ 4 (mkV 0 0 (-1))); cbn [origin direction];
    rewrite ?normalize_z_axis; try reflexivity; try lra.
  unfold intersect_object, sphere; cbn [shape].
  rewrite (intersect_sphere_eval _ _ 1 (-10) 2);
    try (unfold sphere_discr, sphere_b, sphere_c, sphere_a, dotv, combine; simpl; ring);
    try lra.
  replace (Rltb ((- -10 - 2) / (2 * 1)) 0) with false by (symmetry; apply Rltb_false; lra).
  cbn [origin direction center].
  replace (combine (combine (mkV 0 0 0) (mkV 0 0 1) 1 ((- -10 - 2) / (2 * 1))) (mkV 0 0 5) 1 (-1))
    with (mkV 0 0 (-1)) by (unfold combine; simpl; f_equal; field).
  rewrite normalize_neg_z_axis. f_equal. f_equal. field.
Qed.

(** In [matte_scene], with every draw equal to 1, the first bounce of the
    ray along the z axis is diffuse and unlit. *)
Lemma matte_first_bounce :
  bounce_is_specular matte_scene (fun _ => 1) (mkPath z_ray (mkV 1 1 1) (mkV 0 0 0)) 0 = false /\
  bounce_is_lit matte_scene (fun _ => 1) (mkPath z_ray (mkV 1 1 1) (mkV 0 0 0)) 0 = false.
Proof.
  unfold bounce_is_specular, bounce_is_lit, matte_scene. cbn [in_ray].
  rewrite trace_ray_matte_sphere. cbv zeta. cbn [object normal].
  unfold object_at, sphere, matte; cbn [Z.to_nat nth material metallic albedo reflectance].
  split.
  - replace (Rltb (1 / 1000) 0) with false by (symmetry; apply Rltb_false; lra).
    cbn [orb]. apply Rleb_false.
    unfold z_ray; cbn [direction vx vy vz].
    match goal with
    | |- context [clamp ?d 0 1] =>
        replace d with 1 by (unfold dotv; cbn [vx vy vz]; ring)
    end.
    rewrite clamp_id by lra.
    unfold avgv, fresnelSchlick, pow5, combine, vec_from_scalar; cbn [vx vy vz]. lra.
  - unfold sampled_light. cbn [light_scan material emission_power].
    rewrite Reqb_refl. cbn [orb light_scan]. unfold ret. cbn [fst].
    unfold iszerov, zerov; cbn [vx vy vz]. unfold iszerof.
    replace (Rltb 0 (1 / 10000)) with true by (symmetry; apply Rltb_true; lra).
    replace (Rltb (- (1 / 10000)) 0) with true by (symmetry; apply Rltb_true; lra).
    reflexivity.
Qed.

(** C8: with albedo components and metallic in [0,1] for every material
    of the scene, the throughput [contrib] of a path of [pixel] has its
    components in [0,1] at every bounce (it starts at (1,1,1)) and does not
    increase from a bounce to the next, where it becomes what
    [contrib_after] says: unchanged by a specular bounce, multiplied by
    albedo * (1 - metallic) by a diffuse one, and then scaled by 0.95 when
    the light sample of the bounce is not zero. *)
Theorem contrib_in_unit_nonincreasing
  (ray_through_screen_at : R -> R -> R -> Ray) (skybox : Cubemap)
  (objects : SceneStore) (rnd : nat -> R) (u v aspect_ratio : R) (k : nat) :
  Forall (fun o => material_ok (material o)) objects ->
  let start := mkPath (ray_through_screen_at u v aspect_ratio) (mkV 1 1 1) (mkV 0 0 0) in
  forall (n : nat) (st : PathState) (k' : nat),
    bounces skybox objects rnd n start k = (Some st, k') ->
    in_unit (contrib st) /\
    forall (st2 : PathState) (k2 : nat),
      bounces skybox objects rnd (S n) start k = (Some st2, k2) ->
      le3 (contrib st2) (contrib st) /\
      contrib st2 =
        contrib_after
          (material (object_at objects (object (trace_ray objects (in_ray st)))))
          (bounce_is_specular objects rnd st k') (bounce_is_lit objects rnd st k')
          (contrib st).
Proof.
  intros Hok start.
  assert (Hinv : forall n st k', bounces skybox objects rnd n start k = (Some st, k') ->
                                 in_unit (contrib st)).
  { induction n as [|n IH]; intros st k' H.
    - cbn in H. unfold ret in H. inversion H; subst.
      unfold in_unit, start; simpl. lra.
    - rewrite bounces_snoc in H.
      destruct (bounces skybox objects rnd n start k) as [[st0|] k0] eqn:E; [|discriminate].
      destruct (bounce skybox objects rnd st0 k0) as [[r|s] k1] eqn:Eb; [discriminate|].
      inversion H; subst.
      apply bounce_contrib in Eb.
      apply (contrib_step_bound _ _ _ (object_at_material_ok objects _ Hok)
               (IH st0 k0 eq_refl) Eb). }
  intros n st k' H. split; [now apply Hinv with n k'|].
  intros st2 k2 H2.
  rewrite bounces_snoc, H in H2.
  destruct (bounce skybox objects rnd st k') as [[r|s] k1] eqn:Eb; [discriminate|].
  inversion H2; subst.
  apply bounce_contrib_exact in Eb. split; [|exact Eb].
  rewrite Eb.
  apply (contrib_after_bound _ _ _ _ (object_at_material_ok objects _ Hok)
           (Hinv n st k' H)).
Qed.

Lemma contrib_after_diffuse_bounce :
  exists (st2 : PathState) (k2 : nat),
    bounces small_cubemap matte_scene (fun _ => 1) 1
      (mkPath z_ray (mkV 1 1 1) (mkV 0 0 0)) 0%nat = (Some st2, k2) /\
    contrib st2 = mkV (1 * (1 * (1 - 0))) (1 * (4 / 10 * (1 - 0))) (1 * (0 * (1 - 0))) /\
    le3 (contrib st2) (mkV 1 1 1).
Proof.
  assert (Hok : Forall (fun o => material_ok (material o)) matte_scene).
  { constructor; [|constructor].
    unfold material_ok, in_unit, sphere, matte; simpl. lra. }
  assert (Hhit : object (trace_ray matte_scene
                           (in_ray (mkPath z_ray (mkV 1 1 1) (mkV 0 0 0)))) <> (-1)%Z).
  { unfold matte_scene. cbn [in_ray]. rewrite trace_ray_matte_sphere. discriminate. }
  destruct (bounce_continues_on_hit small_cubemap matte_scene (fun _ => 1)
              (mkPath z_ray (mkV 1 1 1) (mkV 0 0 0)) 0%nat Hhit) as [st2 [k2 Hb]].
  assert (H1 : bounces small_cubemap matte_scene (fun _ => 1) 1
                 (mkPath z_ray (mkV 1 1 1) (mkV 0 0 0)) 0%nat = (Some st2, k2)).
  { cbn [bounces]. unfold bind, ret. cbv zeta. rewrite Hb. reflexivity. }
  exists st2, k2. split; [exact H1|].
  destruct (contrib_in_unit_nonincreasing
              (fun _ _ _ => z_ray) small_cubemap matte_scene (fun _ => 1) 0 0 1 0%nat Hok 0%nat
              (mkPath z_ray (mkV 1 1 1) (mkV 0 0 0)) 0%nat eq_refl) as [_ Hstep].
  destruct (Hstep st2 k2 H1) as [Hle Heq].
  split; [|exact Hle].
  rewrite Heq.
  destruct matte_first_bounce as [-> ->].
  unfold matte_scene. cbn [in_ray]. rewrite trace_ray_matte_sphere.
  reflexivity.
Defined.

(** *** The direct-light estimate *)

Lemma addv_zerov_r (a : Vector3) : addv a zerov = a.
Proof. destruct a. unfold addv, combine, zerov; simpl. f_equal; ring. Qed.

(** One pass of the loop over [k] draws three numbers and adds what its
    shadow ray contributes. *)
Lemma light_sample_adds (objects : SceneStore) (rnd : nat -> R) (hit : HitInfo)
  (dir acc : Vector3) (k : nat) :
  light_sample objects rnd hit dir acc k =
    (addv acc (shadow_emission objects (shadow_ray hit dir (jitter_at rnd hit k))),
     (k + 3)%nat).
Proof.
  unfold light_sample, random_direction, random_vector, random_float, bind, ret.
  cbv zeta. cbn [fst snd].
  unfold jitter_at, shadow_emission. cbv zeta.
  replace (k + 1)%nat with (S k) by lia.
  replace (k + 2)%nat with (S (S k)) by lia.
  replace (k + 3)%nat with (S (S (S k))) by lia.
  f_equal.
  destruct (object _ =? -1)%Z.
  - now rewrite addv_zerov_r.
  - destruct acc. unfold addv, combine, scale; simpl. f_equal; ring.
Qed.

Lemma light_samples_fold (objects : SceneStore) (rnd : nat -> R) (hit : HitInfo)
  (dir : Vector3) (k : nat) (n : nat) :
  forall (a : nat) (acc : Vector3),
    light_samples objects rnd n hit dir acc (k + 3 * a)%nat =
      (fold_left addv
         (map (fun s => shadow_emission objects
                          (shadow_ray hit dir (jitter_at rnd hit (k + 3 * s))))
              (seq a n)) acc,
       (k + 3 * (a + n))%nat).
Proof.
  induction n as [|n IH]; intros a acc.
  - cbn. unfold ret. f_equal. lia.
  - cbn [light_samples seq map fold_left]. unfold bind. cbv zeta.
    rewrite light_sample_adds. cbn [fst snd].
    replace (k + 3 * a + 3)%nat with (k + 3 * S a)%nat by lia.
    rewrite IH. f_equal. lia.
Qed.

Lemma light_scan_first (objects : SceneStore) (rnd : nat -> R) (hit : HitInfo)
  (k : nat) (objs : list Object) :
  forall j : Z,
    light_scan objects rnd objs j hit k =
      match first_light objs j hit with
      | None => (zerov, k)
      | Some light =>
          let dir := combine (origin_of light) (point hit) 1 (-1) in
          (scale (fold_left addv
                    (map (fun s => shadow_emission objects
                                     (shadow_ray hit dir (jitter_at rnd hit (k + 3 * s))))
                         (seq 0 5)) zerov) (1 / 5),
           (k + 15)%nat)
      end.
Proof.
  induction objs as [|o rest IH]; intros j.
  - reflexivity.
  - cbn [light_scan first_light].
    destruct (Reqb (emission_power (material o)) 0); cbn [negb andb orb].
    + apply IH.
    + destruct (j =? object hit)%Z; cbn [negb].
      * apply IH.
      * unfold bind, ret. cbv zeta.
        pose proof (light_samples_fold objects rnd hit
                      (combine (origin_of o) (point hit) 1 (-1)) k 5 0 zerov) as H.
        replace (k + 3 * 0)%nat with k in H by lia.
        rewrite H. cbn [fst snd]. f_equal.
Qed.

(** [first_light] is the first object, in scan order, that emits and is
    not the hit object. *)
Lemma first_light_scan_order (hit : HitInfo) (objs : list Object) :
  forall j0 : Z,
    match first_light objs j0 hit with
    | Some light =>
        exists i : nat,
          nth_error objs i = Some light /\
          emission_power (material light) <> 0 /\
          (j0 + Z.of_nat i)%Z <> object hit /\
          forall i' o', (i' < i)%nat -> nth_error objs i' = Some o' ->
            emission_power (material o') = 0 \/ (j0 + Z.of_nat i')%Z = object hit
    | None =>
        forall i o, nth_error objs i = Some o ->
          emission_power (material o) = 0 \/ (j0 + Z.of_nat i)%Z = object hit
    end.
Proof.
  induction objs as [|o rest IH]; intros j0.
  - cbn. intros [|i] o H; discriminate.
  - cbn [first_light].
    destruct (Reqb (emission_power (material o)) 0) eqn:Ee;
      [apply Reqb_true in Ee | apply Reqb_false in Ee];
      destruct (j0 =? object hit)%Z eqn:Ej;
      [apply Z.eqb_eq in Ej | apply Z.eqb_neq in Ej
      |apply Z.eqb_eq in Ej | apply Z.eqb_neq in Ej]; cbn [negb andb].
    4:{ exists 0%nat. repeat split; auto.
        - now rewrite Z.add_0_r.
        - intros i' o' Hi'. lia. }
    all: specialize (IH (j0 + 1)%Z);
      destruct (first_light rest (j0 + 1)%Z hit) as [light|].
    all: try (destruct IH as [i [Hn [He [Hj Hbefore]]]];
              exists (S i); repeat split; auto; [lia|];
              intros [|i'] o' Hlt Hn';
              [cbn in Hn'; inversion Hn'; subst o'; rewrite Z.add_0_r; tauto
              |cbn in Hn'; destruct (Hbefore i' o' ltac:(lia) Hn') as [H|H]; [tauto|right; lia]]).
    all: intros [|i] o' Hn';
      [cbn in Hn'; inversion Hn'; subst o'; rewrite Z.add_0_r; tauto
      |cbn in Hn'; destruct (IH i o' Hn') as [H|H]; [tauto|right; lia]].
Qed.

(** The embedded light loop and the estimate written from the
    specification's words agree piece by piece. *)
Lemma jitter_at_hemispheric (rnd : nat -> R) (hit : HitInfo) (k : nat) :
  jitter_at rnd hit k = spec_hemispheric rnd hit k.
Proof.
  unfold jitter_at, spec_hemispheric, into_hemisphere. cbv zeta.
  replace (rnd k * 2 - 1) with (2 * rnd k - 1) by ring.
  replace (rnd (k + 1)%nat * 2 - 1) with (2 * rnd (k + 1)%nat - 1) by ring.
  replace (rnd (k + 2)%nat * 2 - 1) with (2 * rnd (k + 2)%nat - 1) by ring.
  destruct (Rltb _ 0); [|reflexivity].
  unfold scale. f_equal; ring.
Qed.

Lemma shadow_ray_spec (rnd : nat -> R) (hit : HitInfo) (light : Object) (k : nat) :
  shadow_ray hit (combine (origin_of light) (point hit) 1 (-1)) (jitter_at rnd hit k) =
    spec_shadow_ray rnd hit light k.
Proof.
  rewrite jitter_at_hemispheric.
  unfold shadow_ray, spec_shadow_ray. cbv zeta.
  replace (combine (spec_hemispheric rnd hit k)
             (combine (origin_of light) (point hit) 1 (-1)) (1 / 2) 1)
    with (mkV (vx (origin_of light) - vx (point hit) + vx (spec_hemispheric rnd hit k) / 2)
              (vy (origin_of light) - vy (point hit) + vy (spec_hemispheric rnd hit k) / 2)
              (vz (origin_of light) - vz (point hit) + vz (spec_hemispheric rnd hit k) / 2))
    by (unfold combine; cbn [vx vy vz]; f_equal; field).
  f_equal. unfold combine. f_equal; field.
Qed.

Lemma shadow_emission_spec (objects : SceneStore) (ray : Ray) :
  shadow_emission objects ray = spec_emission objects ray.
Proof.
  unfold shadow_emission, spec_emission. cbv zeta.
  destruct (object _ =? -1)%Z; reflexivity.
Qed.

Lemma fold_addv_coordinates (A : Type) (f g : A -> Vector3) (l : list A) :
  (forall a, f a = g a) ->
  forall acc : Vector3,
    fold_left addv (map f l) acc =
      fold_left (fun acc a => mkV (vx acc + vx (g a)) (vy acc + vy (g a)) (vz acc + vz (g a)))
                l acc.
Proof.
  intros Hfg. induction l as [|a l IH]; intros acc; [reflexivity|].
  cbn [map fold_left]. rewrite IH. f_equal.
  rewrite Hfg. unfold addv, combine. f_equal; ring.
Qed.

Lemma scale_fifth (v : Vector3) :
  scale v (1 / 5) = mkV (vx v / 5) (vy v / 5) (vz v / 5).
Proof. unfold scale. f_equal; field. Qed.

(** C6: the direct-light estimate of a bounce samples only the first
    object in scan order that emits and is not the hit object: five shadow
    rays, offset 0.001 along their jittered directions; every ray that hits
    an object adds that object's emission colour times its emission power,
    whichever object it is; rays that escape add nothing; the sum is
    divided by five.  Fifteen random numbers are drawn when there is such
    an object and none otherwise.  The right-hand side,
    [direct_light_spec], spells out the jitter, the offset and the sum
    coordinate by coordinate and shares nothing with the embedded loop
    but [trace_ray], [object_at], [origin_of] and [normalize]. *)
Theorem sampled_light_first_emitter (objects : SceneStore) (rnd : nat -> R)
  (hit : HitInfo) (k : nat) :
  sampled_light objects rnd hit k =
    (direct_light_spec objects rnd hit k,
     match first_light objects 0%Z hit with
     | Some _ => (k + 15)%nat
     | None => k
     end) /\
  match first_light objects 0%Z hit with
  | Some light =>
      exists i : nat,
        nth_error objects i = Some light /\
        emission_power (material light) <> 0 /\
        Z.of_nat i <> object hit /\
        forall i' o', (i' < i)%nat -> nth_error objects i' = Some o' ->
          emission_power (material o') = 0 \/ Z.of_nat i' = object hit
  | None =>
      forall i o, nth_error objects i = Some o ->
        emission_power (material o) = 0 \/ Z.of_nat i = object hit
  end.
Proof.
  split.
  - unfold sampled_light, direct_light_spec. rewrite light_scan_first.
    destruct (first_light objects 0%Z hit) as [light|]; [|reflexivity].
    cbv zeta. f_equal.
    rewrite scale_fifth.
    rewrite (fold_addv_coordinates _ _
               (fun s => spec_emission objects (spec_shadow_ray rnd hit light (k + 3 * s)))).
    + reflexivity.
    + intros s. rewrite shadow_ray_spec. apply shadow_emission_spec.
  - exact (first_light_scan_order hit objects 0%Z).
Qed.

Lemma shadow_ray_offset (hit : HitInfo) (dir rand_dir : Vector3) :
  origin (shadow_ray hit dir rand_dir) =
    combine (point hit) (direction (shadow_ray hit dir rand_dir)) 1 (1 / 1000).
Proof. reflexivity. Qed.

(** ** Resizing and the generation counter *)

Lemma Reqb_IZR_unit (a b : Z) : Reqb (IZR a) (1 * IZR b) = (a =? b)%Z.
Proof.
  rewrite Rmult_1_l. destruct (a =? b)%Z eqn:E.
  - apply Z.eqb_eq in E. subst. apply Reqb_refl.
  - apply Z.eqb_neq in E. apply Reqb_false. intros H. now apply eq_IZR in H.
Qed.

Lemma truncR_IZR_unit (z : Z) : truncR (1 * IZR z) = z.
Proof.
  rewrite Rmult_1_l. unfold truncR.
  destruct (Rleb 0 (IZR z)) eqn:E.
  - symmetry. apply Int_part_spec. lra.
  - rewrite <- opp_IZR.
    replace (Int_part (IZR (- z))) with (- z)%Z; [lia|].
    apply Int_part_spec. lra.
Qed.

(** The presenter never touches the generation counter, resize or not. *)
Lemma update_frame_texture_generation (render : R -> R -> R -> Rand Vector3)
  (s : R) (screen_w screen_h : Z) (uninit : nat -> Vector3) (sh sh' : Shared) (k : nat) :
  fst (update_frame_texture render s screen_w screen_h uninit sh k) = Some sh' ->
  accum_generation sh' = accum_generation sh.
Proof.
  unfold update_frame_texture, bind, ret. cbv zeta. cbn [fst snd].
  match goal with
  | |- context [fst (fst ?x)] => destruct (fst (fst x)); [|discriminate]
  end.
  intros H. inversion H; subst; clear H. cbn [accum_generation].
  destruct (_ || _); reflexivity.
Qed.

(** A worker whose merge is enabled before a presenter tick still has it
    enabled after the tick, whether the tick resized the buffers or not. *)
Lemma update_frame_texture_keeps_merge (render : R -> R -> R -> Rand Vector3)
  (s : R) (screen_w screen_h : Z) (uninit : nat -> Vector3) (sh sh' : Shared)
  (w : Local) (k : nat) :
  fst (update_frame_texture render s screen_w screen_h uninit sh k) = Some sh' ->
  merge_enabled sh w = true -> merge_enabled sh' w = true.
Proof.
  intros H Hm.
  pose proof (update_frame_texture_generation _ _ _ _ _ _ _ _ H) as Hg.
  unfold merge_enabled in *. rewrite Hg.
  destruct (accum sh) as [acc|] eqn:Ea; [|discriminate].
  destruct (local_accum w); [|discriminate].
  revert H. unfold update_frame_texture, bind, ret. cbv zeta. cbn [fst snd].
  match goal with
  | |- context [fst (fst ?x)] => destruct (fst (fst x)); [|discriminate]
  end.
  intros H. inversion H; subst; clear H. cbn [accum].
  destruct (_ || _); cbn [accum]; [|rewrite Ea]; exact Hm.
Qed.

(** The sibling path: [invalidate_accumulation] moves the generation, and
    a worker that cached the old one does not merge. *)
Lemma invalidate_disables_merge (sh : Shared) (w : Local) :
  (0 <= accum_generation sh < 2 ^ 32)%Z ->
  local_accum_generation w = accum_generation sh ->
  merge_enabled (invalidate_accumulation sh) w = false.
Proof.
  intros Hg Hw. unfold merge_enabled, invalidate_accumulation. cbn [accum accum_generation].
  destruct (accum sh); [|reflexivity]. destruct (local_accum w); [|reflexivity].
  apply Z.eqb_neq. rewrite Hw.
  destruct (Z.eq_dec (accum_generation sh + 1) (2 ^ 32)) as [E|E].
  - rewrite E, Z.mod_same by lia. lia.
  - rewrite Z.mod_small by lia. lia.
Qed.

(** A presenter tick that resizes to a frame smaller than one preview
    tile: fresh buffers, no preview cell, weight 1/256. *)
Lemma update_frame_texture_resize_small (render : R -> R -> R -> Rand Vector3)
  (w h : Z) (uninit : nat -> Vector3) (sh : Shared) (k : nat) :
  (0 <= w < 16)%Z -> (0 <= h < 16)%Z ->
  ((frame_w sh =? w) && (frame_h sh =? h))%Z = false ->
  update_frame_texture render 1 w h uninit sh k =
    (Some (mkShared (accum_generation sh)
             (Some (map uninit (seq 0 (Z.to_nat (w * h)))))
             (Some (map (fun a => scale a (1 / (0 + 1 / IZR (16 * 16))))
                      (firstn (Z.to_nat (w * h))
                         (map uninit (seq 0 (Z.to_nat (w * h)))))))
             w h (0 + 1 / IZR (16 * 16))), k).
Proof.
  intros Hw Hh Hne.
  unfold update_frame_texture.
  rewrite !Reqb_IZR_unit, !truncR_IZR_unit, <- negb_andb, Hne.
  cbn [negb accum_count accum frame frame_w frame_h accum_generation].
  rewrite Reqb_refl.
  rewrite (Z.quot_small w 16), (Z.quot_small h 16) by lia.
  cbn [cells upto Z.to_nat seq map flat_map seed_cells].
  unfold bind, ret. cbn [fst snd option_map]. reflexivity.
Qed.

(** C1 fails on the code: a resize leaves [accum_generation] as it was,
    so the guard of the merge still holds for a buffer of the old size.
    In [resize_scenario] the worker holds a 2 x 2 buffer with weight 1
    when the frame has become 1 x 1; its critical section merges: the
    first element of the old buffer is added to the only pixel of the new
    accumulator and the old weight to [accum_count]. *)
Theorem resize_merges_stale_buffer (render : R -> R -> R -> Rand Vector3)
  (uninit uninit' : nat -> Vector3) (k : nat) :
  exists (sh : Shared) (w w' : Local) (l0 l1 l2 l3 : Vector3),
    fst (resize_scenario render uninit uninit' k) = Some (sh, w) /\
    (frame_w sh, frame_h sh) = (1, 1)%Z /\
    (local_frame_w w, local_frame_h w) = (2, 2)%Z /\
    local_accum w = Some [l0; l1; l2; l3] /\
    local_accum_count w = 0 + 1 / IZR (1 * 1) /\
    accum sh = Some [uninit' 0%nat] /\
    accum_count sh = 0 + 1 / IZR (16 * 16) /\
    local_accum_generation w = accum_generation sh /\
    merge_enabled sh w = true /\
    worker_sync sh w =
      Some (mkShared (accum_generation sh) (Some [combine (uninit' 0%nat) l0 1 1])
              (frame sh) 1 1 (accum_count sh + local_accum_count w),
            w', true).
Proof.
  unfold resize_scenario. unfold bind at 1. cbv zeta.
  rewrite update_frame_texture_resize_small by (reflexivity || lia).
  cbn [fst snd]. unfold bind at 1. cbv zeta.
  unfold worker_iteration.
  cbv -[Rdiv Rplus Rmult Rminus Ropp Rinv IZR combine scale update_frame_texture].
  rewrite update_frame_texture_resize_small by (reflexivity || lia).
  cbv -[Rdiv Rplus Rmult Rminus Ropp Rinv IZR combine scale].
  do 7 eexists. repeat split.
Qed.

(** ** Further properties of the code *)

(** *** Ray and box *)

(** Decide the comparisons of the goal that linear arithmetic settles. *)
Ltac rdecide :=
  repeat match goal with
    | |- context [Rltb ?a ?b] =>
        first [ replace (Rltb a b) with true by (symmetry; apply Rltb_true; lra)
              | replace (Rltb a b) with false by (symmetry; apply Rltb_false; lra) ]
    | |- context [Rleb ?a ?b] =>
        first [ replace (Rleb a b) with true by (symmetry; apply Rleb_true; lra)
              | replace (Rleb a b) with false by (symmetry; apply Rleb_false; lra) ]
    end.

Lemma slab_spec (a b o d lo hi : R) :
  d <> 0 ->
  (if Rleb 0 d then ((a - o) / d, (b - o) / d) else ((b - o) / d, (a - o) / d)) = (lo, hi) ->
  forall t, lo <= t <= hi <-> a <= o * 1 + d * t <= b.
Proof.
  intros Hd H t.
  assert (Ha : (a - o) / d * d = a - o) by (field; exact Hd).
  assert (Hb : (b - o) / d * d = b - o) by (field; exact Hd).
  destruct (Rleb 0 d) eqn:E; [apply Rleb_true in E | apply Rleb_false in E];
    inversion H; subst; clear H; split; intros [H1 H2]; split; nra.
Qed.

Lemma slab_order (a b o d lo hi : R) :
  d <> 0 -> a <= b ->
  (if Rleb 0 d then ((a - o) / d, (b - o) / d) else ((b - o) / d, (a - o) / d)) = (lo, hi) ->
  lo <= hi.
Proof.
  intros Hd Hab H.
  assert (Ha : (a - o) / d * d = a - o) by (field; exact Hd).
  assert (Hb : (b - o) / d * d = b - o) by (field; exact Hd).
  destruct (Rleb 0 d) eqn:E; [apply Rleb_true in E | apply Rleb_false in E];
    inversion H; subst; clear H; nra.
Qed.

(** X1: for a ray whose direction has no zero component, [intersect_cube]
    reports a hit exactly when the line of the ray meets the box: on a hit
    the parameters between [tnear] and [tfar] are exactly those whose point
    lies in the box (and [tnear <= tfar] when the size is non-negative); on
    a miss no point of the line lies in the box. *)
Theorem intersect_cube_interval (r : Ray) (c : Cube) :
  vx (direction r) <> 0 -> vy (direction r) <> 0 -> vz (direction r) <> 0 ->
  match intersect_cube r c with
  | Some (tnear, tfar, _) =>
      (forall t, tnear <= t <= tfar <-> in_box c (ray_at r t)) /\
      (0 <= vx (cube_size c) -> 0 <= vy (cube_size c) -> 0 <= vz (cube_size c) ->
       tnear <= tfar)
  | None => forall t, ~ in_box c (ray_at r t)
  end.
Proof.
  intros Hx Hy Hz.
  unfold intersect_cube. cbv zeta.
  destruct (if Rleb 0 (vx (direction r)) then _ else _) as [txmin txmax] eqn:Ex.
  destruct (if Rleb 0 (vy (direction r)) then _ else _) as [tymin tymax] eqn:Ey.
  destruct (if Rleb 0 (vz (direction r)) then _ else _) as [tzmin tzmax] eqn:Ez.
  unfold in_box, ray_at, combine in *. cbn [vx vy vz] in *.
  assert (Sx : forall t, txmin <= t <= txmax <->
            vx (cube_origin c) <= vx (origin r) * 1 + vx (direction r) * t
              <= vx (cube_origin c) + vx (cube_size c)).
  { intros t. destruct (slab_spec _ _ _ _ _ _ Hx Ex t) as [A B].
    split; intro K; [pose proof (A K) | apply B]; lra. }
  assert (Sy : forall t, tymin <= t <= tymax <->
            vy (cube_origin c) <= vy (origin r) * 1 + vy (direction r) * t
              <= vy (cube_origin c) + vy (cube_size c)).
  { intros t. destruct (slab_spec _ _ _ _ _ _ Hy Ey t) as [A B].
    split; intro K; [pose proof (A K) | apply B]; lra. }
  assert (Sz : forall t, tzmin <= t <= tzmax <->
            vz (cube_origin c) <= vz (origin r) * 1 + vz (direction r) * t
              <= vz (cube_origin c) + vz (cube_size c)).
  { intros t. destruct (slab_spec _ _ _ _ _ _ Hz Ez t) as [A B].
    split; intro K; [pose proof (A K) | apply B]; lra. }
  assert (Ox : 0 <= vx (cube_size c) -> txmin <= txmax).
  { intros H. apply (slab_order _ _ _ _ _ _ Hx) in Ex; lra. }
  assert (Oy : 0 <= vy (cube_size c) -> tymin <= tymax).
  { intros H. apply (slab_order _ _ _ _ _ _ Hy) in Ey; lra. }
  assert (Oz : 0 <= vz (cube_size c) -> tzmin <= tzmax).
  { intros H. apply (slab_order _ _ _ _ _ _ Hz) in Ez; lra. }
  clear Ex Ey Ez.
  destruct (Rltb tymax txmin) eqn:C1; [apply Rltb_true in C1 | apply Rltb_false in C1];
  (destruct (Rltb txmax tymin) eqn:C2; [apply Rltb_true in C2 | apply Rltb_false in C2]);
  cbn [orb];
  try (intros t; rewrite <- Sx, <- Sy, <- Sz; lra).
  destruct (Rltb txmin tymin) eqn:C3; [apply Rltb_true in C3 | apply Rltb_false in C3];
  (destruct (Rltb tymax txmax) eqn:C4; [apply Rltb_true in C4 | apply Rltb_false in C4]);
  cbv beta iota;
  (destruct (Rltb tzmax _) eqn:C5; [apply Rltb_true in C5 | apply Rltb_false in C5]);
  (destruct (Rltb _ tzmin) eqn:C6; [apply Rltb_true in C6 | apply Rltb_false in C6]);
  cbn [orb];
  try (intros t; rewrite <- Sx, <- Sy, <- Sz; lra);
  (destruct (Rltb _ tzmin) eqn:C7; [apply Rltb_true in C7 | apply Rltb_false in C7]);
  (destruct (Rltb tzmax _) eqn:C8; [apply Rltb_true in C8 | apply Rltb_false in C8]);
  cbv beta iota;
  (split; [intros t; rewrite <- Sx, <- Sy, <- Sz; lra | intros; lra]).
Qed.

Lemma intersect_cube_interval_diag :
  match intersect_cube diag_ray far_box with
  | Some (tnear, tfar, _) =>
      (forall t, tnear <= t <= tfar <-> in_box far_box (ray_at diag_ray t)) /\
      (0 <= vx (cube_size far_box) -> 0 <= vy (cube_size far_box) ->
       0 <= vz (cube_size far_box) -> tnear <= tfar)
  | None => forall t, ~ in_box far_box (ray_at diag_ray t)
  end.
Proof.
  apply (intersect_cube_interval diag_ray far_box); cbn; lra.
Defined.

Lemma slab_face (a b o d lo hi : R) :
  d <> 0 ->
  (if Rleb 0 d then ((a - o) / d, (b - o) / d) else ((b - o) / d, (a - o) / d)) = (lo, hi) ->
  o * 1 + d * lo = (if Rltb 0 d then a else b).
Proof.
  intros Hd H.
  destruct (Rleb 0 d) eqn:E; [apply Rleb_true in E | apply Rleb_false in E];
    inversion H; subst; clear H.
  - replace (Rltb 0 d) with true by (symmetry; apply Rltb_true; lra). field. exact Hd.
  - replace (Rltb 0 d) with false by (symmetry; apply Rltb_false; lra). field. exact Hd.
Qed.

(** X2: for a ray whose direction has no zero component, the normal of a
    box hit is one of the six axis unit vectors, it points against the
    direction on its axis, and the hit point at [tnear] lies on the plane
    of the face with that normal. *)
Theorem intersect_cube_hit_face (r : Ray) (c : Cube) (tnear tfar : R) (n : Vector3) :
  vx (direction r) <> 0 -> vy (direction r) <> 0 -> vz (direction r) <> 0 ->
  intersect_cube r c = Some (tnear, tfar, n) ->
  let p := ray_at r tnear in
  let a := cube_origin c in
  let s := cube_size c in
  (n = mkV (-1) 0 0 /\ 0 < vx (direction r) /\ vx p = vx a) \/
  (n = mkV 1 0 0 /\ vx (direction r) < 0 /\ vx p = vx a + vx s) \/
  (n = mkV 0 (-1) 0 /\ 0 < vy (direction r) /\ vy p = vy a) \/
  (n = mkV 0 1 0 /\ vy (direction r) < 0 /\ vy p = vy a + vy s) \/
  (n = mkV 0 0 (-1) /\ 0 < vz (direction r) /\ vz p = vz a) \/
  (n = mkV 0 0 1 /\ vz (direction r) < 0 /\ vz p = vz a + vz s).
Proof.
  intros Hx Hy Hz.
  unfold intersect_cube. cbv zeta.
  destruct (if Rleb 0 (vx (direction r)) then _ else _) as [txmin txmax] eqn:Ex.
  destruct (if Rleb 0 (vy (direction r)) then _ else _) as [tymin tymax] eqn:Ey.
  destruct (if Rleb 0 (vz (direction r)) then _ else _) as [tzmin tzmax] eqn:Ez.
  apply (slab_face _ _ _ _ _ _ Hx) in Ex.
  apply (slab_face _ _ _ _ _ _ Hy) in Ey.
  apply (slab_face _ _ _ _ _ _ Hz) in Ez.
  unfold ray_at, combine in *. cbn [vx vy vz] in *.
  destruct (Rltb tymax txmin || Rltb txmax tymin); [discriminate|].
  destruct (Rltb txmin tymin);
    (destruct (Rltb _ _ || Rltb _ _); [discriminate|]);
    destruct (Rltb _ tzmin);
    cbn beta iota zeta delta [Z.eqb Pos.eqb];
    intros H; inversion H; subst; clear H;
    repeat match goal with
      | H : context [Rltb 0 ?d] |- _ =>
          let E := fresh "E" in
          destruct (Rltb 0 d) eqn:E; [apply Rltb_true in E | apply Rltb_false in E]
      end;
    try (left; repeat split; [assumption | lra]);
    try (right; left; repeat split; lra);
    try (right; right; left; repeat split; [assumption | lra]);
    try (right; right; right; left; repeat split; lra);
    try (right; right; right; right; left; repeat split; [assumption | lra]);
    try (right; right; right; right; right; repeat split; lra).
Qed.

Lemma intersect_cube_diag :
  intersect_cube diag_ray far_box =
    Some ((3 - 0) / 1, (1 * 1 + 3 * 1 - 0) / 1, mkV 0 0 (-1)).
Proof.
  unfold intersect_cube, diag_ray, far_box, combine.
  cbn [origin direction cube_origin cube_size vx vy vz].
  rdecide. cbv beta iota zeta.
  rdecide. cbn [orb]. cbv beta iota zeta.
  rdecide. cbn [orb]. cbv beta iota zeta.
  rdecide. cbn [orb Z.eqb Pos.eqb]. cbv beta iota zeta.
  reflexivity.
Qed.

Lemma intersect_cube_hit_face_diag :
  let p := ray_at diag_ray ((3 - 0) / 1) in
  let a := cube_origin far_box in
  let s := cube_size far_box in
  (mkV 0 0 (-1) = mkV (-1) 0 0 /\ 0 < vx (direction diag_ray) /\ vx p = vx a) \/
  (mkV 0 0 (-1) = mkV 1 0 0 /\ vx (direction diag_ray) < 0 /\ vx p = vx a + vx s) \/
  (mkV 0 0 (-1) = mkV 0 (-1) 0 /\ 0 < vy (direction diag_ray) /\ vy p = vy a) \/
  (mkV 0 0 (-1) = mkV 0 1 0 /\ vy (direction diag_ray) < 0 /\ vy p = vy a + vy s) \/
  (mkV 0 0 (-1) = mkV 0 0 (-1) /\ 0 < vz (direction diag_ray) /\ vz p = vz a) \/
  (mkV 0 0 (-1) = mkV 0 0 1 /\ vz (direction diag_ray) < 0 /\ vz p = vz a + vz s).
Proof.
  apply (intersect_cube_hit_face diag_ray far_box ((3 - 0) / 1)
           ((1 * 1 + 3 * 1 - 0) / 1) (mkV 0 0 (-1)));
    [cbn; lra | cbn; lra | cbn; lra | exact intersect_cube_diag].
Defined.

(** *** Ray and sphere: soundness and completeness *)
(** X3: every hit that [intersect_sphere] reports is at a non-negative
    parameter, and the point of the ray there lies on the sphere: its
    squared distance to the centre is the squared radius. *)
Theorem intersect_sphere_hit_on_surface (r : Ray) (s : Sphere) (t : R) :
  intersect_sphere r s = Some t ->
  0 <= t /\
  let v := combine (ray_at r t) (center s) 1 (-1) in
  dotv v v = radius s * radius s.
Proof.
  intros Hhit.
  destruct (Rlt_dec 0 (sphere_discr r s)) as [Hd|Hd];
    [|rewrite intersect_sphere_nonpos in Hhit by lra; discriminate].
  rewrite intersect_sphere_pos in Hhit by assumption.
  revert Hhit. rcases; intros Hhit; try discriminate; inversion Hhit; subst; clear Hhit.
  - split; [lra|]. apply sphere_root_on_surface; auto.
  - split; [lra|]. apply sphere_root_on_surface; auto.
Qed.

Lemma intersect_sphere_z_ahead :
  intersect_sphere z_ray sphere_ahead = Some ((- -10 - 2) / (2 * 1)).
Proof.
  rewrite (intersect_sphere_eval _ _ 1 (-10) 2);
    try (unfold sphere_discr, sphere_b, sphere_c, sphere_a, dotv, combine; simpl; ring);
    try lra.
  replace (Rltb ((- -10 - 2) / (2 * 1)) 0) with false by (symmetry; apply Rltb_false; lra).
  reflexivity.
Qed.

Lemma intersect_sphere_hit_on_surface_ahead :
  0 <= (- -10 - 2) / (2 * 1) /\
  let v := combine (ray_at z_ray ((- -10 - 2) / (2 * 1))) (center sphere_ahead) 1 (-1) in
  dotv v v = radius sphere_ahead * radius sphere_ahead.
Proof.
  apply (intersect_sphere_hit_on_surface z_ray sphere_ahead). exact intersect_sphere_z_ahead.
Defined.

Lemma sphere_interior_between_roots (r : Ray) (s : Sphere) (t : R) :
  0 < sphere_a r ->
  sphere_a r * t * t + sphere_b r s * t + sphere_c r s < 0 ->
  0 < sphere_discr r s /\
  sphere_root_minus r s < t < sphere_root_plus r s.
Proof.
  intros Ha Hq.
  assert (Hd : 0 < sphere_discr r s).
  { unfold sphere_discr.
    pose proof (Rle_0_sqr (2 * sphere_a r * t + sphere_b r s)) as Hs. unfold Rsqr in Hs.
    nra. }
  split; [exact Hd|].
  pose proof (sqrt_lt_R0 _ Hd) as Hs.
  assert (Hq2 : sqrt (sphere_discr r s) * sqrt (sphere_discr r s) = sphere_discr r s)
    by (apply sqrt_sqrt; lra).
  unfold sphere_root_minus, sphere_root_plus.
  set (q := sqrt (sphere_discr r s)) in *.
  assert (Hlt : (2 * sphere_a r * t + sphere_b r s) * (2 * sphere_a r * t + sphere_b r s) < q * q).
  { rewrite Hq2. unfold sphere_discr. nra. }
  assert (Hb : - q < 2 * sphere_a r * t + sphere_b r s < q) by nra.
  split.
  - apply Rmult_lt_reg_r with (2 * sphere_a r); [lra|].
    replace ((- sphere_b r s - q) / (2 * sphere_a r) * (2 * sphere_a r))
      with (- sphere_b r s - q) by (field; lra). lra.
  - apply Rmult_lt_reg_r with (2 * sphere_a r); [lra|].
    replace ((- sphere_b r s + q) / (2 * sphere_a r) * (2 * sphere_a r))
      with (- sphere_b r s + q) by (field; lra). lra.
Qed.

(** X4: a ray with a non-zero direction that is strictly inside the sphere
    at some parameter [t >= 0] is reported as a hit; the hit is before [t]
    when the origin is outside or on the sphere and after [t] when the
    origin is inside. *)
Theorem intersect_sphere_through_interior (r : Ray) (s : Sphere) (t : R) :
  direction r <> zerov -> 0 <= t ->
  (let v := combine (ray_at r t) (center s) 1 (-1) in
   dotv v v < radius s * radius s) ->
  exists t', intersect_sphere r s = Some t' /\
    (0 <= sphere_c r s -> t' < t) /\
    (sphere_c r s < 0 -> t < t').
Proof.
  intros Hdir Ht Hin. cbv zeta in Hin. unfold ray_at in Hin.
  rewrite sphere_point_distance in Hin.
  assert (Ha : 0 < sphere_a r).
  { pose proof (sphere_a_nonneg r) as H.
    destruct (Req_dec (sphere_a r) 0) as [E|E]; [|lra].
    apply dotv_self_zero in E. contradiction. }
  destruct (sphere_interior_between_roots r s t Ha ltac:(lra)) as [Hd [Hm Hp]].
  pose proof (sphere_roots_product r s Hd) as Hv.
  rewrite intersect_sphere_pos by assumption.
  rcases.
  - lra.
  - exists (sphere_root_plus r s). split; [reflexivity|]. split; intros Hc; [|lra].
    exfalso.
    assert (sphere_root_minus r s * sphere_root_plus r s < 0) by nra.
    nra.
  - exists (sphere_root_minus r s). split; [reflexivity|]. split; intros Hc; [lra|].
    exfalso.
    assert (0 <= sphere_root_minus r s * sphere_root_plus r s) by nra.
    nra.
Qed.

Lemma intersect_sphere_through_centre :
  exists t', intersect_sphere z_ray sphere_ahead = Some t' /\
    (0 <= sphere_c z_ray sphere_ahead -> t' < 5) /\
    (sphere_c z_ray sphere_ahead < 0 -> 5 < t').
Proof.
  apply (intersect_sphere_through_interior z_ray sphere_ahead 5).
  - intros H. inversion H. lra.
  - lra.
  - cbv zeta. unfold ray_at, z_ray, sphere_ahead, combine, dotv; cbn. lra.
Defined.

(** X5: a ray with a non-zero direction that touches the sphere in one
    point (discriminant zero) is a miss, although the point at
    [-b / (2a)] lies on the sphere. *)
Theorem intersect_sphere_tangent_miss (r : Ray) (s : Sphere) :
  direction r <> zerov -> sphere_discr r s = 0 ->
  intersect_sphere r s = None /\
  let t0 := - sphere_b r s / (2 * sphere_a r) in
  let v := combine (ray_at r t0) (center s) 1 (-1) in
  dotv v v = radius s * radius s.
Proof.
  intros Hdir Hd.
  assert (Ha : 0 < sphere_a r).
  { pose proof (sphere_a_nonneg r) as H.
    destruct (Req_dec (sphere_a r) 0) as [E|E]; [|lra].
    apply dotv_self_zero in E. contradiction. }
  split; [apply intersect_sphere_nonpos; lra|].
  cbv zeta. unfold ray_at. rewrite sphere_point_distance.
  unfold sphere_discr in Hd.
  replace (sphere_a r * (- sphere_b r s / (2 * sphere_a r)) * (- sphere_b r s / (2 * sphere_a r))
           + sphere_b r s * (- sphere_b r s / (2 * sphere_a r)) + sphere_c r s)
    with (- (sphere_b r s * sphere_b r s - 4 * sphere_a r * sphere_c r s) / (4 * sphere_a r))
    by (field; lra).
  rewrite Hd. field. lra.
Qed.

Lemma intersect_sphere_grazing_miss :
  intersect_sphere grazing_ray sphere_ahead = None /\
  let t0 := - sphere_b grazing_ray sphere_ahead / (2 * sphere_a grazing_ray) in
  let v := combine (ray_at grazing_ray t0) (center sphere_ahead) 1 (-1) in
  dotv v v = radius sphere_ahead * radius sphere_ahead.
Proof.
  apply (intersect_sphere_tangent_miss grazing_ray sphere_ahead).
  - intros H. inversion H. lra.
  - unfold sphere_discr, sphere_b, sphere_c, sphere_a, grazing_ray, sphere_ahead,
      dotv, combine; cbn. lra.
Defined.

(** *** The nearest hit *)
Lemma trace_scan_nearest (ray : Ray) (objs : list Object) :
  forall (i0 : Z) (t0 : R) (idx0 : Z) (n0 : Vector3) (t : R) (idx : Z) (n : Vector3),
    trace_scan ray objs i0 (t0, idx0, n0) = (t, idx, n) ->
    ((t, idx, n) = (t0, idx0, n0) \/
     (i0 <= idx < i0 + Z.of_nat (List.length objs))%Z /\ t < t0) /\
    forall o t' n', In o objs -> intersect_object ray o = Some (t', n') ->
      0 <= t' -> t' < t0 -> t <= t' /\ (i0 <= idx)%Z.
Proof.
  induction objs as [|o rest IH]; intros i0 t0 idx0 n0 t idx n H.
  - simpl in H. inversion H; subst. split; [now left|]. intros o t' n' [].
  - cbn [trace_scan] in H.
    cbn [List.length]. rewrite Nat2Z.inj_succ.
    destruct (intersect_object ray o) as [[to no]|] eqn:Ho.
    + destruct (Rleb 0 to && Rltb to t0) eqn:Hc.
      * apply andb_prop in Hc as [Hc1 Hc2].
        apply Rleb_true in Hc1. apply Rltb_true in Hc2.
        apply IH in H as [Hres Hall].
        split.
        -- right. destruct Hres as [Hres | [Hi Hlt]].
           ++ inversion Hres; subst. split; [lia|lra].
           ++ split; [lia|lra].
        -- intros o' t' n' [<- | Hin] Hhit Ht0 Hlt.
           ++ rewrite Ho in Hhit. inversion Hhit; subst.
              destruct Hres as [Hres | [Hi Hlt']].
              ** inversion Hres; subst. split; [lra|lia].
              ** split; [lra|lia].
           ++ destruct (Rlt_dec t' to) as [Hlt'|Hge].
              ** destruct (Hall o' t' n' Hin Hhit Ht0 Hlt') as [A B]. split; [lra|lia].
              ** destruct Hres as [Hres | [Hi Hlt']].
                 --- inversion Hres; subst. split; [lra|lia].
                 --- split; [lra|lia].
      * apply IH in H as [Hres Hall].
        split.
        -- destruct Hres as [Hres | [Hi Hlt]]; [now left | right; split; [lia|lra]].
        -- intros o' t' n' [<- | Hin] Hhit Ht0 Hlt.
           ++ rewrite Ho in Hhit. inversion Hhit; subst.
              apply andb_false_iff in Hc as [Hc | Hc];
                [apply Rleb_false in Hc | apply Rltb_false in Hc]; lra.
           ++ destruct (Hall o' t' n' Hin Hhit Ht0 Hlt) as [A B]. split; [lra|lia].
    + apply IH in H as [Hres Hall].
      split.
      * destruct Hres as [Hres | [Hi Hlt]]; [now left | right; split; [lia|lra]].
      * intros o' t' n' [<- | Hin] Hhit Ht0 Hlt.
        -- rewrite Ho in Hhit. discriminate.
        -- destruct (Hall o' t' n' Hin Hhit Ht0 Hlt) as [A B]. split; [lra|lia].
Qed.

(** X6: a hit of [trace_ray] names an object of the scene, at a distance
    in [0, FLT_MAX); distance and normal are those [intersect_object]
    gives for that object on the normalized ray, the point is the point of
    that ray at the distance, and no object of the scene is hit at a
    smaller non-negative distance. *)
Theorem trace_ray_nearest_hit (objects : SceneStore) (ray : Ray) :
  let ray' := mkRay (origin ray) (normalize (direction ray)) in
  let hit := trace_ray objects ray in
  object hit <> (-1)%Z ->
  (0 <= object hit < num_objects objects)%Z /\
  0 <= distance hit < FLT_MAX /\
  intersect_object ray' (object_at objects (object hit)) = Some (distance hit, normal hit) /\
  point hit = ray_at ray' (distance hit) /\
  forall o t n, In o objects -> intersect_object ray' o = Some (t, n) ->
    0 <= t -> distance hit <= t.
Proof.
  cbv zeta. unfold trace_ray.
  set (ray' := mkRay (origin ray) (normalize (direction ray))).
  destruct (trace_scan ray' objects 0%Z (FLT_MAX, (-1)%Z, zerov)) as [[t idx] n] eqn:Hscan.
  pose proof (trace_scan_source _ _ _ _ _ _ _ _ _ Hscan) as Hsrc.
  pose proof (trace_scan_nearest _ _ _ _ _ _ _ _ _ Hscan) as [Hres Hall].
  destruct (idx =? -1)%Z eqn:Hidx; cbn [object normal distance point];
    [intros H; now contradiction H|].
  intros _.
  destruct Hres as [Hres | [Hi Hlt]]; [inversion Hres; subst; discriminate|].
  destruct Hsrc as [Hsrc | [o [_ [Hn [Hhit Ht]]]]]; [inversion Hsrc; subst; discriminate|].
  rewrite Z.sub_0_r in Hn.
  assert (Ho : object_at objects idx = o) by (unfold object_at; now apply nth_error_nth).
  unfold num_objects. repeat split; try lia; try lra.
  - now rewrite Ho.
  - intros o' t' n' Hin Hhit' Ht'.
    destruct (Rlt_dec t' FLT_MAX) as [Hlt'|Hge]; [|lra].
    now apply (Hall o' t' n').
Qed.

Lemma trace_ray_nearest_hit_ahead :
  let objects := [sphere (mkMaterial zerov 0 0 0 0 zerov) (mkV 0 0 5) 1] in
  let ray := mkRay (mkV 0 0 0) (mkV 0 0 1) in
  let ray' := mkRay (origin ray) (normalize (direction ray)) in
  let hit := trace_ray objects ray in
  (0 <= object hit < num_objects objects)%Z /\
  0 <= distance hit < FLT_MAX /\
  intersect_object ray' (object_at objects (object hit)) = Some (distance hit, normal hit) /\
  point hit = ray_at ray' (distance hit) /\
  forall o t n, In o objects -> intersect_object ray' o = Some (t, n) ->
    0 <= t -> distance hit <= t.
Proof.
  apply (trace_ray_nearest_hit [sphere (mkMaterial zerov 0 0 0 0 zerov) (mkV 0 0 5) 1]
           (mkRay (mkV 0 0 0) (mkV 0 0 1))).
  rewrite trace_ray_sphere_ahead. discriminate.
Defined.

(** X7: [trace_ray] reports a miss exactly when no object of the scene is
    hit by the normalized ray at a distance in [0, FLT_MAX); the miss has
    distance -1, object -1 and zero point and normal. *)
Theorem trace_ray_miss_iff (objects : SceneStore) (ray : Ray) :
  let ray' := mkRay (origin ray) (normalize (direction ray)) in
  (object (trace_ray objects ray) = (-1)%Z <->
   forall o t n, In o objects -> intersect_object ray' o = Some (t, n) ->
     t < 0 \/ FLT_MAX <= t) /\
  (object (trace_ray objects ray) = (-1)%Z ->
   trace_ray objects ray = mkHit (-1) zerov zerov (-1)%Z).
Proof.
  cbv zeta. unfold trace_ray.
  set (ray' := mkRay (origin ray) (normalize (direction ray))).
  destruct (trace_scan ray' objects 0%Z (FLT_MAX, (-1)%Z, zerov)) as [[t idx] n] eqn:Hscan.
  pose proof (trace_scan_source _ _ _ _ _ _ _ _ _ Hscan) as Hsrc.
  pose proof (trace_scan_nearest _ _ _ _ _ _ _ _ _ Hscan) as [Hres Hall].
  destruct (idx =? -1)%Z eqn:Hidx; cbn [object];
    [apply Z.eqb_eq in Hidx | apply Z.eqb_neq in Hidx].
  - split; [|reflexivity]. split; [|reflexivity]. intros _ o t' n' Hin Hhit.
    destruct Hres as [Hres | [Hi Hlt]]; [|lia]. inversion Hres; subst.
    destruct (Rlt_dec t' 0) as [Hneg|Hpos]; [now left|right].
    destruct (Rlt_dec t' FLT_MAX) as [Hfin|Hbig]; [|lra].
    destruct (Hall o t' n' Hin Hhit ltac:(lra) Hfin) as [A B]. lra.
  - split; [|intros H; contradiction]. split; [intros H; contradiction|].
    intros Hnone. exfalso.
    destruct Hsrc as [Hsrc | [o [_ [Hn [Hhit Ht]]]]]; [inversion Hsrc; subst; lia|].
    destruct Hres as [Hres | [Hi Hlt]]; [inversion Hres; subst; lia|].
    apply nth_error_In in Hn.
    destruct (Hnone o t n Hn Hhit); lra.
Qed.

(** *** Cubemap reads *)
Lemma sample_cubemap_texel (c : Cubemap) (dir : Vector3) :
  sample_cubemap c dir =
    let '(face, x, y) := cubemap_texel c dir in
    mkV (IZR (cubemap_byte c face x y 0) / 255)
        (IZR (cubemap_byte c face x y 1) / 255)
        (IZR (cubemap_byte c face x y 2) / 255).
Proof.
  unfold sample_cubemap, cubemap_texel, cubemap_byte.
  destruct (cubemap_face_uv dir) as [[face u] v]. reflexivity.
Qed.

Lemma truncR_range (r : R) (n : Z) :
  0 <= r <= IZR n -> (0 <= truncR r <= n)%Z.
Proof.
  intros [H0 H1]. unfold truncR.
  replace (Rleb 0 r) with true by (symmetry; now apply Rleb_true).
  destruct (base_Int_part r) as [Hl Hu].
  split.
  - assert (H : (-1 < Int_part r)%Z) by (apply lt_IZR; lra). lia.
  - apply le_IZR. lra.
Qed.

(** The pixel coordinates that [cubemap_texel] computes lie in the face
    image. *)
Lemma cubemap_texel_in_face (c : Cubemap) (dir : Vector3) :
  (1 <= cm_w c)%Z -> (1 <= cm_h c)%Z -> (3 <= chan c)%Z ->
  let '(_, x, y) := cubemap_texel c dir in
  (0 <= x < cm_w c)%Z /\ (0 <= y < cm_h c)%Z /\
  forall k, (0 <= k < 3)%Z ->
    (0 <= (y * cm_w c + x) * chan c + k < cm_w c * cm_h c * chan c)%Z.
Proof.
  intros Hw Hh Hc. unfold cubemap_texel.
  destruct (cubemap_face_uv dir) as [[face u] v].
  pose proof (clamp_range u (-1) 1 ltac:(lra)) as Hu.
  pose proof (clamp_range v (-1) 1 ltac:(lra)) as Hv.
  set (x := truncR _). set (y := truncR _).
  assert (Hx : (0 <= x <= cm_w c - 1)%Z).
  { apply truncR_range.
    assert (0 <= IZR (cm_w c - 1)) by (apply IZR_le; lia). nra. }
  assert (Hy : (0 <= y <= cm_h c - 1)%Z).
  { apply truncR_range.
    assert (0 <= IZR (cm_h c - 1)) by (apply IZR_le; lia). nra. }
  split; [lia|]. split; [lia|].
  intros k Hk.
  assert (H1 : (0 <= y * cm_w c + x <= cm_w c * cm_h c - 1)%Z) by nia.
  nia.
Qed.

(** The division of [sample_cubemap] is by a positive number unless the
    cascade falls through to the z faces with a zero z component. *)
Lemma cubemap_divisor_pos (dir : Vector3) :
  (Rabs (vy dir) < Rabs (vx dir) /\ Rabs (vz dir) < Rabs (vx dir)) \/
  (Rabs (vx dir) < Rabs (vy dir) /\ Rabs (vz dir) < Rabs (vy dir)) \/
  vz dir <> 0 ->
  0 < cubemap_divisor dir.
Proof.
  intros Hdir. unfold cubemap_divisor. cbv zeta. rewrite !absf_Rabs.
  pose proof (Rabs_pos (vx dir)) as Px.
  pose proof (Rabs_pos (vy dir)) as Py.
  destruct (Rltb (Rabs (vy dir)) (Rabs (vx dir)) && Rltb (Rabs (vz dir)) (Rabs (vx dir))) eqn:Ex.
  { apply andb_prop in Ex as [E1 E2]. apply Rltb_true in E1, E2. lra. }
  destruct (Rltb (Rabs (vx dir)) (Rabs (vy dir)) && Rltb (Rabs (vz dir)) (Rabs (vy dir))) eqn:Ey.
  { apply andb_prop in Ey as [E1 E2]. apply Rltb_true in E1, E2. lra. }
  destruct Hdir as [[H1 H2] | [[H1 H2] | Hz]].
  - exfalso. apply andb_false_iff in Ex as [E | E]; apply Rltb_false in E; lra.
  - exfalso. apply andb_false_iff in Ey as [E | E]; apply Rltb_false in E; lra.
  - apply Rabs_pos_lt in Hz. lra.
Qed.

(** X8: for a cubemap of at least one pixel each way and at least three
    channels, and a direction that is dominated by x or by y or has a
    non-zero z component, [sample_cubemap] divides by a positive number,
    the pixel it reads lies in the face image, and the three bytes it
    reads lie in the [w * h * chan] bytes of the face. *)
Theorem sample_cubemap_reads_in_face (c : Cubemap) (dir : Vector3) :
  (1 <= cm_w c)%Z -> (1 <= cm_h c)%Z -> (3 <= chan c)%Z ->
  (Rabs (vy dir) < Rabs (vx dir) /\ Rabs (vz dir) < Rabs (vx dir)) \/
  (Rabs (vx dir) < Rabs (vy dir) /\ Rabs (vz dir) < Rabs (vy dir)) \/
  vz dir <> 0 ->
  0 < cubemap_divisor dir /\
  let '(_, x, y) := cubemap_texel c dir in
  (0 <= x < cm_w c)%Z /\ (0 <= y < cm_h c)%Z /\
  forall k, (0 <= k < 3)%Z ->
    (0 <= (y * cm_w c + x) * chan c + k < cm_w c * cm_h c * chan c)%Z.
Proof.
  intros Hw Hh Hc Hdir. split.
  - now apply cubemap_divisor_pos.
  - now apply cubemap_texel_in_face.
Qed.

Lemma sample_cubemap_reads_in_checker :
  0 < cubemap_divisor (mkV 1 1 1) /\
  let '(_, x, y) := cubemap_texel checker_cubemap (mkV 1 1 1) in
  (0 <= x < cm_w checker_cubemap)%Z /\ (0 <= y < cm_h checker_cubemap)%Z /\
  forall k, (0 <= k < 3)%Z ->
    (0 <= (y * cm_w checker_cubemap + x) * chan checker_cubemap + k
       < cm_w checker_cubemap * cm_h checker_cubemap * chan checker_cubemap)%Z.
Proof.
  apply (sample_cubemap_reads_in_face checker_cubemap (mkV 1 1 1));
    cbn; first [lia | (right; right; lra)].
Defined.

Lemma sample_cubemap_in_unit_aux (c : Cubemap) (dir : Vector3) :
  (forall face, Forall (fun b => (0 <= b <= 255)%Z) (data c face)) ->
  in_unit (sample_cubemap c dir).
Proof.
  intros Hbytes. rewrite sample_cubemap_texel.
  destruct (cubemap_texel c dir) as [[face x] y].
  assert (Hb : forall k, 0 <= IZR (cubemap_byte c face x y k) / 255 <= 1).
  { intros k. unfold cubemap_byte.
    assert (H : (0 <= nth (Z.to_nat ((y * cm_w c + x) * chan c + k)) (data c face) 0 <= 255)%Z).
    { destruct (nth_in_or_default (Z.to_nat ((y * cm_w c + x) * chan c + k)) (data c face) 0%Z)
        as [Hin | ->]; [|lia].
      specialize (Hbytes face). rewrite Forall_forall in Hbytes. now apply Hbytes. }
    destruct H as [H0 H1]. apply IZR_le in H0, H1. lra. }
  unfold in_unit; cbn [vx vy vz]. repeat split; apply Hb.
Qed.

(** X9: for a cubemap whose six faces hold [w * h * chan] bytes each, of
    at least one pixel each way and three channels, and a direction that
    is dominated by x or by y or has a non-zero z component, the three
    reads of [sample_cubemap] are of bytes of the selected face, the colour
    is those bytes divided by 255, and its components are in [0,1]. *)
Theorem sample_cubemap_in_unit (c : Cubemap) (dir : Vector3) :
  (1 <= cm_w c)%Z -> (1 <= cm_h c)%Z -> (3 <= chan c)%Z ->
  (forall face, List.length (data c face) = Z.to_nat (cm_w c * cm_h c * chan c)) ->
  (forall face, Forall (fun b => (0 <= b <= 255)%Z) (data c face)) ->
  (Rabs (vy dir) < Rabs (vx dir) /\ Rabs (vz dir) < Rabs (vx dir)) \/
  (Rabs (vx dir) < Rabs (vy dir) /\ Rabs (vz dir) < Rabs (vy dir)) \/
  vz dir <> 0 ->
  let '(face, x, y) := cubemap_texel c dir in
  exists r g b : Z,
    nth_error (data c face) (Z.to_nat ((y * cm_w c + x) * chan c + 0)) = Some r /\
    nth_error (data c face) (Z.to_nat ((y * cm_w c + x) * chan c + 1)) = Some g /\
    nth_error (data c face) (Z.to_nat ((y * cm_w c + x) * chan c + 2)) = Some b /\
    sample_cubemap c dir = mkV (IZR r / 255) (IZR g / 255) (IZR b / 255) /\
    in_unit (sample_cubemap c dir).
Proof.
  intros Hw Hh Hc Hlen Hbytes Hdir.
  pose proof (cubemap_texel_in_face c dir Hw Hh Hc) as Hin.
  pose proof (sample_cubemap_in_unit_aux c dir Hbytes) as Hunit.
  rewrite sample_cubemap_texel in *.
  destruct (cubemap_texel c dir) as [[face x] y].
  destruct Hin as [Hx [Hy Hk]].
  assert (Hread : forall k, (0 <= k < 3)%Z ->
            nth_error (data c face) (Z.to_nat ((y * cm_w c + x) * chan c + k)) =
              Some (cubemap_byte c face x y k)).
  { intros k Hk3. unfold cubemap_byte. apply nth_error_nth'.
    rewrite Hlen. specialize (Hk k Hk3). lia. }
  exists (cubemap_byte c face x y 0), (cubemap_byte c face x y 1), (cubemap_byte c face x y 2).
  repeat split; try (apply Hread; lia); apply Hunit.
Qed.

Lemma sample_cubemap_in_unit_checker :
  let '(face, x, y) := cubemap_texel checker_cubemap (mkV 1 1 1) in
  exists r g b : Z,
    nth_error (data checker_cubemap face)
      (Z.to_nat ((y * cm_w checker_cubemap + x) * chan checker_cubemap + 0)) = Some r /\
    nth_error (data checker_cubemap face)
      (Z.to_nat ((y * cm_w checker_cubemap + x) * chan checker_cubemap + 1)) = Some g /\
    nth_error (data checker_cubemap face)
      (Z.to_nat ((y * cm_w checker_cubemap + x) * chan checker_cubemap + 2)) = Some b /\
    sample_cubemap checker_cubemap (mkV 1 1 1) = mkV (IZR r / 255) (IZR g / 255) (IZR b / 255) /\
    in_unit (sample_cubemap checker_cubemap (mkV 1 1 1)).
Proof.
  apply (sample_cubemap_in_unit checker_cubemap (mkV 1 1 1)).
  - cbn; lia.
  - cbn; lia.
  - cbn; lia.
  - intros face. reflexivity.
  - intros face. cbn. repeat constructor; lia.
  - right; right. cbn. lra.
Defined.

(** *** Reflection *)
(** X10: [reflect] gives the same vector for a normal and for its
    opposite (the sign flip [pixel] applies has no effect); about a unit
    normal it keeps the length of the vector and negates its component
    along the normal. *)
Theorem reflect_about_unit_normal (d n : Vector3) :
  reflect d (scale n (-1)) = reflect d n /\
  (dotv n n = 1 ->
   dotv (reflect d n) (reflect d n) = dotv d d /\
   dotv (reflect d n) n = - dotv d n).
Proof.
  destruct d as [dx dy dz], n as [nx ny nz].
  split.
  - unfold reflect, combine, dotv, scale; cbn [vx vy vz]. f_equal; ring.
  - unfold reflect, combine, dotv; cbn [vx vy vz]. intros H. split.
    + match goal with
      | |- ?L = ?R =>
          replace L with (R + 4 * (nx * dx + ny * dy + nz * dz) * (nx * dx + ny * dy + nz * dz)
                                * ((nx * nx + ny * ny + nz * nz) - 1)) by ring
      end.
      rewrite H. ring.
    + match goal with
      | |- ?L = ?R =>
          replace L with (R + 2 * (nx * dx + ny * dy + nz * dz)
                                * (1 - (nx * nx + ny * ny + nz * nz))) by ring
      end.
      rewrite H. ring.
Qed.

(** *** Fresnel terms *)
Lemma pow5_unit (x : R) : 0 <= x <= 1 -> 0 <= pow5 x <= 1.
Proof.
  intros [H0 H1]. unfold pow5. split.
  - now apply pow_le.
  - rewrite <- (pow1 5). apply pow_incr. lra.
Qed.

(** X11: [F_Schlick] and [fresnelSchlick] compute the same vector.  For
    [u] and [f0] in [0,1] the result is in [0,1] and at least [f0]; it is
    [f0] at [u = 1] and (1,1,1) at [u = 0]. *)
Theorem F_Schlick_is_fresnelSchlick (u : R) (f0 : Vector3) :
  F_Schlick u f0 = fresnelSchlick u f0 /\
  (0 <= u <= 1 -> in_unit f0 ->
   in_unit (fresnelSchlick u f0) /\ le3 f0 (fresnelSchlick u f0)) /\
  fresnelSchlick 1 f0 = f0 /\
  fresnelSchlick 0 f0 = mkV 1 1 1.
Proof.
  destruct f0 as [x y z].
  split; [|split; [|split]].
  - unfold F_Schlick, fresnelSchlick, combine, vec_from_scalar; cbn [vx vy vz].
    f_equal; ring.
  - intros Hu [Hx [Hy Hz]]. cbn [vx vy vz] in *.
    pose proof (pow5_unit (1 - u) ltac:(lra)) as Hp.
    unfold fresnelSchlick, combine, vec_from_scalar, in_unit, le3; cbn [vx vy vz].
    repeat split; nra.
  - unfold fresnelSchlick, combine, vec_from_scalar, pow5; cbn [vx vy vz].
    f_equal; ring.
  - unfold fresnelSchlick, combine, vec_from_scalar, pow5; cbn [vx vy vz].
    f_equal; ring.
Qed.

Lemma maxf_one (x : R) : x <= 1 -> maxf 1 x = 1.
Proof. intros H. unfold maxf. rcases; lra. Qed.

(** X12: at roughness 0, for a cosine and an [F0] in [0,1],
    [fresnelSchlickRoughness] is [fresnelSchlick]. *)
Theorem fresnelSchlickRoughness_smooth (cosTheta : R) (F0 : Vector3) :
  0 <= cosTheta <= 1 -> in_unit F0 ->
  fresnelSchlickRoughness cosTheta F0 0 = fresnelSchlick cosTheta F0.
Proof.
  intros Hc [Hx [Hy Hz]]. destruct F0 as [x y z]. cbn [vx vy vz] in *.
  unfold fresnelSchlickRoughness, fresnelSchlick, maxv, vec_from_scalar; cbn [vx vy vz].
  replace (1 - 0) with 1 by ring.
  rewrite !maxf_one by lra.
  replace (clamp (1 - cosTheta) 0 1) with (1 - cosTheta); [reflexivity|].
  unfold clamp. rcases; lra.
Qed.

Lemma fresnelSchlickRoughness_smooth_dielectric :
  fresnelSchlickRoughness (1 / 2) (mkV (4 / 100) (4 / 100) (4 / 100)) 0 =
    fresnelSchlick (1 / 2) (mkV (4 / 100) (4 / 100) (4 / 100)).
Proof.
  apply (fresnelSchlickRoughness_smooth (1 / 2) (mkV (4 / 100) (4 / 100) (4 / 100))).
  - lra.
  - unfold in_unit; cbn. lra.
Defined.

(** X13: [geometrySmith] is symmetric in its two cosines. *)
Theorem geometrySmith_symmetric (NoV NoL a : R) :
  geometrySmith NoV NoL a = geometrySmith NoL NoV a.
Proof.
  unfold geometrySmith. cbv zeta. f_equal. apply Rplus_comm.
Qed.

(** *** Filling the scene store *)
(** X14: a sequence of [add_object] calls on a store within capacity never
    aborts; it appends the objects in order until the store holds 1024
    and drops the rest.  From the empty store the result is the first
    1024 objects. *)
Theorem add_objects_keeps_first_1024 (os : list Object) :
  forall st : SceneStore,
    (num_objects st <= MAX_OBJECTS)%Z ->
    add_objects os st =
      Returns (tt, (st ++ firstn (Z.to_nat MAX_OBJECTS - List.length st) os)%list).
Proof.
  induction os as [|o rest IH]; intros st Hst.
  - cbn. rewrite firstn_nil, app_nil_r. reflexivity.
  - cbn [add_objects]. unfold add_object, num_objects, MAX_OBJECTS in *.
    destruct (Z.of_nat (List.length st) <? 1024)%Z eqn:E;
      [apply Z.ltb_lt in E | apply Z.ltb_ge in E].
    + rewrite IH by (rewrite length_app; cbn; lia).
      rewrite length_app. cbn [List.length].
      replace (Z.to_nat 1024 - List.length st)%nat
        with (S (Z.to_nat 1024 - (List.length st + 1)))%nat by lia.
      cbn [firstn]. rewrite <- app_assoc. reflexivity.
    + rewrite IH by lia.
      replace (Z.to_nat 1024 - List.length st)%nat with 0%nat by lia.
      reflexivity.
Qed.

Lemma add_objects_from_empty :
  add_objects [cube black zerov zerov; sphere black zerov 1] [] =
    Returns (tt, ([] ++ firstn (Z.to_nat MAX_OBJECTS - List.length (@nil Object))
                          [cube black zerov zerov; sphere black zerov 1])%list).
Proof.
  apply (add_objects_keeps_first_1024 [cube black zerov zerov; sphere black zerov 1] []).
  unfold num_objects, MAX_OBJECTS. cbn. lia.
Defined.

(** *** Loading the faces *)
(** X15: when a face cannot be loaded and all faces before it can, the
    loading loop aborts with the diagnostic that names that file. *)
Theorem load_faces_first_failure {Img : Type} (stbi_load : string -> option Img)
  (pre : list string) (f : string) (post : list string) :
  (forall g, In g pre -> stbi_load g <> None) ->
  stbi_load f = None ->
  load_faces stbi_load (pre ++ f :: post) =
    Aborts ("Couldn't load image '" ++ f ++ "'")%string.
Proof.
  induction pre as [|g pre IH]; intros Hpre Hf.
  - cbn. now rewrite Hf.
  - cbn. destruct (stbi_load g) eqn:Eg.
    + rewrite IH; [reflexivity | | exact Hf].
      intros h Hh. apply Hpre. now right.
    + exfalso. apply (Hpre g); [now left | exact Eg].
Qed.

Lemma load_faces_missing_second :
  load_faces (fun f : string => if String.eqb f "back.jpg" then None else Some tt)
    (["front.jpg"%string] ++ "back.jpg"%string :: ["left.jpg"%string])%list =
    Aborts ("Couldn't load image '" ++ "back.jpg" ++ "'")%string.
Proof.
  apply (load_faces_first_failure
           (fun f : string => if String.eqb f "back.jpg" then None else Some tt)
           ["front.jpg"%string] "back.jpg"%string ["left.jpg"%string]).
  - intros g [<- | []]. cbn. discriminate.
  - reflexivity.
Defined.

(** X16: when every file can be loaded the loop returns the images of
    the files, in order, and does not abort. *)
Theorem load_faces_all_loaded {Img : Type} (stbi_load : string -> option Img)
  (files : list string) :
  (forall f, In f files -> stbi_load f <> None) ->
  exists imgs, load_faces stbi_load files = Returns imgs /\
    map Some imgs = map stbi_load files.
Proof.
  induction files as [|f rest IH]; intros H.
  - exists []. split; reflexivity.
  - destruct IH as [imgs [Hl Hm]]; [intros g Hg; apply H; now right|].
    cbn. destruct (stbi_load f) as [img|] eqn:Ef.
    + rewrite Hl. exists (img :: imgs). split; [reflexivity|]. cbn. now rewrite Hm.
    + exfalso. apply (H f); [now left | exact Ef].
Qed.

Lemma load_faces_two_present :
  exists imgs, load_faces (fun _ : string => Some tt) ["front.jpg"; "back.jpg"]%string =
                 Returns imgs /\
    map Some imgs = map (fun _ : string => Some tt) ["front.jpg"; "back.jpg"]%string.
Proof.
  apply (load_faces_all_loaded (fun _ : string => Some tt) ["front.jpg"; "back.jpg"]%string).
  intros f _. discriminate.
Defined.

(** *** Escaping rays and random draws *)
(** X17: when the primary ray hits nothing (in particular in an empty
    scene) and the skybox holds bytes, [pixel] returns the skybox colour
    in the direction of the ray and draws no random number. *)
Theorem pixel_escaping_ray_is_sky
  (ray_through_screen_at : R -> R -> R -> Ray) (skybox : Cubemap)
  (objects : SceneStore) (rnd : nat -> R) (u v aspect_ratio : R) (k : nat) :
  (forall face, Forall (fun b => (0 <= b <= 255)%Z) (data skybox face)) ->
  object (trace_ray objects (ray_through_screen_at u v aspect_ratio)) = (-1)%Z ->
  pixel ray_through_screen_at skybox objects rnd u v aspect_ratio k =
    (sample_cubemap skybox (normalize (direction (ray_through_screen_at u v aspect_ratio))), k).
Proof.
  intros Hbytes Hmiss.
  pose proof (sample_cubemap_in_unit_aux skybox
                (normalize (direction (ray_through_screen_at u v aspect_ratio))) Hbytes)
    as [Hx [Hy Hz]].
  unfold pixel, bind, ret. cbv zeta. cbn [pixel_loop]. unfold bind. cbv zeta.
  unfold bounce. cbn [in_ray contrib result]. rewrite Hmiss. cbn [Z.eqb Pos.eqb].
  unfold ret. cbn [fst snd].
  destruct (sample_cubemap skybox _) as [sx sy sz]. cbn [vx vy vz] in *.
  unfold combine, mulv; cbn [vx vy vz].
  rewrite !clamp_id by lra. f_equal. f_equal; ring.
Qed.

Lemma pixel_empty_scene_is_sky :
  pixel (fun _ _ _ => z_ray) small_cubemap [] (fun _ => 1 / 2) (1 / 2) (1 / 2) 1 0%nat =
    (sample_cubemap small_cubemap (normalize (direction z_ray)), 0%nat).
Proof.
  apply (pixel_escaping_ray_is_sky (fun _ _ _ => z_ray) small_cubemap []
           (fun _ => 1 / 2) (1 / 2) (1 / 2) 1 0%nat).
  - intros face. cbn. repeat constructor; lia.
  - reflexivity.
Defined.

Lemma sampled_light_draws (objects : SceneStore) (rnd : nat -> R) (hit : HitInfo) (k : nat) :
  (k <= snd (sampled_light objects rnd hit k) <= k + 15)%nat.
Proof.
  unfold sampled_light. rewrite light_scan_first.
  destruct (first_light objects 0%Z hit); cbn [snd]; lia.
Qed.

Lemma bounce_draws (skybox : Cubemap) (objects : SceneStore) (rnd : nat -> R)
  (st : PathState) (k : nat) :
  (k <= snd (bounce skybox objects rnd st k) <= k + 19)%nat.
Proof.
  unfold bounce, bind, ret.
  destruct (object _ =? -1)%Z; [cbn [snd]; lia|]. cbv zeta.
  pose proof (sampled_light_draws objects rnd (trace_ray objects (in_ray st)) k) as Hl.
  unfold random_direction, random_vector, random_float, bind, ret. cbv zeta. cbn [fst snd].
  destruct (Rltb (1 / 1000) _); cbn [fst snd];
    [|destruct (Rleb _ _)];
    (destruct (negb (iszerov _)); cbn [snd]; lia).
Qed.

Lemma pixel_loop_draws (skybox : Cubemap) (objects : SceneStore) (rnd : nat -> R) (n : nat) :
  forall (st : PathState) (k : nat),
    (k <= snd (pixel_loop skybox objects rnd n st k) <= k + 19 * n)%nat.
Proof.
  induction n as [|n IH]; intros st k.
  - cbn. lia.
  - cbn [pixel_loop]. unfold bind. cbv zeta.
    pose proof (bounce_draws skybox objects rnd st k) as Hb.
    destruct (bounce skybox objects rnd st k) as [[r|st'] k1]; cbn [fst snd] in *.
    + unfold ret; cbn [snd]. lia.
    + specialize (IH st' k1). lia.
Qed.

(** X18: one call of [pixel] advances the random stream by at most 95
    numbers (19 for each of the five bounces) and never moves it back. *)
Theorem pixel_draws_at_most_95
  (ray_through_screen_at : R -> R -> R -> Ray) (skybox : Cubemap)
  (objects : SceneStore) (rnd : nat -> R) (u v aspect_ratio : R) (k : nat) :
  (k <= snd (pixel ray_through_screen_at skybox objects rnd u v aspect_ratio k) <= k + 95)%nat.
Proof.
  unfold pixel, bind, ret. cbv zeta. cbn [snd].
  pose proof (pixel_loop_draws skybox objects rnd 5
                (mkPath (ray_through_screen_at u v aspect_ratio) (mkV 1 1 1) (mkV 0 0 0)) k).
  lia.
Qed.

(** *** Stores to a buffer *)
Lemma update_at_spec (f : Vector3 -> Vector3) (buf : list Vector3) :
  forall n : nat,
    (n < List.length buf)%nat ->
    exists buf', update_at n f buf = Some buf' /\
      List.length buf' = List.length buf /\
      nth_error buf' n = option_map f (nth_error buf n) /\
      forall m, m <> n -> nth_error buf' m = nth_error buf m.
Proof.
  induction buf as [|x rest IH]; intros n Hn; [cbn in Hn; lia|].
  destruct n as [|n].
  - exists (f x :: rest). cbn. repeat split; auto.
    intros [|m] Hm; [contradiction|reflexivity].
  - destruct (IH n) as [b' [Hu [Hl [Hn' Ho]]]]; [cbn in Hn; lia|].
    exists (x :: b'). cbn. rewrite Hu. cbn. repeat split; auto.
    intros [|m] Hm; [reflexivity|]. cbn. apply Ho. lia.
Qed.

Lemma update_at_outside (f : Vector3 -> Vector3) (buf : list Vector3) :
  forall n : nat, (List.length buf <= n)%nat -> update_at n f buf = None.
Proof.
  induction buf as [|x rest IH]; intros n Hn; [destruct n; reflexivity|].
  destruct n as [|n]; [cbn in Hn; lia|].
  cbn. rewrite IH by (cbn in Hn; lia). reflexivity.
Qed.

Lemma store_all_inside (f : Vector3 -> Vector3) (idxs : list Z) :
  forall buf : list Vector3,
    (forall idx, In idx idxs -> (0 <= idx < Z.of_nat (List.length buf))%Z) ->
    exists buf', store_all idxs f (Some buf) = Some buf' /\
      List.length buf' = List.length buf /\
      forall m, ~ In (Z.of_nat m) idxs -> nth_error buf' m = nth_error buf m.
Proof.
  induction idxs as [|idx rest IH]; intros buf H.
  - exists buf. cbn. auto.
  - cbn [store_all]. unfold store_at.
    pose proof (H idx (or_introl eq_refl)) as Hi.
    replace (idx <? 0)%Z with false by (symmetry; apply Z.ltb_ge; lia).
    destruct (update_at_spec f buf (Z.to_nat idx)) as [b1 [Hu [Hl [_ Ho]]]]; [lia|].
    rewrite Hu.
    destruct (IH b1) as [b2 [Hs [Hl2 Ho2]]].
    { intros i Hin. rewrite Hl. apply H. now right. }
    exists b2. split; [exact Hs|]. split; [congruence|].
    intros m Hm. rewrite Ho2 by (intros C; apply Hm; now right).
    apply Ho. intros C. apply Hm. left. lia.
Qed.

Lemma store_all_none (f : Vector3 -> Vector3) (idxs : list Z) :
  store_all idxs f None = None.
Proof. destruct idxs; reflexivity. Qed.

Lemma store_all_outside (f : Vector3 -> Vector3) (idxs : list Z) :
  forall buf : list Vector3,
    (exists idx, In idx idxs /\ ~ (0 <= idx < Z.of_nat (List.length buf))%Z) ->
    store_all idxs f (Some buf) = None.
Proof.
  induction idxs as [|idx rest IH]; intros buf [bad [Hin Hbad]]; [contradiction|].
  cbn [store_all]. unfold store_at.
  destruct (idx <? 0)%Z eqn:E; [apply store_all_none|]. apply Z.ltb_ge in E.
  destruct (Z_lt_dec idx (Z.of_nat (List.length buf))) as [Hlt|Hge].
  - destruct (update_at_spec f buf (Z.to_nat idx)) as [b1 [Hu [Hl _]]]; [lia|].
    rewrite Hu. apply IH. exists bad. rewrite Hl.
    destruct Hin as [-> | Hin]; [lia|]. split; assumption.
  - rewrite update_at_outside by lia. apply store_all_none.
Qed.

(** *** The merge loop *)
Lemma merge_buffers_spec (n : nat) :
  forall acc loc : list Vector3,
    (n <= List.length acc)%nat -> (n <= List.length loc)%nat ->
    exists acc', merge_buffers n acc loc = Some acc' /\
      List.length acc' = List.length acc /\
      forall i, nth_error acc' i =
        if (i <? n)%nat
        then match nth_error acc i, nth_error loc i with
             | Some a, Some l => Some (combine a l 1 1)
             | _, _ => None
             end
        else nth_error acc i.
Proof.
  induction n as [|n IH]; intros acc loc Ha Hl.
  - exists acc. cbn. auto.
  - destruct acc as [|a acc]; [cbn in Ha; lia|].
    destruct loc as [|l loc]; [cbn in Hl; lia|].
    destruct (IH acc loc) as [acc' [Hm [Hlen Hn]]]; [cbn in Ha; lia | cbn in Hl; lia|].
    exists (combine a l 1 1 :: acc'). cbn [merge_buffers]. rewrite Hm.
    cbn. split; [reflexivity|]. split; [congruence|].
    intros [|i]; [reflexivity|]. cbn [nth_error]. rewrite Hn.
    reflexivity.
Qed.

Lemma merge_buffers_short (n : nat) :
  forall acc loc : list Vector3,
    (List.length acc < n \/ List.length loc < n)%nat ->
    merge_buffers n acc loc = None.
Proof.
  induction n as [|n IH]; intros acc loc H; [lia|].
  destruct acc as [|a acc]; [reflexivity|].
  destruct loc as [|l loc]; [reflexivity|].
  cbn [merge_buffers]. rewrite IH by (cbn in H; lia). reflexivity.
Qed.

(** X19: the merge loop over [n] pixels is defined exactly when both
    buffers hold at least [n] elements; it then adds the local buffer into
    the first [n] elements of the accumulator, element by element, and
    leaves the rest and the length as they were. *)
Theorem merge_buffers_pointwise (n : nat) (acc loc : list Vector3) :
  ((n <= List.length acc)%nat /\ (n <= List.length loc)%nat ->
   exists acc', merge_buffers n acc loc = Some acc' /\
     List.length acc' = List.length acc /\
     forall i, nth_error acc' i =
       if (i <? n)%nat
       then match nth_error acc i, nth_error loc i with
            | Some a, Some l => Some (combine a l 1 1)
            | _, _ => None
            end
       else nth_error acc i) /\
  ((List.length acc < n \/ List.length loc < n)%nat ->
   merge_buffers n acc loc = None).
Proof.
  split.
  - intros [Ha Hl]. now apply merge_buffers_spec.
  - apply merge_buffers_short.
Qed.

(** *** Coverage of a pass *)
Lemma pass_indices_region (scale lw lh fw idx : Z) :
  (1 <= scale)%Z -> (0 <= lw)%Z -> (0 <= lh)%Z ->
  In idx (pass_indices scale lw lh fw) <->
  exists real_i real_j,
    (0 <= real_i < Z.quot lw scale * scale)%Z /\
    (0 <= real_j < Z.quot lh scale * scale)%Z /\
    idx = (real_j * fw + real_i)%Z.
Proof.
  intros Hs Hw Hh.
  assert (Hqw : (0 <= Z.quot lw scale /\ scale * Z.quot lw scale <= lw)%Z).
  { rewrite Z.quot_div_nonneg by lia. split; [apply Z.div_pos; lia | apply Z.mul_div_le; lia]. }
  assert (Hqh : (0 <= Z.quot lh scale /\ scale * Z.quot lh scale <= lh)%Z).
  { rewrite Z.quot_div_nonneg by lia. split; [apply Z.div_pos; lia | apply Z.mul_div_le; lia]. }
  assert (Hclip : forall l q c, (scale * q <= l)%Z -> (0 <= c < q)%Z ->
            (if (l - c * scale <? scale)%Z then (l - c * scale)%Z else scale) = scale).
  { intros l q c Hl Hc.
    assert (((c + 1) * scale <= q * scale)%Z) by (apply Z.mul_le_mono_nonneg_r; lia).
    destruct (l - c * scale <? scale)%Z eqn:E; [apply Z.ltb_lt in E; lia | reflexivity]. }
  unfold pass_indices. rewrite in_flat_map. split.
  - intros [[i j] [Hc Hin]]. apply in_cells in Hc as [Hi Hj]. cbn [fst snd] in Hin.
    unfold tile_indices in Hin. cbv zeta in Hin.
    rewrite (Hclip lw (Z.quot lw scale) i), (Hclip lh (Z.quot lh scale) j) in Hin by lia.
    apply in_flat_map in Hin as [g [Hg Hin]].
    apply in_map_iff in Hin as [t [Heq Ht]].
    apply in_upto in Hg, Ht.
    assert (((i + 1) * scale <= Z.quot lw scale * scale)%Z)
      by (apply Z.mul_le_mono_nonneg_r; lia).
    assert (((j + 1) * scale <= Z.quot lh scale * scale)%Z)
      by (apply Z.mul_le_mono_nonneg_r; lia).
    exists (i * scale + t)%Z, (j * scale + g)%Z. repeat split; try lia; nia.
  - intros [ri [rj [Hi [Hj ->]]]].
    assert (Hdi : (ri = scale * (ri / scale) + ri mod scale)%Z) by (apply Z.div_mod; lia).
    assert (Hdj : (rj = scale * (rj / scale) + rj mod scale)%Z) by (apply Z.div_mod; lia).
    pose proof (Z.mod_pos_bound ri scale ltac:(lia)) as Hmi.
    pose proof (Z.mod_pos_bound rj scale ltac:(lia)) as Hmj.
    assert (Hci : (0 <= ri / scale < Z.quot lw scale)%Z).
    { split; [apply Z.div_pos; lia | apply Z.div_lt_upper_bound; lia]. }
    assert (Hcj : (0 <= rj / scale < Z.quot lh scale)%Z).
    { split; [apply Z.div_pos; lia | apply Z.div_lt_upper_bound; lia]. }
    exists (ri / scale, rj / scale)%Z. split; [apply in_cells; lia|].
    cbn [fst snd]. unfold tile_indices. cbv zeta.
    rewrite (Hclip lw (Z.quot lw scale)), (Hclip lh (Z.quot lh scale)) by lia.
    apply in_flat_map. exists (rj mod scale)%Z. split; [apply in_upto; lia|].
    apply in_map_iff. exists (ri mod scale)%Z. split; [|apply in_upto; lia].
    f_equal; lia.
Qed.

(** X20: with the local width as stride, a pass at [scale] stores to pixel
    [(real_i, real_j)] of the frame exactly when both coordinates lie below
    the largest multiple of [scale] that fits: the strip of
    [local_frame_w mod scale] columns and [local_frame_h mod scale] rows at
    the far edges is never written. *)
Theorem pass_writes_aligned_pixels (scale lw lh real_i real_j : Z) :
  (1 <= scale)%Z -> (0 <= real_i < lw)%Z -> (0 <= real_j < lh)%Z ->
  In (real_j * lw + real_i)%Z (pass_indices scale lw lh lw) <->
  (real_i < Z.quot lw scale * scale)%Z /\ (real_j < Z.quot lh scale * scale)%Z.
Proof.
  intros Hs Hi Hj.
  rewrite pass_indices_region by lia.
  assert (Hqw : (scale * Z.quot lw scale <= lw)%Z).
  { rewrite Z.quot_div_nonneg by lia. apply Z.mul_div_le. lia. }
  split.
  - intros [ri [rj [Hri [Hrj Heq]]]].
    assert (rj = real_j) by nia. subst rj.
    assert (ri = real_i) by lia. subst ri. lia.
  - intros [Hri Hrj]. exists real_i, real_j. lia.
Qed.

Lemma pass_skips_last_columns :
  In (0 * 20 + 17)%Z (pass_indices 16 20 16 20) <->
  (17 < Z.quot 20 16 * 16)%Z /\ (0 < Z.quot 16 16 * 16)%Z.
Proof.
  apply (pass_writes_aligned_pixels 16 20 16 17 0); lia.
Defined.

Lemma NoDup_flat_map_disjoint {A B : Type} (f : A -> list B) (l : list A) :
  NoDup l ->
  (forall a, In a l -> NoDup (f a)) ->
  (forall a b x, In a l -> In b l -> In x (f a) -> In x (f b) -> a = b) ->
  NoDup (flat_map f l).
Proof.
  induction 1 as [|a l Hnotin Hnd IH]; intros Hf Hdisj; [constructor|].
  cbn [flat_map]. apply NoDup_app.
  - apply Hf. now left.
  - apply IH.
    + intros b Hb. apply Hf. now right.
    + intros b c x Hb Hc. apply Hdisj; now right.
  - intros x Hx Hx'. apply in_flat_map in Hx' as [b [Hb Hxb]].
    assert (a = b) by (apply (Hdisj a b x); auto; [now left | now right]).
    subst b. contradiction.
Qed.

Lemma NoDup_upto (n : Z) : NoDup (upto n).
Proof.
  unfold upto. apply NoDup_map_NoDup_ForallPairs; [|apply seq_NoDup].
  intros x y _ _ H. lia.
Qed.

Lemma NoDup_cells (w h : Z) : NoDup (cells w h).
Proof.
  unfold cells. apply NoDup_flat_map_disjoint.
  - apply NoDup_upto.
  - intros j _. apply NoDup_map_NoDup_ForallPairs; [|apply NoDup_upto].
    intros x y _ _ H. now inversion H.
  - intros j j' [i k] _ _ H1 H2.
    apply in_map_iff in H1 as [x [E1 _]]. apply in_map_iff in H2 as [y [E2 _]].
    inversion E1; inversion E2; subst. congruence.
Qed.

Lemma split_unique (s a b a' b' : Z) :
  (0 <= b < s)%Z -> (0 <= b' < s)%Z -> (a * s + b = a' * s + b')%Z ->
  a = a' /\ b = b'.
Proof. intros Hb Hb' H. assert (a = a') by nia. subst. lia. Qed.

(** X21: with the local width as stride, the stores of one pass are to
    distinct pixels: no pixel receives two splats in a pass. *)
Theorem pass_writes_each_pixel_once (scale lw lh : Z) :
  (1 <= scale)%Z -> (0 <= lw)%Z -> (0 <= lh)%Z ->
  NoDup (pass_indices scale lw lh lw).
Proof.
  intros Hs Hw Hh.
  assert (Hqw : (0 <= Z.quot lw scale /\ scale * Z.quot lw scale <= lw)%Z).
  { rewrite Z.quot_div_nonneg by lia. split; [apply Z.div_pos; lia | apply Z.mul_div_le; lia]. }
  assert (Hqh : (0 <= Z.quot lh scale /\ scale * Z.quot lh scale <= lh)%Z).
  { rewrite Z.quot_div_nonneg by lia. split; [apply Z.div_pos; lia | apply Z.mul_div_le; lia]. }
  assert (Hclip : forall l q c, (scale * q <= l)%Z -> (0 <= c < q)%Z ->
            (if (l - c * scale <? scale)%Z then (l - c * scale)%Z else scale) = scale).
  { intros l q c Hl Hc.
    assert (((c + 1) * scale <= q * scale)%Z) by (apply Z.mul_le_mono_nonneg_r; lia).
    destruct (l - c * scale <? scale)%Z eqn:E; [apply Z.ltb_lt in E; lia | reflexivity]. }
  assert (Htile : forall i j idx,
            (0 <= i < Z.quot lw scale)%Z -> (0 <= j < Z.quot lh scale)%Z ->
            In idx (tile_indices scale lw lh lw i j) ->
            exists g t, (0 <= g < scale)%Z /\ (0 <= t < scale)%Z /\
              (0 <= i * scale + t < lw)%Z /\
              idx = ((j * scale + g) * lw + (i * scale + t))%Z).
  { intros i j idx Hi Hj Hin. unfold tile_indices in Hin. cbv zeta in Hin.
    rewrite (Hclip lw (Z.quot lw scale) i), (Hclip lh (Z.quot lh scale) j) in Hin by lia.
    apply in_flat_map in Hin as [g [Hg Hin]].
    apply in_map_iff in Hin as [t [Heq Ht]].
    apply in_upto in Hg, Ht.
    assert (((i + 1) * scale <= Z.quot lw scale * scale)%Z)
      by (apply Z.mul_le_mono_nonneg_r; lia).
    exists g, t. repeat split; try lia. }
  unfold pass_indices. apply NoDup_flat_map_disjoint.
  - apply NoDup_cells.
  - intros [i j] Hc. apply in_cells in Hc as [Hi Hj]. cbn [fst snd].
    unfold tile_indices. cbv zeta.
    rewrite (Hclip lw (Z.quot lw scale) i), (Hclip lh (Z.quot lh scale) j) by lia.
    assert (((i + 1) * scale <= Z.quot lw scale * scale)%Z)
      by (apply Z.mul_le_mono_nonneg_r; lia).
    apply NoDup_flat_map_disjoint.
    + apply NoDup_upto.
    + intros g _. apply NoDup_map_NoDup_ForallPairs; [|apply NoDup_upto].
      intros x y _ _ H'. lia.
    + intros g g' x Hg Hg' H1 H2.
      apply in_map_iff in H1 as [t [E1 Ht]]. apply in_map_iff in H2 as [t' [E2 Ht']].
      apply in_upto in Ht, Ht', Hg, Hg'.
      assert (Hu : (j * scale + g = j * scale + g' /\ i * scale + t = i * scale + t')%Z).
      { apply (split_unique lw); lia. }
      lia.
  - intros [i j] [i' j'] idx Hc Hc' H1 H2. cbn [fst snd] in *.
    apply in_cells in Hc as [Hi Hj]. apply in_cells in Hc' as [Hi' Hj'].
    destruct (Htile i j idx Hi Hj H1) as [g [t [Hg [Ht [Hr E1]]]]].
    destruct (Htile i' j' idx Hi' Hj' H2) as [g' [t' [Hg' [Ht' [Hr' E2]]]]].
    assert (Hu : (j * scale + g = j' * scale + g' /\ i * scale + t = i' * scale + t')%Z).
    { apply (split_unique lw); lia. }
    destruct Hu as [Hu1 Hu2].
    apply (split_unique scale) in Hu1 as [-> _]; [|lia|lia].
    apply (split_unique scale) in Hu2 as [-> _]; [|lia|lia].
    reflexivity.
Qed.

Lemma pass_writes_once_4x4 : NoDup (pass_indices 2 4 4 4).
Proof.
  apply (pass_writes_each_pixel_once 2 4 4); lia.
Defined.

Lemma pass_cells_inside (render : R -> R -> R -> Rand Vector3)
  (scale lw lh fw lowres_w lowres_h : Z) (cs : list (Z * Z)) :
  forall (buf : list Vector3) (k : nat),
    (forall c idx, In c cs ->
       In idx (tile_indices scale lw lh fw (fst c) (snd c)) ->
       (0 <= idx < Z.of_nat (List.length buf))%Z) ->
    exists buf',
      fst (pass_cells render scale lw lh fw lowres_w lowres_h cs (Some buf) k) = Some buf' /\
      List.length buf' = List.length buf /\
      forall m, (forall c, In c cs ->
                   ~ In (Z.of_nat m) (tile_indices scale lw lh fw (fst c) (snd c))) ->
        nth_error buf' m = nth_error buf m.
Proof.
  induction cs as [|[i j] rest IH]; intros buf k H.
  - exists buf. cbn. auto.
  - cbn [pass_cells]. unfold bind. cbv zeta.
    match goal with
    | |- context [store_all ?idxs ?f (Some buf)] =>
        destruct (store_all_inside f idxs buf) as [b1 [Hs [Hl Ho]]]
    end.
    { intros idx Hin. apply (H (i, j)); [now left | exact Hin]. }
    rewrite Hs.
    match goal with
    | |- context [pass_cells _ _ _ _ _ _ _ rest (Some b1) ?k1] =>
        destruct (IH b1 k1) as [b2 [Hp [Hl2 Ho2]]]
    end.
    { intros c idx Hc Hin. rewrite Hl. apply (H c); [now right | exact Hin]. }
    exists b2. split; [exact Hp|]. split; [congruence|].
    intros m Hm. rewrite Ho2 by (intros c Hc; apply Hm; now right).
    apply Ho. apply (Hm (i, j)). now left.
Qed.

Lemma seed_cells_inside (render : R -> R -> R -> Rand Vector3)
  (fw fake_w fake_h : Z) (cs : list (Z * Z)) :
  forall (buf : list Vector3) (k : nat),
    (forall c idx, In c cs -> In idx (seed_indices fw (fst c) (snd c)) ->
       (0 <= idx < Z.of_nat (List.length buf))%Z) ->
    exists buf',
      fst (seed_cells render fw fake_w fake_h cs (Some buf) k) = Some buf' /\
      List.length buf' = List.length buf /\
      forall m, (forall c, In c cs -> ~ In (Z.of_nat m) (seed_indices fw (fst c) (snd c))) ->
        nth_error buf' m = nth_error buf m.
Proof.
  induction cs as [|[i j] rest IH]; intros buf k H.
  - exists buf. cbn. auto.
  - cbn [seed_cells]. unfold bind. cbv zeta.
    match goal with
    | |- context [store_all ?idxs ?f (Some buf)] =>
        destruct (store_all_inside f idxs buf) as [b1 [Hs [Hl Ho]]]
    end.
    { intros idx Hin. apply (H (i, j)); [now left | exact Hin]. }
    rewrite Hs.
    match goal with
    | |- context [seed_cells _ _ _ _ rest (Some b1) ?k1] =>
        destruct (IH b1 k1) as [b2 [Hp [Hl2 Ho2]]]
    end.
    { intros c idx Hc Hin. rewrite Hl. apply (H c); [now right | exact Hin]. }
    exists b2. split; [exact Hp|]. split; [congruence|].
    intros m Hm. rewrite Ho2 by (intros c Hc; apply Hm; now right).
    apply Ho. apply (Hm (i, j)). now left.
Qed.

Lemma memset_zero_length (n : nat) (buf : list Vector3) :
  List.length (memset_zero n buf) = List.length buf.
Proof.
  unfold memset_zero. rewrite length_app, repeat_length, length_skipn. lia.
Qed.

Lemma tile_in_pass (scale lw lh fw i j idx : Z) :
  In (i, j) (cells (Z.quot lw scale) (Z.quot lh scale)) ->
  In idx (tile_indices scale lw lh fw i j) ->
  In idx (pass_indices scale lw lh fw).
Proof.
  intros Hc Hin. unfold pass_indices. apply in_flat_map. now exists (i, j).
Qed.

Lemma worker_sync_safe (sh : Shared) (w : Local) :
  (0 <= frame_w sh)%Z -> (0 <= frame_h sh)%Z ->
  buffer_fits (accum sh) (frame_w sh) (frame_h sh) ->
  buffer_fits (local_accum w) (local_frame_w w) (local_frame_h w) ->
  (merge_enabled sh w = true ->
   local_frame_w w = frame_w sh /\ local_frame_h w = frame_h sh) ->
  exists (sh1 : Shared) (w1 : Local) (resize : bool),
    worker_sync sh w = Some (sh1, w1, resize) /\
    buffer_fits (accum sh1) (frame_w sh1) (frame_h sh1) /\
    (frame_w sh1, frame_h sh1, accum_generation sh1) =
      (frame_w sh, frame_h sh, accum_generation sh) /\
    accum_count sh1 =
      (if merge_enabled sh w then accum_count sh + local_accum_count w else accum_count sh) /\
    (local_frame_w (worker_realloc resize w1), local_frame_h (worker_realloc resize w1),
     local_accum_generation (worker_realloc resize w1)) =
      (frame_w sh, frame_h sh, accum_generation sh) /\
    buffer_fits (local_accum (worker_realloc resize w1)) (frame_w sh) (frame_h sh).
Proof.
  intros Hfw Hfh Hacc Hloc Hdims.
  unfold worker_sync.
  assert (Hmerged : exists sh1,
            match accum sh, local_accum w with
            | Some acc, Some loc =>
                if (local_accum_generation w =? accum_generation sh)%Z then
                  match merge_buffers (Z.to_nat (frame_w sh * frame_h sh)) acc loc with
                  | Some acc' =>
                      Some (mkShared (accum_generation sh) (Some acc') (frame sh)
                              (frame_w sh) (frame_h sh)
                              (accum_count sh + local_accum_count w))
                  | None => None
                  end
                else Some sh
            | _, _ => Some sh
            end = Some sh1 /\
            buffer_fits (accum sh1) (frame_w sh1) (frame_h sh1) /\
            (frame_w sh1, frame_h sh1, accum_generation sh1) =
              (frame_w sh, frame_h sh, accum_generation sh) /\
            accum_count sh1 =
              (if merge_enabled sh w then accum_count sh + local_accum_count w
               else accum_count sh)).
  { unfold merge_enabled in *.
    destruct (accum sh) as [acc|] eqn:Ea; [|exists sh; rewrite Ea; auto].
    destruct (local_accum w) as [loc|] eqn:El; [|exists sh; rewrite Ea; auto].
    destruct (local_accum_generation w =? accum_generation sh)%Z eqn:Eg;
      [|exists sh; rewrite Ea; auto].
    destruct (Hdims eq_refl) as [Hw Hh]. cbn in Hacc, Hloc. rewrite Hw, Hh in Hloc.
    destruct (merge_buffers_spec (Z.to_nat (frame_w sh * frame_h sh)) acc loc)
      as [acc' [Hm [Hl _]]]; [lia | lia |].
    rewrite Hm. eexists. split; [reflexivity|]. cbn. repeat split; congruence. }
  destruct Hmerged as [sh1 [-> [Hfit1 [Hsame1 Hcount1]]]].
  do 3 eexists. split; [reflexivity|].
  split; [exact Hfit1|]. split; [exact Hsame1|]. split; [exact Hcount1|].
  unfold worker_realloc.
  destruct (negb (local_frame_w w =? frame_w sh)%Z || negb (local_frame_h w =? frame_h sh)%Z)
    eqn:Er; cbn [local_accum local_accum_generation local_frame_w local_frame_h].
  - split; [reflexivity|]. cbn. apply repeat_length.
  - split; [reflexivity|].
    apply orb_false_elim in Er as [E1 E2].
    apply negb_false_iff in E1, E2. apply Z.eqb_eq in E1, E2.
    destruct (local_accum w); cbn in *; [|exact I].
    rewrite memset_zero_length. congruence.
Qed.

Lemma worker_pass_safe (render : R -> R -> R -> Rand Vector3)
  (scale : Z) (w : Local) (k : nat) :
  (1 <= scale)%Z -> (0 <= local_frame_w w)%Z -> (0 <= local_frame_h w)%Z ->
  buffer_fits (local_accum w) (local_frame_w w) (local_frame_h w) ->
  exists w' : Local,
    fst (worker_pass render scale (local_frame_w w) w k) = Some w' /\
    buffer_fits (local_accum w') (local_frame_w w') (local_frame_h w') /\
    (local_frame_w w', local_frame_h w', local_accum_generation w') =
      (local_frame_w w, local_frame_h w, local_accum_generation w).
Proof.
  intros Hs Hw Hh Hfit. unfold worker_pass.
  destruct (local_accum w) as [buf|] eqn:El.
  - cbn in Hfit. unfold bind, ret. cbv zeta. cbn [fst snd].
    match goal with
    | |- context [pass_cells render scale ?lw ?lh ?fw ?a ?b ?cs (Some buf) k] =>
        destruct (pass_cells_inside render scale lw lh fw a b cs buf k)
          as [b' [Hp [Hl _]]]
    end.
    { intros [i j] idx Hc Hin. cbn [fst snd] in Hin.
      destruct (pass_indices_local_stride scale (local_frame_w w) (local_frame_h w) idx
                  Hs Hw Hh (tile_in_pass _ _ _ _ _ _ _ Hc Hin)) as [ri [rj [_ [_ [_ Hr]]]]].
      rewrite Hfit. lia. }
    rewrite Hp. cbn [option_map]. eexists. split; [reflexivity|].
    cbn. split; [congruence | reflexivity].
  - exists w. unfold ret. cbn [fst]. rewrite El. cbn. auto.
Qed.

(** X22: when the shared and the local buffer have the sizes of their
    frames, a worker whose merge is enabled holds a buffer of the shared
    size, and the coarse grid of the pass is not exactly one cell wide or
    one cell high (there the source divides 0 by 0 for the screen
    coordinate), one turn of the worker (with no resize during its pass)
    stays inside both buffers.  It keeps the sizes, leaves the shared
    frame size and generation alone, ends with the local size and cached
    generation equal to the shared ones, and adds the local weight to
    [accum_count] exactly when the merge was enabled. *)
Theorem worker_iteration_safe (render : R -> R -> R -> Rand Vector3)
  (scale : Z) (sh : Shared) (w : Local) (k : nat) :
  (1 <= scale)%Z ->
  (0 <= frame_w sh)%Z -> (0 <= frame_h sh)%Z ->
  Z.quot (frame_w sh) scale <> 1%Z -> Z.quot (frame_h sh) scale <> 1%Z ->
  buffer_fits (accum sh) (frame_w sh) (frame_h sh) ->
  buffer_fits (local_accum w) (local_frame_w w) (local_frame_h w) ->
  (merge_enabled sh w = true ->
   local_frame_w w = frame_w sh /\ local_frame_h w = frame_h sh) ->
  exists (sh' : Shared) (w' : Local),
    fst (worker_iteration render scale sh w k) = Some (sh', w') /\
    buffer_fits (accum sh') (frame_w sh') (frame_h sh') /\
    buffer_fits (local_accum w') (local_frame_w w') (local_frame_h w') /\
    (frame_w sh', frame_h sh', accum_generation sh') =
      (frame_w sh, frame_h sh, accum_generation sh) /\
    (local_frame_w w', local_frame_h w', local_accum_generation w') =
      (frame_w sh, frame_h sh, accum_generation sh) /\
    accum_count sh' =
      (if merge_enabled sh w then accum_count sh + local_accum_count w else accum_count sh).
Proof.
  intros Hs Hfw Hfh _ _ Hacc Hloc Hdims.
  destruct (worker_sync_safe sh w Hfw Hfh Hacc Hloc Hdims)
    as [sh1 [w1 [resize [Hsync [Hfit1 [Hsame1 [Hcount1 [Hdims1 Hfitw]]]]]]]].
  inversion Hsame1 as [[Hw1 Hh1 Hg1]]. inversion Hdims1 as [[Hlw Hlh Hlg]].
  unfold worker_iteration. rewrite Hsync. unfold bind, ret. cbv zeta. cbn [fst snd].
  rewrite Hw1, <- Hlw.
  destruct (worker_pass_safe render scale (worker_realloc resize w1) k)
    as [w' [Hp [Hfit' Hsame']]]; try lia.
  { rewrite Hlw, Hlh. exact Hfitw. }
  rewrite Hp. cbn [option_map]. exists sh1, w'. split; [reflexivity|].
  repeat split; auto; congruence.
Qed.

Lemma worker_turn_safe_2x2 :
  merge_enabled shared_2x2 local_2x2 = true /\
  exists (sh' : Shared) (w' : Local),
    fst (worker_iteration (fun u v _ => ret (mkV u v 0)) 1 shared_2x2 local_2x2 0%nat) =
      Some (sh', w') /\
    buffer_fits (accum sh') (frame_w sh') (frame_h sh') /\
    buffer_fits (local_accum w') (local_frame_w w') (local_frame_h w') /\
    (frame_w sh', frame_h sh', accum_generation sh') =
      (frame_w shared_2x2, frame_h shared_2x2, accum_generation shared_2x2) /\
    (local_frame_w w', local_frame_h w', local_accum_generation w') =
      (frame_w shared_2x2, frame_h shared_2x2, accum_generation shared_2x2) /\
    accum_count sh' =
      (if merge_enabled shared_2x2 local_2x2
       then accum_count shared_2x2 + local_accum_count local_2x2
       else accum_count shared_2x2).
Proof.
  split; [reflexivity|].
  apply (worker_iteration_safe (fun u v _ => ret (mkV u v 0)) 1 shared_2x2 local_2x2 0%nat);
    cbn; first [lia | reflexivity | (intros _; split; reflexivity)].
Defined.

(** *** Invalidation *)
Lemma generation_step_differs (g : Z) :
  (0 <= g < 2 ^ 32)%Z -> ((g + 1) mod 2 ^ 32 <> g)%Z.
Proof.
  intros Hg.
  destruct (Z.eq_dec (g + 1) (2 ^ 32)) as [E|E].
  - rewrite E, Z.mod_same by lia. lia.
  - rewrite Z.mod_small by lia. lia.
Qed.

(** X23: after [invalidate_accumulation], the critical section of a worker
    that cached the previous generation changes nothing in the shared
    state: nothing is merged and [accum_count] stays 0; the worker drops
    its weight and adopts the new generation. *)
Theorem invalidate_discards_stale_pass (sh : Shared) (w : Local) :
  (0 <= accum_generation sh < 2 ^ 32)%Z ->
  local_accum_generation w = accum_generation sh ->
  exists (w' : Local) (resize : bool),
    worker_sync (invalidate_accumulation sh) w =
      Some (invalidate_accumulation sh, w', resize) /\
    accum_count (invalidate_accumulation sh) = 0 /\
    local_accum_count w' = 0 /\
    local_accum_generation w' = accum_generation (invalidate_accumulation sh).
Proof.
  intros Hg Hw. pose proof (generation_step_differs _ Hg) as Hne.
  unfold worker_sync, invalidate_accumulation.
  cbn [accum accum_generation frame frame_w frame_h accum_count].
  rewrite Hw.
  replace (accum_generation sh =? (accum_generation sh + 1) mod 2 ^ 32)%Z with false
    by (symmetry; apply Z.eqb_neq; congruence).
  destruct (accum sh), (local_accum w); do 2 eexists; repeat split.
Qed.

Lemma invalidate_discards_pass_2x2 :
  merge_enabled shared_2x2 local_2x2 = true /\
  exists (w' : Local) (resize : bool),
    worker_sync (invalidate_accumulation shared_2x2) local_2x2 =
      Some (invalidate_accumulation shared_2x2, w', resize) /\
    accum_count (invalidate_accumulation shared_2x2) = 0 /\
    local_accum_count w' = 0 /\
    local_accum_generation w' = accum_generation (invalidate_accumulation shared_2x2).
Proof.
  split; [reflexivity|].
  apply (invalidate_discards_stale_pass shared_2x2 local_2x2).
  - cbn. lia.
  - reflexivity.
Defined.

Lemma invalidations_generation (n : nat) (sh : Shared) :
  (0 <= accum_generation sh < 2 ^ 32)%Z ->
  accum_generation (Nat.iter n invalidate_accumulation sh) =
    ((accum_generation sh + Z.of_nat n) mod 2 ^ 32)%Z /\
  accum (Nat.iter n invalidate_accumulation sh) = accum sh.
Proof.
  intros Hg. induction n as [|n [IHg IHa]].
  - cbn. rewrite Z.add_0_r, Z.mod_small by lia. auto.
  - rewrite Nat.iter_succ.
    set (prev := Nat.iter n invalidate_accumulation sh) in *.
    unfold invalidate_accumulation.
    cbn [accum_generation accum]. rewrite IHg. split; [|exact IHa].
    rewrite Zplus_mod_idemp_l. f_equal. lia.
Qed.

(** X24: the generation counter wraps: after [n] invalidations a worker
    that cached the generation from before them (and holds a buffer) has
    its merge enabled exactly when [n] is a multiple of 2^32. *)
Theorem generation_wraps_after_2_32 (n : nat) (sh : Shared) (w : Local) :
  (0 <= accum_generation sh < 2 ^ 32)%Z ->
  local_accum_generation w = accum_generation sh ->
  accum sh <> None -> local_accum w <> None ->
  (merge_enabled (Nat.iter n invalidate_accumulation sh) w = true <->
   (Z.of_nat n mod 2 ^ 32 = 0)%Z).
Proof.
  intros Hg Hw Ha Hl.
  destruct (invalidations_generation n sh Hg) as [Hgen Hacc].
  unfold merge_enabled. rewrite Hacc, Hgen, Hw.
  destruct (accum sh); [|contradiction]. destruct (local_accum w); [|contradiction].
  rewrite Z.eqb_eq.
  set (g := accum_generation sh) in *. set (m := Z.of_nat n).
  assert (Hm : (0 <= m)%Z) by (unfold m; lia).
  pose proof (Z.div_mod m (2 ^ 32) ltac:(lia)) as Hdm.
  pose proof (Z.mod_pos_bound m (2 ^ 32) ltac:(lia)) as Hmb.
  split.
  - intros H.
    assert (Hgm : ((g + m mod 2 ^ 32) mod 2 ^ 32 = g)%Z).
    { rewrite Zplus_mod_idemp_r. symmetry. exact H. }
    destruct (Z_lt_dec (g + m mod 2 ^ 32) (2 ^ 32)) as [Hlt|Hge].
    + rewrite Z.mod_small in Hgm by lia. lia.
    + replace (g + m mod 2 ^ 32)%Z with ((g + m mod 2 ^ 32 - 2 ^ 32) + 1 * 2 ^ 32)%Z in Hgm by lia.
      rewrite Z.mod_add in Hgm by lia. rewrite Z.mod_small in Hgm by lia. lia.
  - intros H. rewrite <- Zplus_mod_idemp_r, H, Z.add_0_r. symmetry. apply Z.mod_small. lia.
Qed.

Lemma generation_after_one_invalidation :
  merge_enabled
    (Nat.iter 1 invalidate_accumulation (mkShared 0 (Some []) (Some []) 0 0 0))
    (mkLocal 0 (Some []) 0 0 0) = true <->
  (Z.of_nat 1 mod 2 ^ 32 = 0)%Z.
Proof.
  apply (generation_wraps_after_2_32 1 (mkShared 0 (Some []) (Some []) 0 0 0)
           (mkLocal 0 (Some []) 0 0 0)); cbn; try lia; try reflexivity; discriminate.
Defined.

(** *** The presenter tick *)
Lemma seed_indices_inside (fw fh i j idx : Z) :
  (0 <= fw)%Z -> (0 <= fh)%Z ->
  In (i, j) (cells (Z.quot fw 16) (Z.quot fh 16)) ->
  In idx (seed_indices fw i j) ->
  exists ri rj, idx = (rj * fw + ri)%Z /\
    (0 <= ri < Z.quot fw 16 * 16)%Z /\ (0 <= rj < Z.quot fh 16 * 16)%Z /\
    (Z.quot fw 16 * 16 <= fw)%Z /\ (Z.quot fh 16 * 16 <= fh)%Z /\
    (0 <= idx < fw * fh)%Z.
Proof.
  intros Hw Hh Hc Hin. apply in_cells in Hc as [Hi Hj].
  unfold seed_indices in Hin.
  apply in_flat_map in Hin as [g [Hg Hin]].
  apply in_map_iff in Hin as [t [Heq Ht]].
  apply in_upto in Hg, Ht.
  assert (Hqw : (16 * Z.quot fw 16 <= fw)%Z).
  { rewrite Z.quot_div_nonneg by lia. apply Z.mul_div_le. lia. }
  assert (Hqh : (16 * Z.quot fh 16 <= fh)%Z).
  { rewrite Z.quot_div_nonneg by lia. apply Z.mul_div_le. lia. }
  exists (i * 16 + t)%Z, (j * 16 + g)%Z. subst idx.
  repeat split; try lia; nia.
Qed.

Lemma update_frame_texture_tick (render : R -> R -> R -> Rand Vector3)
  (screen_w screen_h : Z) (uninit : nat -> Vector3) (sh : Shared) (k : nat) :
  (0 <= screen_w)%Z -> (0 <= screen_h)%Z ->
  (0 <= frame_w sh)%Z -> (0 <= frame_h sh)%Z ->
  List.length (buffer_of (accum sh)) = Z.to_nat (frame_w sh * frame_h sh) ->
  let resized := negb ((frame_w sh =? screen_w)%Z && (frame_h sh =? screen_h)%Z) in
  let start := if resized then map uninit (seq 0 (Z.to_nat (screen_w * screen_h)))
               else buffer_of (accum sh) in
  let count := if resized then 0 else accum_count sh in
  exists (sh' : Shared) (acc' : list Vector3),
    fst (update_frame_texture render 1 screen_w screen_h uninit sh k) = Some sh' /\
    (frame_w sh', frame_h sh', accum_generation sh') =
      (screen_w, screen_h, accum_generation sh) /\
    buffer_of (accum sh') = acc' /\
    List.length acc' = Z.to_nat (screen_w * screen_h) /\
    accum_count sh' = (if Reqb count 0 then count + 1 / IZR (16 * 16) else count) /\
    (Reqb count 0 = false -> acc' = start) /\
    (resized = true ->
     frame sh' = Some (map (fun a => scale a (1 / accum_count sh')) acc')) /\
    (forall m,
       (forall c, In c (cells (Z.quot screen_w 16) (Z.quot screen_h 16)) ->
          ~ In (Z.of_nat m) (seed_indices screen_w (fst c) (snd c))) ->
       nth_error acc' m = nth_error start m).
Proof.
  intros Hsw Hsh Hfw Hfh Hlen. cbv zeta.
  unfold update_frame_texture.
  rewrite !Reqb_IZR_unit, !truncR_IZR_unit, <- negb_andb.
  set (resized := negb ((frame_w sh =? screen_w)%Z && (frame_h sh =? screen_h)%Z)).
  set (sh1 := if resized then _ else sh).
  assert (Hsh1 : (frame_w sh1, frame_h sh1, accum_generation sh1) =
                 (screen_w, screen_h, accum_generation sh) /\
                 buffer_of (accum sh1) =
                   (if resized then map uninit (seq 0 (Z.to_nat (screen_w * screen_h)))
                    else buffer_of (accum sh)) /\
                 accum_count sh1 = (if resized then 0 else accum_count sh) /\
                 List.length (buffer_of (accum sh1)) = Z.to_nat (screen_w * screen_h)).
  { unfold sh1. destruct resized eqn:Er; cbn.
    - repeat split. now rewrite length_map, length_seq.
    - unfold resized in Er. apply negb_false_iff in Er.
      apply andb_prop in Er as [E1 E2]. apply Z.eqb_eq in E1, E2.
      repeat split; congruence. }
  destruct Hsh1 as [Hdims [Hbuf [Hcount Hlen1]]].
  assert (Hframe : resized = true -> exists fr, frame sh1 = Some fr).
  { intros Er. unfold sh1. rewrite Er. cbn. eauto. }
  inversion Hdims as [[Hw1 Hh1 Hg1]].
  fold (buffer_of (accum sh1)).
  rewrite Hw1, Hh1, Hcount, Hbuf.
  rewrite Hbuf in Hlen1.
  set (start := if resized then _ else buffer_of (accum sh)) in *.
  set (count := if resized then 0 else accum_count sh) in *.
  unfold bind, ret. cbv zeta.
  destruct (Reqb count 0) eqn:Ec; cbn [fst snd].
  - match goal with
    | |- context [seed_cells render ?fw ?a ?b ?cs (Some start) k] =>
        destruct (seed_cells_inside render fw a b cs start k) as [b' [Hp [Hl Ho]]]
    end.
    { intros [i j] idx Hc Hin. cbn [fst snd] in Hin.
      destruct (seed_indices_inside screen_w screen_h i j idx Hsw Hsh Hc Hin)
        as [ri [rj [_ [_ [_ [_ [_ Hr]]]]]]].
      rewrite Hlen1. lia. }
    rewrite Hp. eexists. exists b'. split; [reflexivity|].
    cbn [frame_w frame_h accum_generation accum accum_count].
    split; [congruence|]. split.
    { destruct (accum sh1) eqn:Ea; cbn; [reflexivity|].
      cbn in Hbuf. rewrite <- Hbuf in Hl. destruct b'; [reflexivity | discriminate]. }
    split; [congruence|]. split; [reflexivity|]. split; [discriminate|].
    split; [|exact Ho].
    intros Er. destruct (Hframe Er) as [fr ->]. cbn [option_map].
    rewrite firstn_all2 by lia. reflexivity.
  - eexists. exists start. split; [reflexivity|].
    cbn [frame_w frame_h accum_generation accum accum_count].
    split; [congruence|]. split.
    { destruct (accum sh1) eqn:Ea; cbn; [reflexivity|]. cbn in Hbuf. exact Hbuf. }
    split; [exact Hlen1|]. split; [reflexivity|]. split; [reflexivity|].
    split; [|reflexivity].
    intros Er. destruct (Hframe Er) as [fr ->]. cbn [option_map].
    rewrite firstn_all2 by lia. reflexivity.
Qed.



(** X26: the tick that resizes allocates [accum] without clearing it and
    the preview only fills whole 16 x 16 tiles: for a screen whose preview
    grid is not exactly one tile wide or one tile high (there the source
    divides 0 by 0 for the screen coordinate), every pixel of the new
    frame beyond the last whole tile, in either direction, still holds
    what the allocation returned, and the frame handed to the display
    shows that value times 256. *)
Theorem resize_leaves_border_uninitialised (render : R -> R -> R -> Rand Vector3)
  (screen_w screen_h : Z) (uninit : nat -> Vector3) (sh : Shared) (k : nat)
  (real_i real_j : Z) :
  Z.quot screen_w 16 <> 1%Z -> Z.quot screen_h 16 <> 1%Z ->
  (0 <= frame_w sh)%Z -> (0 <= frame_h sh)%Z ->
  List.length (buffer_of (accum sh)) = Z.to_nat (frame_w sh * frame_h sh) ->
  (frame_w sh, frame_h sh) <> (screen_w, screen_h) ->
  (0 <= real_i < screen_w)%Z -> (0 <= real_j < screen_h)%Z ->
  (Z.quot screen_w 16 * 16 <= real_i \/ Z.quot screen_h 16 * 16 <= real_j)%Z ->
  exists (sh' : Shared) (acc' fr' : list Vector3),
    fst (update_frame_texture render 1 screen_w screen_h uninit sh k) = Some sh' /\
    accum sh' = Some acc' /\ frame sh' = Some fr' /\
    let pixel_index := Z.to_nat (real_j * screen_w + real_i) in
    nth_error acc' pixel_index = Some (uninit pixel_index) /\
    nth_error fr' pixel_index = Some (scale (uninit pixel_index) (1 / (0 + 1 / IZR (16 * 16)))).
Proof.
  intros _ _ Hfw Hfh Hlen Hne Hi Hj Hborder.
  destruct (update_frame_texture_tick render screen_w screen_h uninit sh k
              ltac:(lia) ltac:(lia) Hfw Hfh Hlen)
    as [sh' [acc' [Hres [Hdims [Hbuf [Hlen' [Hc [_ [Hframe Hkeep]]]]]]]]].
  assert (Er : negb ((frame_w sh =? screen_w)%Z && (frame_h sh =? screen_h)%Z) = true).
  { apply negb_true_iff. apply andb_false_iff.
    destruct (Z.eq_dec (frame_w sh) screen_w) as [E1|E1];
      [|left; now apply Z.eqb_neq].
    destruct (Z.eq_dec (frame_h sh) screen_h) as [E2|E2];
      [|right; now apply Z.eqb_neq].
    exfalso. apply Hne. congruence. }
  rewrite Er in *. rewrite Reqb_refl in Hc. specialize (Hframe eq_refl).
  assert (Hin : (0 <= real_j * screen_w + real_i < screen_w * screen_h)%Z) by nia.
  assert (Hacc : accum sh' = Some acc').
  { destruct (accum sh') as [a|] eqn:Ea; cbn in Hbuf; [congruence|].
    subst acc'. cbn in Hlen'. lia. }
  exists sh', acc', (map (fun a => scale a (1 / accum_count sh')) acc').
  split; [exact Hres|]. split; [exact Hacc|]. split; [exact Hframe|].
  cbv zeta.
  assert (Hnth : nth_error acc' (Z.to_nat (real_j * screen_w + real_i)) =
                 Some (uninit (Z.to_nat (real_j * screen_w + real_i)))).
  { rewrite Hkeep.
    - rewrite nth_error_map, nth_error_seq.
      replace (Z.to_nat (real_j * screen_w + real_i) <? Z.to_nat (screen_w * screen_h))%nat
        with true by (symmetry; apply Nat.ltb_lt; lia).
      reflexivity.
    - intros [i j] Hc' Hin'. cbn [fst snd] in Hin'. rewrite Z2Nat.id in Hin' by lia.
      destruct (seed_indices_inside screen_w screen_h i j _ ltac:(lia) ltac:(lia) Hc' Hin')
        as [ri [rj [Heq [Hri [Hrj [Hqw [Hqh _]]]]]]].
      assert (Hu : real_j = rj /\ real_i = ri) by (apply (split_unique screen_w); lia).
      lia. }
  split; [exact Hnth|].
  rewrite nth_error_map, Hnth, Hc. reflexivity.
Qed.

Lemma resize_border_40x40 :
  exists (sh' : Shared) (acc' fr' : list Vector3),
    fst (update_frame_texture (fun u v _ => ret (mkV u v 0)) 1 40 40 (fun _ => mkV 7 7 7)
           shared_2x2 0%nat) = Some sh' /\
    accum sh' = Some acc' /\ frame sh' = Some fr' /\
    let pixel_index := Z.to_nat (5 * 40 + 33) in
    nth_error acc' pixel_index = Some (mkV 7 7 7) /\
    nth_error fr' pixel_index = Some (scale (mkV 7 7 7) (1 / (0 + 1 / IZR (16 * 16)))).
Proof.
  apply (resize_leaves_border_uninitialised (fun u v _ => ret (mkV u v 0)) 40 40
           (fun _ => mkV 7 7 7) shared_2x2 0%nat 33 5);
    cbn; first [lia | reflexivity | (intros H; inversion H)].
Defined.

(** *** Face coordinates and the presenter's tick *)

Lemma div_unit (b a : R) : 0 < a -> - a <= b <= a -> -1 <= b / a <= 1.
Proof.
  intros Ha Hb.
  assert (H : b / a * a = b) by (field; lra).
  split; nra.
Qed.

(** X28: when the axis of the selected face carries the largest absolute
    component (x or y strictly, or z weakly and non-zero), the raw (u, v)
    of [sample_cubemap] lie in [-1, 1], so the clamp changes nothing. *)
Theorem cubemap_face_uv_in_range (dir : Vector3) :
  (Rabs (vy dir) < Rabs (vx dir) /\ Rabs (vz dir) < Rabs (vx dir)) \/
  (Rabs (vx dir) < Rabs (vy dir) /\ Rabs (vz dir) < Rabs (vy dir)) \/
  (Rabs (vx dir) <= Rabs (vz dir) /\ Rabs (vy dir) <= Rabs (vz dir) /\ vz dir <> 0) ->
  let '(_, u, v) := cubemap_face_uv dir in
  -1 <= u <= 1 /\ -1 <= v <= 1.
Proof.
  intros Hdom. unfold cubemap_face_uv. cbv zeta. rewrite !absf_Rabs.
  rewrite !Rplus_0_r.
  pose proof (Rabs_pos (vx dir)) as Px.
  pose proof (Rabs_pos (vy dir)) as Py.
  pose proof (Rabs_pos (vz dir)) as Pz.
  pose proof (Rle_abs (vx dir)) as Ux. pose proof (Rle_abs (- vx dir)) as Lx.
  pose proof (Rle_abs (vy dir)) as Uy. pose proof (Rle_abs (- vy dir)) as Ly.
  pose proof (Rle_abs (vz dir)) as Uz. pose proof (Rle_abs (- vz dir)) as Lz.
  rewrite Rabs_Ropp in Lx, Ly, Lz.
  destruct (Rltb (Rabs (vy dir)) (Rabs (vx dir)) && Rltb (Rabs (vz dir)) (Rabs (vx dir))) eqn:Ex.
  { apply andb_prop in Ex as [E1 E2]. apply Rltb_true in E1, E2.
    destruct (Rltb 0 (vx dir)); split; apply div_unit; lra. }
  destruct (Rltb (Rabs (vx dir)) (Rabs (vy dir)) && Rltb (Rabs (vz dir)) (Rabs (vy dir))) eqn:Ey.
  { apply andb_prop in Ey as [E1 E2]. apply Rltb_true in E1, E2.
    destruct (Rltb 0 (vy dir)); split; apply div_unit; lra. }
  assert (Hz : Rabs (vx dir) <= Rabs (vz dir) /\ Rabs (vy dir) <= Rabs (vz dir) /\ 0 < Rabs (vz dir)).
  { destruct Hdom as [[H1 H2] | [[H1 H2] | [H1 [H2 H3]]]].
    - exfalso. apply andb_false_iff in Ex as [E | E]; apply Rltb_false in E; lra.
    - exfalso. apply andb_false_iff in Ey as [E | E]; apply Rltb_false in E; lra.
    - repeat split; auto. now apply Rabs_pos_lt. }
  destruct Hz as [H1 [H2 H3]].
  destruct (Rltb 0 (vz dir)); split; apply div_unit; lra.
Qed.

Lemma cubemap_face_uv_in_range_diag :
  let '(_, u, v) := cubemap_face_uv (mkV 1 1 1) in
  -1 <= u <= 1 /\ -1 <= v <= 1.
Proof.
  apply (cubemap_face_uv_in_range (mkV 1 1 1)).
  right. right. cbn [vx vy vz]. repeat split; lra.
Defined.

(** An instance of [update_frame_texture_keeps_merge]: the first tick
    sizes the frame to 2 x 2 and a worker that could merge still can. *)
Lemma update_frame_texture_keeps_merge_2x2 :
  merge_enabled
    (mkShared 0 (Some (map (fun _ => zerov) (seq 0 (Z.to_nat (2 * 2)))))
       (Some (map (fun a => scale a (1 / (0 + 1 / IZR (16 * 16))))
                (firstn (Z.to_nat (2 * 2))
                   (map (fun _ => zerov) (seq 0 (Z.to_nat (2 * 2)))))))
       2 2 (0 + 1 / IZR (16 * 16)))
    (mkLocal 0 (Some []) 0 0 0) = true.
Proof.
  apply (update_frame_texture_keeps_merge (fun _ _ _ => ret zerov) 1 2 2 (fun _ => zerov)
           (mkShared 0 (Some []) (Some []) 0 0 0) _ (mkLocal 0 (Some []) 0 0 0) 0%nat).
  - rewrite update_frame_texture_resize_small by (reflexivity || lia). reflexivity.
  - reflexivity.
Defined.
